(** * MC/DC particle tracker: a shallow embedding of [mcdc/simulator.py]

    The development follows the Python class [Simulator] method by method.
    Python floats are IEEE-754 binary64 values and are modelled by Rocq's
    primitive floats; Python integers are [Z]; lists are [list]; attribute
    mutation is explicit state passing over the records [Particle] and
    [Simulator].  Uncaught Python exceptions and [sys.exit()] are results of
    the type [Outcome].  Collaborators that live outside [simulator.py]
    (the RNG, the particle and geometry classes, MPI helpers, numpy) are
    either modelled from the specification, with a note saying so, or taken
    as interfaces. *)

From Stdlib Require Import ZArith List Bool Lia.
From Stdlib Require Import Floats.
From Stdlib Require String.
Import ListNotations.
Import String.StringSyntax.
Delimit Scope string_scope with string.

Set Implicit Arguments.

(* ====================================================================== *)
(** * Python floats *)
(* ====================================================================== *)

(** Python's [a > b] on floats. *)
Definition fgt (a b : float) : bool := PrimFloat.ltb b a.

(** Python's [a != b] on floats. *)
Definition fne (a b : float) : bool := negb (PrimFloat.eqb a b).

(** [float(n)] for a Python integer: round to nearest binary64. *)
Definition float_of_Z (n : Z) : float :=
  SF2Prim (binary_normalize prec emax n 0 false).

(** A float that is a number (not NaN). *)
Definition not_nan (a : float) : Prop := PrimFloat.is_nan a = false.

(** Key of a non-NaN float in the lexicographic order on [Z * Z * Z] that
    agrees with the IEEE comparison: class (sign and infinity), exponent,
    mantissa. *)
Definition lexkey (s : spec_float) : Z * Z * Z :=
  match s with
  | S754_zero _ => (0, 0, 0)
  | S754_infinity sg => (if sg then -2 else 2, 0, 0)
  | S754_nan => (0, 0, 0)
  | S754_finite sg m e => if sg then (-1, - e, Z.neg m) else (1, e, Z.pos m)
  end%Z.

Definition lexcmp (p q : Z * Z * Z) : comparison :=
  let '(a1, b1, c1) := p in
  let '(a2, b2, c2) := q in
  match (a1 ?= a2)%Z with
  | Eq => match (b1 ?= b2)%Z with Eq => (c1 ?= c2)%Z | r => r end
  | r => r
  end.

Definition lex_lt (p q : Z * Z * Z) : Prop :=
  let '(a1, b1, c1) := p in
  let '(a2, b2, c2) := q in
  (a1 < a2 \/ (a1 = a2 /\ (b1 < b2 \/ (b1 = b2 /\ c1 < c2))))%Z.

Definition lex_le (p q : Z * Z * Z) : Prop :=
  let '(a1, b1, c1) := p in
  let '(a2, b2, c2) := q in
  (a1 < a2 \/ (a1 = a2 /\ (b1 < b2 \/ (b1 = b2 /\ c1 <= c2))))%Z.

Definition fkey (a : float) : Z * Z * Z := lexkey (Prim2SF a).

(* ====================================================================== *)
(** * Outcomes of a call *)
(* ====================================================================== *)

(** The uncaught Python exceptions the simulator can raise. *)
Inductive PyExc : Type :=
| AttributeError   (* attribute access on [None] *)
| IndexError       (* list index out of range *)
| TypeError        (* [None] used as a number or an index *)
| NameError        (* loop variable of an empty [range] read after the loop *)
| ValueError       (* [floor(nan)] *)
| OverflowError.   (* [floor(inf)] *)

(** [mcdc/point.py] is not part of the sources; [Point] is a triple of
    floats with the two operations [simulator.py] uses. *)
Record Point : Type := mkPoint { pt_x : float; pt_y : float; pt_z : float }.

(** [p * d] *)
Definition point_scale (p : Point) (d : float) : Point :=
  mkPoint (pt_x p * d) (pt_y p * d) (pt_z p * d).

(** [p += q] *)
Definition point_add (p q : Point) : Point :=
  mkPoint (pt_x p + pt_x q) (pt_y p + pt_y q) (pt_z p + pt_z q).

Inductive Outcome (A : Type) : Type :=
| Ret (a : A)                 (* normal return *)
| Lost (pos : Point)          (* print("ERROR: A particle is lost at "+str(pos)); sys.exit() *)
| Raise (e : PyExc)           (* uncaught exception *)
| OutOfFuel.                  (* the loop did not finish within the given fuel *)

Arguments Ret {A} a.
Arguments Lost {A} pos.
Arguments Raise {A} e.
Arguments OutOfFuel {A}.

Definition bind {A B : Type} (m : Outcome A) (k : A -> Outcome B) : Outcome B :=
  match m with
  | Ret a => k a
  | Lost p => Lost p
  | Raise e => Raise e
  | OutOfFuel => OutOfFuel
  end.

Declare Scope py_scope.
Delimit Scope py_scope with py.
Notation "x <- m ;; k" := (bind m (fun x => k))
  (at level 61, m at next level, right associativity) : py_scope.
Notation "' pat <- m ;; k" := (bind m (fun x => match x with pat => k end))
  (at level 61, pat pattern, m at next level, right associativity) : py_scope.
Open Scope py_scope.

(** [l[i]] for a list and a non-negative index. *)
Definition index {A : Type} (l : list A) (i : nat) : Outcome A :=
  match nth_error l i with
  | Some a => Ret a
  | None => Raise IndexError
  end.

(** [l[i]] for a Python integer index: negative indices count from the end. *)
Definition py_index {A : Type} (l : list A) (i : Z) : Outcome A :=
  let n := Z.of_nat (length l) in
  if (0 <=? i)%Z then index l (Z.to_nat i)
  else if (- n <=? i)%Z then index l (Z.to_nat (n + i))
  else Raise IndexError.

(** [obj.attr] where [obj] may be [None]. *)
Definition attr {A : Type} (o : option A) : Outcome A :=
  match o with
  | Some a => Ret a
  | None => Raise AttributeError
  end.

(** [math.floor(x)]: an integer, or an exception on NaN and infinities. *)
Definition py_floor (a : float) : Outcome Z :=
  match Prim2SF a with
  | S754_zero _ => Ret 0%Z
  | S754_finite sg m e =>
      let v := if sg then Z.neg m else Z.pos m in
      Ret (if (0 <=? e)%Z then Z.shiftl v e else Z.shiftr v (- e))
  | S754_infinity _ => Raise OverflowError
  | S754_nan => Raise ValueError
  end.

(** [l.pop()]: the last element and the rest. *)
Fixpoint list_pop {A : Type} (l : list A) : option (list A * A) :=
  match l with
  | [] => None
  | a :: l' =>
      match list_pop l' with
      | None => Some ([], a)
      | Some (r, b) => Some (a :: r, b)
      end
  end.

(** [l[i] = v] on an array. *)
Fixpoint list_set {A : Type} (l : list A) (i : nat) (v : A) : list A :=
  match l, i with
  | [], _ => []
  | _ :: l', O => v :: l'
  | a :: l', S i' => a :: list_set l' i' v
  end.

(** [l[i] = v] for a Python integer index. *)
Definition py_setitem {A : Type} (l : list A) (i : Z) (v : A) : Outcome (list A) :=
  let n := Z.of_nat (length l) in
  if (0 <=? i)%Z then
    if (i <? n)%Z then Ret (list_set l (Z.to_nat i) v) else Raise IndexError
  else if (- n <=? i)%Z then Ret (list_set l (Z.to_nat (n + i)) v)
  else Raise IndexError.

(* ====================================================================== *)
(** * Constants ([mcdc/constant.py], values from the specification) *)
(* ====================================================================== *)

Definition SMALL : float := 0x1.b7cdfd9d7bdbbp-34%float.       (* 1e-10 *)
Definition VERY_SMALL : float := 0x1.79ca10c924223p-67%float.  (* 1e-20 *)
Definition INF : float := infinity.
Definition np_pi : float := 0x1.921fb54442d18p+1%float.
Definition LCG_SEED : Z := 1.
Definition LCG_STRIDE : Z := 152917.
(** Modelled from the spec: a 63-bit linear-congruential generator with
    fixed (g, c, mod); the multiplier and increment are those customary for
    63-bit generators.  No theorem below depends on their values. *)
Definition LCG_G : Z := 2806196910506780709.
Definition LCG_C : Z := 1.
Definition LCG_MOD : Z := 2 ^ 63.

Inductive Event : Type := EVENT_COLLISION | EVENT_SURFACE | EVENT_CENSUS.

(* ====================================================================== *)
(** * The random number generator ([mcdc.random]) *)
(* ====================================================================== *)

Module Random.

(** Modelled from the spec: [mcdc/random.py] is not among the sources.  The
    generator is a linear-congruential generator [s -> (g*s + c) mod m] with
    a current state [seed], a base state [seed_base] from which every
    [skip_ahead] starts, and a [stride], the number of draws reserved per
    history: [skip_ahead(n)] moves [n] strides past the base. *)
Record RandomLCG : Type := mkRandomLCG {
  g : Z;
  c : Z;
  mod_ : Z;
  stride : Z;
  seed_base : Z;
  seed : Z
}.

(** [RandomLCG(seed=..., stride=...)] *)
Definition init (seed0 stride0 : Z) : RandomLCG :=
  mkRandomLCG LCG_G LCG_C LCG_MOD stride0 seed0 seed0.

Definition set_seed (r : RandomLCG) (s : Z) : RandomLCG :=
  mkRandomLCG (g r) (c r) (mod_ r) (stride r) (seed_base r) s.

(** One step of the generator on a state. *)
Definition next (r : RandomLCG) (s : Z) : Z := ((g r * s + c r) mod mod_ r)%Z.

(** [rng()]: advance the state by one draw and return [state / mod]. *)
Definition call (r : RandomLCG) : float * RandomLCG :=
  let s := next r (seed r) in
  ((float_of_Z s / float_of_Z (mod_ r))%float, set_seed r s).

(** The O(log n) loop of [skip_ahead]: over the bits of [n], lowest first,
    [(gg, cc)] is the affine map of [2^k] draws and [(g_new, c_new)]
    accumulates the map of the bits seen so far. *)
Fixpoint skip_loop (m : Z) (n : positive) (gg cc g_new c_new : Z) : Z * Z :=
  match n with
  | xH => ((g_new * gg) mod m, (c_new * gg + cc) mod m)%Z
  | xO n' => skip_loop m n' ((gg * gg) mod m)%Z (((gg + 1) * cc) mod m)%Z g_new c_new
  | xI n' =>
      skip_loop m n' ((gg * gg) mod m)%Z (((gg + 1) * cc) mod m)%Z
        ((g_new * gg) mod m)%Z ((c_new * gg + cc) mod m)%Z
  end.

(** The affine map [(g^k, c*(g^k - 1)/(g - 1)) mod m] of [k] draws. *)
Definition skip_map (r : RandomLCG) (k : Z) : Z * Z :=
  match k with
  | Zpos p => skip_loop (mod_ r) p (g r) (c r) 1 0
  | _ => (1, 0)%Z
  end.

(** [rng.skip_ahead(n, rebase)]: the state [n] strides past the base; with
    [rebase] that state becomes the new base. *)
Definition skip_ahead (r : RandomLCG) (n : Z) (rebase : bool) : RandomLCG :=
  let '(g_new, c_new) := skip_map r (n * stride r) in
  let s := ((g_new * seed_base r + c_new) mod mod_ r)%Z in
  mkRandomLCG (g r) (c r) (mod_ r) (stride r) (if rebase then s else seed_base r) s.

(** The generator after [n] draws, and the [k]-th draw to come: collaborators
    that sample (sources, population control) see the generator only through
    the draws they take. *)
Fixpoint advance (r : RandomLCG) (n : nat) : RandomLCG :=
  match n with
  | O => r
  | S n' => advance (snd (call r)) n'
  end.

Definition stream (r : RandomLCG) (k : nat) : float := fst (call (advance r k)).

(** The state reached from [s] by [n] draws. *)
Definition iterate (r : RandomLCG) (n : nat) (s : Z) : Z := Nat.iter n (next r) s.

(** The affine map [(G, C)] on states modulo [m]. *)
Definition affine (m G C s : Z) : Z := ((G * s + C) mod m)%Z.

(** Two generators of the same sequence and configuration (they may differ in
    the current state and in the base). *)
Definition same_config (r1 r2 : RandomLCG) : Prop :=
  g r1 = g r2 /\ c r1 = c r2 /\ mod_ r1 = mod_ r2 /\ stride r1 = stride r2.

End Random.

(* ====================================================================== *)
(** * Work distribution ([mcdc.mpi]) *)
(* ====================================================================== *)

Module Mpi.

(** Modelled from the spec: [mcdc/mpi.py] is not among the sources.  The
    module-level variables a rank holds after [distribute_work]: the first
    global history index of the rank, the number of its histories, and the
    number of histories of all ranks. *)
Record Mpi : Type := mkMpi {
  work_start : Z;
  work_size : Z;
  work_size_total : Z;
  master : bool
}.

(** A partition of [N] histories into ranks with contiguous index ranges,
    given by the ranks' sizes in rank order: the rank states it induces,
    rank 0 being the master. *)
Fixpoint ranks_from (rank : nat) (start total : Z) (sizes : list Z) : list Mpi :=
  match sizes with
  | [] => []
  | n :: rest =>
      mkMpi start n total (rank =? 0)%nat :: ranks_from (S rank) (start + n) total rest
  end.

Definition sum_sizes (sizes : list Z) : Z := fold_right Z.add 0%Z sizes.

Definition partition (N : Z) (sizes : list Z) : list Mpi := ranks_from 0 0 N sizes.

Definition is_partition (N : Z) (sizes : list Z) : Prop :=
  Forall (fun n => 0 <= n)%Z sizes /\ sum_sizes sizes = N.

(** The rank holding global history [k], and the history's rank-local index. *)
Fixpoint locate (ranks : list Mpi) (k : Z) : option (Mpi * Z) :=
  match ranks with
  | [] => None
  | r :: rest =>
      if ((work_start r <=? k) && (k <? work_start r + work_size r))%Z
      then Some (r, (k - work_start r)%Z)
      else locate rest k
  end.

End Mpi.

(* ====================================================================== *)
(** * Materials, geometry, particles *)
(* ====================================================================== *)

(** Multi-group cross sections: one entry per group, and for the two
    transfer tables one row per incoming group. *)
Record Material : Type := mkMaterial {
  SigmaT : list float;
  SigmaC : list float;
  SigmaS : list float;
  SigmaF : list float;
  nu : list float;
  SigmaS_diff : list (list float);
  SigmaF_diff : list (list float)
}.

(** Modelled from the spec: a surface is an opaque provider of
    [distance(pos, dir)] and of a boundary condition that mutates the
    direction (reflective), kills (vacuum) or does nothing (transmission):
    [Surface_bc pos dir] is the direction after the boundary condition and
    whether the particle survives it. *)
Record Surface : Type := mkSurface {
  Surface_distance : Point -> Point -> float;
  Surface_bc : Point -> Point -> Point * bool
}.

Definition bc_vacuum (pos dir : Point) : Point * bool := (dir, false).
Definition bc_transmission (pos dir : Point) : Point * bool := (dir, true).
(** Specular reflection on a plane normal to the x axis. *)
Definition bc_reflective_x (pos dir : Point) : Point * bool :=
  (mkPoint (- pt_x dir) (pt_y dir) (pt_z dir), true).

Record Cell : Type := mkCell {
  surfaces : list Surface;
  material : Material;
  test_point : Point -> bool
}.

(** [mcdc/particle.py] is not among the sources; the fields are those the
    specification lists and [simulator.py] reads and writes.  The second
    group is the shadow state written by [save_previous_state]. *)
Record Particle : Type := mkParticle {
  pos : Point;
  dir : Point;
  g : nat;
  time : float;
  wgt : float;
  alive : bool;
  speed : float;
  cell : option Cell;
  surface : option Surface;
  time_idx : option Z;
  distance : float;
  pos_old : Point;
  g_old : nat;
  time_old : float;
  wgt_old : float;
  cell_old : option Cell
}.

(** [Particle(pos, dir, g, time, wgt, cell, time_idx)].  Modelled from the
    spec: a new particle is alive, on no surface, has travelled no distance,
    and its shadow state is its own state. *)
Definition Particle_new (pos0 dir0 : Point) (g0 : nat) (time0 wgt0 : float)
    (cell0 : option Cell) (time_idx0 : option Z) : Particle :=
  mkParticle pos0 dir0 g0 time0 wgt0 true 0%float cell0 None time_idx0 0%float
    pos0 g0 time0 wgt0 cell0.

Definition set_pos (P : Particle) (v : Point) : Particle :=
  mkParticle v (dir P) (g P) (time P) (wgt P) (alive P) (speed P) (cell P) (surface P)
    (time_idx P) (distance P) (pos_old P) (g_old P) (time_old P) (wgt_old P) (cell_old P).
Definition set_dir (P : Particle) (v : Point) : Particle :=
  mkParticle (pos P) v (g P) (time P) (wgt P) (alive P) (speed P) (cell P) (surface P)
    (time_idx P) (distance P) (pos_old P) (g_old P) (time_old P) (wgt_old P) (cell_old P).
Definition set_g (P : Particle) (v : nat) : Particle :=
  mkParticle (pos P) (dir P) v (time P) (wgt P) (alive P) (speed P) (cell P) (surface P)
    (time_idx P) (distance P) (pos_old P) (g_old P) (time_old P) (wgt_old P) (cell_old P).
Definition set_time (P : Particle) (v : float) : Particle :=
  mkParticle (pos P) (dir P) (g P) v (wgt P) (alive P) (speed P) (cell P) (surface P)
    (time_idx P) (distance P) (pos_old P) (g_old P) (time_old P) (wgt_old P) (cell_old P).
Definition set_alive (P : Particle) (v : bool) : Particle :=
  mkParticle (pos P) (dir P) (g P) (time P) (wgt P) v (speed P) (cell P) (surface P)
    (time_idx P) (distance P) (pos_old P) (g_old P) (time_old P) (wgt_old P) (cell_old P).
Definition set_speed (P : Particle) (v : float) : Particle :=
  mkParticle (pos P) (dir P) (g P) (time P) (wgt P) (alive P) v (cell P) (surface P)
    (time_idx P) (distance P) (pos_old P) (g_old P) (time_old P) (wgt_old P) (cell_old P).
Definition set_cell_field (P : Particle) (v : option Cell) : Particle :=
  mkParticle (pos P) (dir P) (g P) (time P) (wgt P) (alive P) (speed P) v (surface P)
    (time_idx P) (distance P) (pos_old P) (g_old P) (time_old P) (wgt_old P) (cell_old P).
Definition set_surface (P : Particle) (v : option Surface) : Particle :=
  mkParticle (pos P) (dir P) (g P) (time P) (wgt P) (alive P) (speed P) (cell P) v
    (time_idx P) (distance P) (pos_old P) (g_old P) (time_old P) (wgt_old P) (cell_old P).
Definition set_time_idx_field (P : Particle) (v : option Z) : Particle :=
  mkParticle (pos P) (dir P) (g P) (time P) (wgt P) (alive P) (speed P) (cell P) (surface P)
    v (distance P) (pos_old P) (g_old P) (time_old P) (wgt_old P) (cell_old P).
Definition set_distance (P : Particle) (v : float) : Particle :=
  mkParticle (pos P) (dir P) (g P) (time P) (wgt P) (alive P) (speed P) (cell P) (surface P)
    (time_idx P) v (pos_old P) (g_old P) (time_old P) (wgt_old P) (cell_old P).

(** Modelled from the spec: [P.save_previous_state()] records
    (w, g, cell, t, pos) into the shadow slot. *)
Definition save_previous_state (P : Particle) : Particle :=
  mkParticle (pos P) (dir P) (g P) (time P) (wgt P) (alive P) (speed P) (cell P) (surface P)
    (time_idx P) (distance P) (pos P) (g P) (time P) (wgt P) (cell P).

(** Modelled from the spec: [P.reset_record()] resets the distance
    accumulated over the step. *)
Definition reset_record (P : Particle) : Particle := set_distance P 0%float.

(** Modelled from the spec: [P.create_copy()] is a particle value of its own
    with the same state. *)
Definition create_copy (P : Particle) : Particle := P.

(** Modelled from the spec: a source has a probability and a sampler
    [get_particle()]; the sampler sees the generator only through the draws
    it takes and returns the particle with the number of draws taken. *)
Record Source : Type := mkSource {
  prob : float;
  get_particle : (nat -> float) -> Particle * nat
}.

Definition set_prob (s : Source) (p : float) : Source := mkSource p (get_particle s).

(* ====================================================================== *)
(** * The simulator state *)
(* ====================================================================== *)

(** Which bank [self.bank_fission] is an alias of. *)
Inductive BankRef : Type := BankStored | BankHistory.

(** The population control techniques of [mcdc/pct.py]. *)
Inductive PCT : Type := PCT_SS | PCT_SR | PCT_CO | PCT_COX | PCT_DD.

(** The attributes of [Simulator] that the tracking and iteration logic
    reads or writes, and the two module-level objects it works on:
    [mcdc.random.rng] and the work distribution of [mcdc.mpi].  Tallies, the
    timer and the output file are left out: the simulator only hands them
    particles to read. *)
Record Simulator : Type := mkSimulator {
  speeds : list float;
  cells : list Cell;
  sources : list Source;
  N_hist : Z;
  seed : Z;
  stride : Z;
  mode_eigenvalue : bool;
  mode_k : bool;
  k_eff : float;
  N_iter : Z;
  i_iter : Z;
  pct : PCT;
  census_time : list float;
  bank_stored : list Particle;
  bank_source : list Particle;
  bank_history : list Particle;
  bank_fission : option BankRef;
  nuSigmaF_sum : float;
  k_mean : list float;
  rng : Random.RandomLCG;
  mpi : Mpi.Mpi
}.

Definition set_sources (s : Simulator) (v : list Source) : Simulator :=
  mkSimulator (speeds s) (cells s) v (N_hist s) (seed s) (stride s) (mode_eigenvalue s)
    (mode_k s) (k_eff s) (N_iter s) (i_iter s) (pct s) (census_time s) (bank_stored s)
    (bank_source s) (bank_history s) (bank_fission s) (nuSigmaF_sum s) (k_mean s) (rng s) (mpi s).
Definition set_mode (s : Simulator) (eig k : bool) : Simulator :=
  mkSimulator (speeds s) (cells s) (sources s) (N_hist s) (seed s) (stride s) eig
    k (k_eff s) (N_iter s) (i_iter s) (pct s) (census_time s) (bank_stored s)
    (bank_source s) (bank_history s) (bank_fission s) (nuSigmaF_sum s) (k_mean s) (rng s) (mpi s).
Definition set_k_eff (s : Simulator) (v : float) : Simulator :=
  mkSimulator (speeds s) (cells s) (sources s) (N_hist s) (seed s) (stride s) (mode_eigenvalue s)
    (mode_k s) v (N_iter s) (i_iter s) (pct s) (census_time s) (bank_stored s)
    (bank_source s) (bank_history s) (bank_fission s) (nuSigmaF_sum s) (k_mean s) (rng s) (mpi s).
Definition set_N_iter (s : Simulator) (v : Z) : Simulator :=
  mkSimulator (speeds s) (cells s) (sources s) (N_hist s) (seed s) (stride s) (mode_eigenvalue s)
    (mode_k s) (k_eff s) v (i_iter s) (pct s) (census_time s) (bank_stored s)
    (bank_source s) (bank_history s) (bank_fission s) (nuSigmaF_sum s) (k_mean s) (rng s) (mpi s).
Definition set_i_iter (s : Simulator) (v : Z) : Simulator :=
  mkSimulator (speeds s) (cells s) (sources s) (N_hist s) (seed s) (stride s) (mode_eigenvalue s)
    (mode_k s) (k_eff s) (N_iter s) v (pct s) (census_time s) (bank_stored s)
    (bank_source s) (bank_history s) (bank_fission s) (nuSigmaF_sum s) (k_mean s) (rng s) (mpi s).
Definition set_pct_field (s : Simulator) (v : PCT) : Simulator :=
  mkSimulator (speeds s) (cells s) (sources s) (N_hist s) (seed s) (stride s) (mode_eigenvalue s)
    (mode_k s) (k_eff s) (N_iter s) (i_iter s) v (census_time s) (bank_stored s)
    (bank_source s) (bank_history s) (bank_fission s) (nuSigmaF_sum s) (k_mean s) (rng s) (mpi s).
Definition set_census_time (s : Simulator) (v : list float) : Simulator :=
  mkSimulator (speeds s) (cells s) (sources s) (N_hist s) (seed s) (stride s) (mode_eigenvalue s)
    (mode_k s) (k_eff s) (N_iter s) (i_iter s) (pct s) v (bank_stored s)
    (bank_source s) (bank_history s) (bank_fission s) (nuSigmaF_sum s) (k_mean s) (rng s) (mpi s).
Definition set_bank_stored (s : Simulator) (v : list Particle) : Simulator :=
  mkSimulator (speeds s) (cells s) (sources s) (N_hist s) (seed s) (stride s) (mode_eigenvalue s)
    (mode_k s) (k_eff s) (N_iter s) (i_iter s) (pct s) (census_time s) v
    (bank_source s) (bank_history s) (bank_fission s) (nuSigmaF_sum s) (k_mean s) (rng s) (mpi s).
Definition set_bank_source (s : Simulator) (v : list Particle) : Simulator :=
  mkSimulator (speeds s) (cells s) (sources s) (N_hist s) (seed s) (stride s) (mode_eigenvalue s)
    (mode_k s) (k_eff s) (N_iter s) (i_iter s) (pct s) (census_time s) (bank_stored s)
    v (bank_history s) (bank_fission s) (nuSigmaF_sum s) (k_mean s) (rng s) (mpi s).
Definition set_bank_history (s : Simulator) (v : list Particle) : Simulator :=
  mkSimulator (speeds s) (cells s) (sources s) (N_hist s) (seed s) (stride s) (mode_eigenvalue s)
    (mode_k s) (k_eff s) (N_iter s) (i_iter s) (pct s) (census_time s) (bank_stored s)
    (bank_source s) v (bank_fission s) (nuSigmaF_sum s) (k_mean s) (rng s) (mpi s).
Definition set_bank_fission (s : Simulator) (v : option BankRef) : Simulator :=
  mkSimulator (speeds s) (cells s) (sources s) (N_hist s) (seed s) (stride s) (mode_eigenvalue s)
    (mode_k s) (k_eff s) (N_iter s) (i_iter s) (pct s) (census_time s) (bank_stored s)
    (bank_source s) (bank_history s) v (nuSigmaF_sum s) (k_mean s) (rng s) (mpi s).
Definition set_nuSigmaF_sum (s : Simulator) (v : float) : Simulator :=
  mkSimulator (speeds s) (cells s) (sources s) (N_hist s) (seed s) (stride s) (mode_eigenvalue s)
    (mode_k s) (k_eff s) (N_iter s) (i_iter s) (pct s) (census_time s) (bank_stored s)
    (bank_source s) (bank_history s) (bank_fission s) v (k_mean s) (rng s) (mpi s).
Definition set_k_mean (s : Simulator) (v : list float) : Simulator :=
  mkSimulator (speeds s) (cells s) (sources s) (N_hist s) (seed s) (stride s) (mode_eigenvalue s)
    (mode_k s) (k_eff s) (N_iter s) (i_iter s) (pct s) (census_time s) (bank_stored s)
    (bank_source s) (bank_history s) (bank_fission s) (nuSigmaF_sum s) v (rng s) (mpi s).
Definition set_rng (s : Simulator) (v : Random.RandomLCG) : Simulator :=
  mkSimulator (speeds s) (cells s) (sources s) (N_hist s) (seed s) (stride s) (mode_eigenvalue s)
    (mode_k s) (k_eff s) (N_iter s) (i_iter s) (pct s) (census_time s) (bank_stored s)
    (bank_source s) (bank_history s) (bank_fission s) (nuSigmaF_sum s) (k_mean s) v (mpi s).
Definition set_mpi (s : Simulator) (v : Mpi.Mpi) : Simulator :=
  mkSimulator (speeds s) (cells s) (sources s) (N_hist s) (seed s) (stride s) (mode_eigenvalue s)
    (mode_k s) (k_eff s) (N_iter s) (i_iter s) (pct s) (census_time s) (bank_stored s)
    (bank_source s) (bank_history s) (bank_fission s) (nuSigmaF_sum s) (k_mean s) (rng s) v.

(** [Simulator(speeds, cells, sources, tallies, N_hist)]; the generator and
    the work distribution are those of the process at construction time. *)
Definition Simulator_init (speeds0 : list float) (cells0 : list Cell)
    (sources0 : list Source) (N_hist0 : Z) (rng0 : Random.RandomLCG) (mpi0 : Mpi.Mpi)
    : Simulator :=
  mkSimulator speeds0 cells0 sources0 N_hist0 LCG_SEED LCG_STRIDE false false 1%float 1 0
    PCT_SS [INF] [] [] [] None 0%float [] rng0 mpi0.

(** [self.set_kmode(N_iter, k_init)] *)
Definition set_kmode (s : Simulator) (N_iter0 : Z) (k_init : float) : Simulator :=
  let s := set_mode s true true in
  let s := set_N_iter s N_iter0 in
  let s := set_k_eff s k_init in
  let s := set_nuSigmaF_sum s 0%float in
  if Mpi.master (mpi s) then set_k_mean s (repeat 0%float (Z.to_nat N_iter0)) else s.

(** [self.set_pct(pct, census_time)]: the technique is given by its name;
    'SS' leaves [self.pct] as it is, an unknown name prints
    "ERROR: Unknown PCT ..." and exits before the census times are set
    ([None]). *)
Definition set_pct (s : Simulator) (pct0 : String.string) (census_time0 : list float)
    : option Simulator :=
  let technique (t : PCT) := Some (set_census_time (set_pct_field s t) census_time0) in
  if String.eqb pct0 "SS"%string then Some (set_census_time s census_time0)
  else if String.eqb pct0 "SR"%string then technique PCT_SR
  else if String.eqb pct0 "CO"%string then technique PCT_CO
  else if String.eqb pct0 "COX"%string then technique PCT_COX
  else if String.eqb pct0 "DD"%string then technique PCT_DD
  else None.

(** The bank [self.bank_fission] points to. *)
Definition bank_fission_list (s : Simulator) : Outcome (list Particle) :=
  match bank_fission s with
  | Some BankStored => Ret (bank_stored s)
  | Some BankHistory => Ret (bank_history s)
  | None => Raise AttributeError
  end.

(** [self.bank_fission.append(P)]: an append to the aliased bank. *)
Definition bank_fission_append (s : Simulator) (P : Particle) : Outcome Simulator :=
  match bank_fission s with
  | Some BankStored => Ret (set_bank_stored s (bank_stored s ++ [P]))
  | Some BankHistory => Ret (set_bank_history s (bank_history s ++ [P]))
  | None => Raise AttributeError
  end.

(** [mcdc.random.rng()] on the process-wide generator. *)
Definition rng_draw (s : Simulator) : float * Simulator :=
  let (u, r) := Random.call (rng s) in (u, set_rng s r).

(** What the tracking of particles never writes: the simulator with its
    banks of tracked particles, its accumulator and the current state of its
    generator blanked. *)
Definition setup (s : Simulator) : Simulator :=
  set_rng
    (set_nuSigmaF_sum (set_bank_history (set_bank_stored s []) []) 0%float)
    (Random.set_seed (rng s) 0).

(** The shadow state of a particle. *)
Definition shadow (P : Particle) : Point * nat * float * float * option Cell :=
  (pos_old P, g_old P, time_old P, wgt_old P, cell_old P).

(** The bank a reference points to, and that bank replaced. *)
Definition bank_of (ref : BankRef) (s : Simulator) : list Particle :=
  match ref with BankStored => bank_stored s | BankHistory => bank_history s end.

Definition set_bank_of (ref : BankRef) (s : Simulator) (v : list Particle) : Simulator :=
  match ref with BankStored => set_bank_stored s v | BankHistory => set_bank_history s v end.

(* ====================================================================== *)
(** * Collaborators taken as interfaces *)
(* ====================================================================== *)

(** numpy's elementary functions. *)
Class NumPy : Type := {
  np_log : float -> float;
  np_cos : float -> float;
  np_sin : float -> float
}.

(** [mcdc.mpi]: the sum of a local value over all ranks, the weight
    normalisation of a bank, and the work distribution of [N] histories. *)
Class MpiOps : Type := {
  allreduce : float -> float;
  normalize_weight : list Particle -> Z -> list Particle;
  distribute_work : Z -> Mpi.Mpi -> Mpi.Mpi
}.

(** [mcdc.pct]: a technique applied to a bank and a target size; it takes
    its draws from the generator and returns the number taken. *)
Class PctOps : Type := {
  pct_call : PCT -> list Particle -> Z -> (nat -> float) -> list Particle * nat
}.

(* ====================================================================== *)
(** * The methods of [Simulator] *)
(* ====================================================================== *)

Section Methods.

Context {np : NumPy} {mpi_ops : MpiOps} {pct_ops : PctOps}.

(** Modelled from the spec: [binary_search(x, grid)] is the index [i] with
    [grid[i] <= x < grid[i+1]], and -1 below the grid. *)
Fixpoint binary_search (x : float) (grid : list float) : Z :=
  match grid with
  | [] => (-1)%Z
  | e :: rest => if PrimFloat.leb e x then (1 + binary_search x rest)%Z else (-1)%Z
  end.

(** Modelled from the spec: [DistPointIsotropic.sample()] draws
    [mu = 2u - 1] and [phi = 2 pi u'] and returns
    [(sqrt(1 - mu^2) cos phi, sqrt(1 - mu^2) sin phi, mu)]. *)
Definition isotropic_point (u u' : float) : Point :=
  let mu := (2 * u - 1)%float in
  let phi := (2 * np_pi * u')%float in
  let c := PrimFloat.sqrt (1 - mu * mu)%float in
  mkPoint (c * np_cos phi) (c * np_sin phi) mu.

Definition isotropic_dir_sample (sim : Simulator) : Point * Simulator :=
  let (u, sim) := rng_draw sim in
  let (u', sim) := rng_draw sim in
  (isotropic_point u u', sim).

(* ---------------------------------------------------------------------- *)
(** ** Cell and census index of a source particle *)

(** [set_cell]: the first cell of [self.cells] containing the position;
    none is fatal. *)
Definition set_cell (sim : Simulator) (P : Particle) : Outcome Particle :=
  match find (fun cell => test_point cell (pos P)) (cells sim) with
  | Some C => Ret (set_cell_field P (Some C))
  | None => Lost (pos P)
  end.

Definition set_time_idx (sim : Simulator) (P : Particle) : Outcome Particle :=
  let t := time P in
  let idx := (binary_search t (census_time sim) + 1)%Z in
  if (idx =? Z.of_nat (length (census_time sim)))%Z then
    Ret (set_time_idx_field (set_alive P false) None)
  else
    tc <- py_index (census_time sim) idx ;;
    if PrimFloat.eqb (time P) tc
    then Ret (set_time_idx_field P (Some (idx + 1)%Z))
    else Ret (set_time_idx_field P (Some idx)).

(* ---------------------------------------------------------------------- *)
(** ** Particle transports *)

Definition get_collision_distance (sim : Simulator) (P : Particle)
    : Outcome (float * Simulator) :=
  let (xi, sim) := rng_draw sim in
  C <- attr (cell P) ;;
  SigmaT_g <- index (SigmaT (material C)) (g P) ;;
  let SigmaT_g := (SigmaT_g + VERY_SMALL)%float in
  Ret ((- np_log xi / SigmaT_g)%float, sim).

(** The loop of [surface_distance] over the surfaces of the cell. *)
Fixpoint nearest_surface (surfs : list Surface) (P : Particle)
    (Sn : option Surface) (d_surf : float) : option Surface * float :=
  match surfs with
  | [] => (Sn, d_surf)
  | surf :: rest =>
      let d := Surface_distance surf (pos P) (dir P) in
      if PrimFloat.ltb d d_surf
      then nearest_surface rest P (Some surf) d
      else nearest_surface rest P Sn d_surf
  end.

Definition surface_distance (P : Particle) : Outcome (option Surface * float) :=
  C <- attr (cell P) ;;
  Ret (nearest_surface (surfaces C) P None infinity).

Definition move_particle (P : Particle) (d : float) : Particle :=
  let P := set_pos P (point_add (pos P) (point_scale (dir P) d)) in
  let P := set_time P (time P + d / speed P)%float in
  set_distance P (distance P + d)%float.

(** [P.surface.bc(P)] *)
Definition apply_bc (Sf : Surface) (P : Particle) : Particle :=
  let (d, survives) := Surface_bc Sf (pos P) (dir P) in
  set_alive (set_dir P d) (alive P && survives).

Definition surface_hit (sim : Simulator) (P : Particle) : Outcome Particle :=
  Sf <- attr (surface P) ;;
  let P := apply_bc Sf P in
  let P := move_particle P SMALL in
  if alive P then set_cell sim P else Ret P.

(* ---------------------------------------------------------------------- *)
(** ** Collisions *)

Definition collision_capture (P : Particle) : Particle := set_alive P false.

(** The loop [for g_out in range(G): tot += diff[g_out]; if tot > xi: break]
    and the value of [g_out] after it. *)
Fixpoint sample_group_from (diff : list float) (tot xi : float) (g_out : nat) : nat :=
  match diff with
  | [] => g_out
  | s :: rest =>
      let tot := (tot + s)%float in
      if fgt tot xi then g_out
      else match rest with
           | [] => g_out
           | _ => sample_group_from rest tot xi (S g_out)
           end
  end.

Definition sample_group (diff : list float) (xi : float) : Outcome nat :=
  match diff with
  | [] => Raise NameError
  | _ => Ret (sample_group_from diff 0%float xi 0)
  end.

(** The divisor [B] of the rotation formula of [scatter]: the general
    branch uses the z component, the other branch the y component.  The
    power [x**2] is written as the product [x * x] and [y**0.5] as the
    square root, the values Python's [pow] is meant to round to. *)
Definition scatter_B (d : Point) : float :=
  if fne (pt_z d) 1%float
  then PrimFloat.sqrt (1 - pt_z d * pt_z d)%float
  else PrimFloat.sqrt (1 - pt_y d * pt_y d)%float.

(** The direction [scatter] computes from the direction [d], the
    scattering cosine [mu] and the azimuthal draw [u].  Powers are written
    as in [scatter_B]; the division [Ac/B] is the IEEE division numpy
    floats have, which gives an infinity or NaN at [B = 0] where a division
    of Python floats raises ZeroDivisionError. *)
Definition scatter_dir (d : Point) (mu u : float) : Point :=
  let azi := (2 * np_pi * u)%float in
  let cos_azi := np_cos azi in
  let sin_azi := np_sin azi in
  let Ac := PrimFloat.sqrt (1 - mu * mu)%float in
  let B := scatter_B d in
  let C := (Ac / B)%float in
  if fne (pt_z d) 1%float then
    mkPoint
      (pt_x d * mu + (pt_x d * pt_z d * cos_azi - pt_y d * sin_azi) * C)
      (pt_y d * mu + (pt_y d * pt_z d * cos_azi + pt_x d * sin_azi) * C)
      (pt_z d * mu - cos_azi * Ac * B)
  else
    mkPoint
      (pt_x d * mu + (pt_x d * pt_y d * cos_azi - pt_z d * sin_azi) * C)
      (pt_y d * mu - cos_azi * Ac * B)
      (pt_z d * mu + (pt_z d * pt_y d * cos_azi + pt_x d * sin_azi) * C).

Definition scatter (sim : Simulator) (P : Particle) (mu : float) : Simulator * Particle :=
  let (u, sim) := rng_draw sim in
  (sim, set_dir P (scatter_dir (dir P) mu u)).

Definition collision_scattering (sim : Simulator) (P : Particle)
    : Outcome (Simulator * Particle) :=
  C <- attr (cell P) ;;
  SigmaS_diff_g <- index (SigmaS_diff (material C)) (g P) ;;
  SigmaS_g <- index (SigmaS (material C)) (g P) ;;
  let (u, sim) := rng_draw sim in
  let xi := (u * SigmaS_g)%float in
  g_out <- sample_group SigmaS_diff_g xi ;;
  let P := set_g P g_out in
  let (u, sim) := rng_draw sim in
  let mu0 := (2 * u - 1)%float in
  Ret (scatter sim P mu0).

(** One fission neutron: the inherited fields and the sampled ones. *)
Definition fission_neutron (P : Particle) (d : Point) (g_out : nat) : Particle :=
  Particle_new (pos P) d g_out (time P) (wgt P) (cell P) (time_idx P).

(** The loop [for n in range(N)] of [collision_fission]. *)
Fixpoint push_fission_neutrons (N : nat) (sim : Simulator) (P : Particle)
    (SigmaF_diff_g : list float) (SigmaF_g : float) : Outcome Simulator :=
  match N with
  | O => Ret sim
  | S N' =>
      let (u, sim) := rng_draw sim in
      let xi := (u * SigmaF_g)%float in
      g_out <- sample_group SigmaF_diff_g xi ;;
      let (d, sim) := isotropic_dir_sample sim in
      sim <- bank_fission_append sim (fission_neutron P d g_out) ;;
      push_fission_neutrons N' sim P SigmaF_diff_g SigmaF_g
  end.

(** The [j]-th neutron the loop pushes when it is entered with the
    generator [r]: three draws per neutron, one for the group and two for the
    direction. *)
Definition fission_neutron_at (r : Random.RandomLCG) (P : Particle)
    (SigmaF_diff_g : list float) (SigmaF_g : float) (j : nat) : Particle :=
  fission_neutron P
    (isotropic_point (Random.stream r (3 * j + 1)) (Random.stream r (3 * j + 2)))
    (sample_group_from SigmaF_diff_g 0%float (Random.stream r (3 * j) * SigmaF_g)%float 0).

Definition collision_fission (sim : Simulator) (P : Particle)
    : Outcome (Simulator * Particle) :=
  let P := set_alive P false in
  C <- attr (cell P) ;;
  SigmaF_diff_g <- index (SigmaF_diff (material C)) (g P) ;;
  SigmaF_g <- index (SigmaF (material C)) (g P) ;;
  nu_g <- index (nu (material C)) (g P) ;;
  let q := (nu_g / k_eff sim)%float in
  let (u, sim) := rng_draw sim in
  N <- py_floor (q + u)%float ;;
  sim <- push_fission_neutrons (Z.to_nat N) sim P SigmaF_diff_g SigmaF_g ;;
  Ret (sim, P).

(** The reaction [collision] selects. *)
Inductive Reaction : Type := Scattering | Fission | Capture.

(** The two tests of [collision] on [xi]. *)
Definition select_reaction (SigmaS_g SigmaF_g xi : float) : Reaction :=
  if fgt SigmaS_g xi then Scattering
  else if fgt (SigmaS_g + SigmaF_g)%float xi then Fission
  else Capture.

Definition collision (sim : Simulator) (P : Particle) : Outcome (Simulator * Particle) :=
  C <- attr (cell P) ;;
  SigmaT_g <- index (SigmaT (material C)) (g P) ;;
  SigmaC_g <- index (SigmaC (material C)) (g P) ;;
  SigmaS_g <- index (SigmaS (material C)) (g P) ;;
  SigmaF_g <- index (SigmaF (material C)) (g P) ;;
  let (u, sim) := rng_draw sim in
  let xi := (u * SigmaT_g)%float in
  match select_reaction SigmaS_g SigmaF_g xi with
  | Scattering => collision_scattering sim P
  | Fission => collision_fission sim P
  | Capture => Ret (sim, collision_capture P)
  end.

(* ---------------------------------------------------------------------- *)
(** ** The particle loop *)

(** "Choose event" of [loop_particle]: the event and the distance to move. *)
Definition choose_event (d_coll d_surf d_census : float) : Event * float :=
  let event := EVENT_COLLISION in
  let d_move := d_coll in
  let '(event, d_move) :=
    if fgt d_move d_surf then (EVENT_SURFACE, d_surf) else (event, d_move) in
  if fgt d_move d_census then (EVENT_CENSUS, d_census) else (event, d_move).

(** The census branch of [loop_particle]. *)
Definition census_event (sim : Simulator) (P : Particle) : Outcome (Simulator * Particle) :=
  let d := (SMALL * speed P)%float in
  let P := move_particle P d in
  match time_idx P with
  | None => Raise TypeError
  | Some idx =>
      let P := set_time_idx_field P (Some (idx + 1)%Z) in
      let sim :=
        if (idx + 1 <? Z.of_nat (length (census_time sim)))%Z
        then set_bank_stored sim (bank_stored sim ++ [create_copy P])
        else sim in
      Ret (sim, set_alive P false)
  end.

(** "Perform event" of [loop_particle], with [Sn] the nearest surface found
    before the move (the variable [S] of the source). *)
Definition perform_event (sim : Simulator) (P : Particle) (event : Event)
    (Sn : option Surface) : Outcome (Simulator * Particle) :=
  match event with
  | EVENT_COLLISION => collision sim P
  | EVENT_SURFACE =>
      let P := set_surface P Sn in
      P <- surface_hit sim P ;;
      Ret (sim, P)
  | EVENT_CENSUS => census_event sim P
  end.

(** "Setup", "Get distances to events", "Choose event", "Move to event"
    and "Perform event" of one pass of [loop_particle]. *)
Definition track_step (sim : Simulator) (P : Particle) : Outcome (Simulator * Particle) :=
  let P := save_previous_state P in
  v <- index (speeds sim) (g P) ;;
  let P := set_speed P v in
  '(d_coll, sim) <- get_collision_distance sim P ;;
  '(Sn, d_surf) <- surface_distance P ;;
  idx <- match time_idx P with Some i => Ret i | None => Raise TypeError end ;;
  t_census <- py_index (census_time sim) idx ;;
  let d_census := (speed P * (t_census - time P))%float in
  let '(event, d_move) := choose_event d_coll d_surf d_census in
  let P := move_particle P d_move in
  perform_event sim P event Sn.

(** "Score eigenvalue tallies" of [loop_particle]. *)
Definition score_eigenvalue (sim : Simulator) (P : Particle) : Outcome Simulator :=
  if mode_eigenvalue sim then
    let wgt0 := wgt_old P in
    C <- attr (cell_old P) ;;
    nu_g <- index (nu (material C)) (g_old P) ;;
    SigmaF_g <- index (SigmaF (material C)) (g_old P) ;;
    let nuSigmaF := (nu_g * SigmaF_g)%float in
    Ret (set_nuSigmaF_sum sim (nuSigmaF_sum sim + wgt0 * distance P * nuSigmaF)%float)
  else Ret sim.

(** One pass of the [while P.alive] loop. *)
Definition loop_particle_body (sim : Simulator) (P : Particle)
    : Outcome (Simulator * Particle) :=
  '(sim, P) <- track_step sim P ;;
  sim <- score_eigenvalue sim P ;;
  Ret (sim, reset_record P).

Fixpoint loop_particle (fuel : nat) (sim : Simulator) (P : Particle)
    : Outcome (Simulator * Particle) :=
  if alive P then
    match fuel with
    | O => OutOfFuel
    | S fuel' =>
        '(sim, P) <- loop_particle_body sim P ;;
        loop_particle fuel' sim P
    end
  else Ret (sim, P).

(* ---------------------------------------------------------------------- *)
(** ** The history loop *)

Fixpoint loop_history (fuel : nat) (sim : Simulator) : Outcome Simulator :=
  match list_pop (bank_history sim) with
  | None => Ret sim
  | Some (rest, P) =>
      match fuel with
      | O => OutOfFuel
      | S fuel' =>
          '(sim, _) <- loop_particle fuel' (set_bank_history sim rest) P ;;
          loop_history fuel' sim
      end
  end.

(* ---------------------------------------------------------------------- *)
(** ** The source loop *)

(** The loop over [self.sources] that selects the source of a draw. *)
Fixpoint select_source (srcs : list Source) (tot xi : float) : option Source :=
  match srcs with
  | [] => None
  | s :: rest =>
      let tot := (tot + prob s)%float in
      if PrimFloat.ltb xi tot then Some s else select_source rest tot xi
  end.

(** "Get a source particle and put into history bank" for index [i]. *)
Definition get_source_particle (sim : Simulator) (i : nat) : Outcome Simulator :=
  match bank_source sim with
  | [] =>
      let (xi, sim) := rng_draw sim in
      source <- attr (select_source (sources sim) 0%float xi) ;;
      let (P, n) := get_particle source (Random.stream (rng sim)) in
      let sim := set_rng sim (Random.advance (rng sim) n) in
      P <- match cell P with None => set_cell sim P | Some _ => Ret P end ;;
      P <- match time_idx P with
           | None | Some 0%Z => set_time_idx sim P
           | Some _ => Ret P
           end ;;
      Ret (set_bank_history sim (bank_history sim ++ [P]))
  | _ :: _ =>
      P <- index (bank_source sim) i ;;
      Ret (set_bank_history sim (bank_history sim ++ [P]))
  end.

(** The body of [for i in range(work_size)]. *)
Definition loop_source_body (fuel : nat) (sim : Simulator) (i : nat) : Outcome Simulator :=
  let sim := set_rng sim (Random.skip_ahead (rng sim) (Z.of_nat i) false) in
  sim <- get_source_particle sim i ;;
  loop_history fuel sim.

(** The passes [i, i+1, ..., i+n-1] of the loop. *)
Fixpoint loop_source_from (fuel : nat) (sim : Simulator) (i n : nat) : Outcome Simulator :=
  match n with
  | O => Ret sim
  | S n' =>
      sim <- loop_source_body fuel sim i ;;
      loop_source_from fuel sim (S i) n'
  end.

(** "Rebase rng skip_ahead seed" at the entry of [loop_source]. *)
Definition loop_source_entry (sim : Simulator) : Simulator :=
  set_rng sim (Random.skip_ahead (rng sim) (Mpi.work_start (mpi sim)) true).

Definition loop_source (fuel : nat) (sim : Simulator) : Outcome Simulator :=
  let sim := loop_source_entry sim in
  loop_source_from fuel sim 0 (Z.to_nat (Mpi.work_size (mpi sim))).

(** The state in which the history of rank-local index [i] starts inside
    [loop_source]: after the passes [0 .. i-1] and the [skip_ahead(i)] that
    opens pass [i]. *)
Definition history_start (fuel : nat) (sim : Simulator) (i : nat) : Outcome Simulator :=
  sim <- loop_source_from fuel (loop_source_entry sim) 0 i ;;
  Ret (set_rng sim (Random.skip_ahead (rng sim) (Z.of_nat i) false)).

(* ---------------------------------------------------------------------- *)
(** ** The simulation loop *)

(** [run] up to the simulation loop: set up the generator, normalise the
    sources, force a single census at infinity in eigenvalue mode and
    distribute the work. *)
Definition run_setup (sim : Simulator) : Simulator :=
  let sim := set_rng sim (Random.init (seed sim) (stride sim)) in
  let norm := fold_left (fun n s => (n + prob s)%float) (sources sim) 0%float in
  let sim := set_sources sim (map (fun s => set_prob s (prob s / norm)%float) (sources sim)) in
  let sim := if mode_eigenvalue sim then set_census_time sim [INF] else sim in
  set_mpi sim (distribute_work (N_hist sim) (mpi sim)).

(** "MPI Reduce nuSigmaF", "Update keff", "Reset accumulator". *)
Definition update_k_eff (sim : Simulator) : Outcome Simulator :=
  let nuSigmaF_buff := allreduce (nuSigmaF_sum sim) in
  let sim := set_k_eff sim (nuSigmaF_buff / float_of_Z (Mpi.work_size_total (mpi sim)))%float in
  sim <- (if Mpi.master (mpi sim)
          then k <- py_setitem (k_mean sim) (i_iter sim) (k_eff sim) ;; Ret (set_k_mean sim k)
          else Ret sim) ;;
  Ret (set_nuSigmaF_sum sim 0%float).

(** "Rebase RNG for population control". *)
Definition rebase_rng (sim : Simulator) : Simulator :=
  set_rng sim
    (Random.skip_ahead (rng sim)
       (Mpi.work_size_total (mpi sim) - Mpi.work_start (mpi sim)) true).

(** "Manage particle banks" when the simulation goes on. *)
Definition manage_banks (sim : Simulator) : Simulator :=
  let sim :=
    if mode_eigenvalue sim
    then set_bank_stored sim (normalize_weight (bank_stored sim) (N_hist sim))
    else sim in
  let sim := rebase_rng sim in
  let (bank, n) := pct_call (pct sim) (bank_stored sim) (N_hist sim) (Random.stream (rng sim)) in
  let sim := set_rng sim (Random.advance (rng sim) n) in
  let sim := set_bank_stored sim bank in
  let sim := set_bank_source sim (bank_stored sim) in
  set_bank_stored sim [].

(** One pass of the simulation loop; the flag is [simulation_end]. *)
Definition run_iteration (fuel : nat) (sim : Simulator) : Outcome (Simulator * bool) :=
  let sim :=
    set_bank_fission sim (Some (if mode_eigenvalue sim then BankStored else BankHistory)) in
  sim <- loop_source fuel sim ;;
  sim <- (if mode_eigenvalue sim then update_k_eff sim else Ret sim) ;;
  let '(sim, simulation_end) :=
    if mode_eigenvalue sim then
      let sim := set_i_iter sim (i_iter sim + 1)%Z in
      (sim, (i_iter sim =? N_iter sim)%Z)
    else
      (sim, match bank_stored sim with [] => true | _ => false end) in
  if simulation_end
  then Ret (set_bank_stored (set_bank_source sim []) [], true)
  else Ret (manage_banks sim, false).

Fixpoint run_loop (fuel : nat) (sim : Simulator) : Outcome Simulator :=
  match fuel with
  | O => OutOfFuel
  | S fuel' =>
      '(sim, simulation_end) <- run_iteration fuel' sim ;;
      if simulation_end then Ret sim else run_loop fuel' sim
  end.

Definition run (fuel : nat) (sim : Simulator) : Outcome Simulator :=
  run_loop fuel (run_setup sim).

End Methods.

(* ====================================================================== *)
(** * Relations between the states before and after a call *)
(* ====================================================================== *)

(** [s'] is [s] with another current state of the generator. *)
Definition only_rng (s s' : Simulator) : Prop :=
  exists v, s' = set_rng s (Random.set_seed (rng s) v).

(** A particle created by the fission of [P]. *)
Definition fission_neutron_of (P Q : Particle) : Prop :=
  exists d g_out, Q = fission_neutron P d g_out.

(** What a call may do to the simulator while tracking: it leaves the setup
    and the accumulator alone, and the bank [bank_fission] points to only
    grows, by fission neutrons of [P]. *)
Definition pushes_fission (P : Particle) (sim sim' : Simulator) : Prop :=
  setup sim' = setup sim /\ nuSigmaF_sum sim' = nuSigmaF_sum sim
  /\ (forall ref, bank_fission sim = Some ref ->
       exists progeny,
         bank_of ref sim' = bank_of ref sim ++ progeny
         /\ Forall (fission_neutron_of P) progeny)
  /\ (bank_fission sim = Some BankStored -> bank_history sim' = bank_history sim).

(** A census index that is unset or a position in [census_time]. *)
Definition idx_ok (P : Particle) : Prop :=
  match time_idx P with Some i => (0 <= i)%Z | None => True end.

(** A particle created by a fission. *)
Definition is_fission_neutron (Q : Particle) : Prop :=
  exists P, fission_neutron_of P Q.

(** The state [run] tracks particles in when in eigenvalue mode. *)
Definition eigen_state (s : Simulator) : Prop :=
  mode_eigenvalue s = true /\ census_time s = [INF] /\ bank_fission s = Some BankStored.

(** [s'] is [s] with fission neutrons appended to the stored bank, each
    with a census index that is unset or a position, and possibly another
    accumulator and generator state. *)
Definition stores_fission_only (s s' : Simulator) : Prop :=
  setup s' = setup s /\ bank_history s' = bank_history s
  /\ exists progeny,
       bank_stored s' = bank_stored s ++ progeny
       /\ Forall is_fission_neutron progeny /\ Forall idx_ok progeny.

(** The samplers of the sources return census indices that are unset or
    positions. *)
Definition sources_ok (s : Simulator) : Prop :=
  forall src stream, In src (sources s) -> idx_ok (fst (get_particle src stream)).

(** The state in which [run] enters a pass of the simulation loop in
    eigenvalue mode. *)
Definition eigen_inv (s : Simulator) : Prop :=
  mode_eigenvalue s = true /\ census_time s = [INF] /\ sources_ok s
  /\ Forall idx_ok (bank_source s) /\ Forall idx_ok (bank_history s)
  /\ Forall idx_ok (bank_stored s).

(** Modelled from the spec: weight normalisation and population control
    return particles of the bank they are given, with other weights, so the
    census indices of a bank stay unset or positions. *)
Definition banks_keep_idx_ok {mpi_ops : MpiOps} {pct_ops : PctOps} : Prop :=
  (forall bank N, Forall idx_ok bank -> Forall idx_ok (normalize_weight bank N))
  /\ (forall t bank N stream,
        Forall idx_ok bank -> Forall idx_ok (fst (pct_call t bank N stream))).

Section Passes.
Context {np : NumPy} {mpi_ops : MpiOps} {pct_ops : PctOps}.

(** [pass_of fuel s fuel_k s_k]: the simulation loop [run_loop fuel s]
    enters a pass in the state [s_k], with the fuel [fuel_k] for it: the
    first pass starts from [s], and a pass that does not end the simulation
    is followed by the passes of the loop on the state it leaves. *)
Inductive pass_of : nat -> Simulator -> nat -> Simulator -> Prop :=
| pass_first (fuel : nat) (s : Simulator) : pass_of (S fuel) s fuel s
| pass_next (fuel : nat) (s s1 : Simulator) (fuel_k : nat) (s_k : Simulator) :
    run_iteration fuel s = Ret (s1, false) ->
    pass_of fuel s1 fuel_k s_k ->
    pass_of (S fuel) s fuel_k s_k.

End Passes.

(* ====================================================================== *)
(** * A small configuration on which the model runs *)
(* ====================================================================== *)

(** Polynomial stand-ins for numpy's functions, good enough to run the
    model on examples: [log] by the series of [2 atanh((a-1)/(a+1))],
    [cos] and [sin] by their Taylor polynomials. *)
Definition ex_log (a : float) : float :=
  let y := ((a - 1) / (a + 1))%float in
  let y2 := (y * y)%float in
  (2 * y * (1 + y2 / 3 + y2 * y2 / 5 + y2 * y2 * y2 / 7))%float.
Definition ex_cos (a : float) : float :=
  let a2 := (a * a)%float in (1 - a2 / 2 + a2 * a2 / 24)%float.
Definition ex_sin (a : float) : float :=
  let a2 := (a * a)%float in (a - a * a2 / 6 + a * a2 * a2 / 120)%float.

#[export] Instance ex_numpy : NumPy :=
  {| np_log := ex_log; np_cos := ex_cos; np_sin := ex_sin |}.

(** A run on a single rank: the reduction is the local value, the bank is
    left as it is, and the rank holds all histories. *)
#[export] Instance ex_mpi_ops : MpiOps :=
  {| allreduce := fun v => v;
     normalize_weight := fun bank _ => bank;
     distribute_work := fun N _ => Mpi.mkMpi 0 N N true |}.

(** Simple sampling: the bank passes through and no draw is taken. *)
#[export] Instance ex_pct_ops : PctOps :=
  {| pct_call := fun _ bank _ _ => (bank, O) |}.

(** The plane [x = x0] with a boundary condition. *)
Definition plane_x (x0 : float) (bc : Point -> Point -> Point * bool) : Surface :=
  mkSurface
    (fun pos dir =>
       let d := ((x0 - pt_x pos) / pt_x dir)%float in
       if PrimFloat.ltb 0 d then d else INF)
    bc.

(** One group, with scattering, fission and capture. *)
Definition ex_material : Material :=
  mkMaterial [1%float] [0.25%float] [0.5%float] [0.25%float] [2.5%float]
    [[0.5%float]] [[0.25%float]].

Definition ex_left : Surface := plane_x (-4)%float bc_vacuum.
Definition ex_right : Surface := plane_x 4%float bc_reflective_x.

(** The slab between the two planes. *)
Definition ex_cell : Cell :=
  mkCell [ex_left; ex_right] ex_material
    (fun p => PrimFloat.leb (-4)%float (pt_x p) && PrimFloat.leb (pt_x p) 4%float).

(** A particle at the origin flying along x. *)
Definition ex_particle : Particle :=
  Particle_new (mkPoint 0 0 0) (mkPoint 1 0 0) 0 0%float 1%float (Some ex_cell) (Some 0%Z).

(** A particle on the vacuum plane, flying out of the slab. *)
Definition ex_particle_left : Particle :=
  Particle_new (mkPoint (-4) 0 0) (mkPoint (-1) 0 0) 0 0%float 1%float (Some ex_cell)
    (Some 0%Z).

Definition ex_source : Source :=
  mkSource 1%float (fun _ => (ex_particle, O)).

Definition ex_rng : Random.RandomLCG := Random.init LCG_SEED LCG_STRIDE.

(** A fixed-source simulator with two census times. *)
Definition ex_sim : Simulator :=
  let sim := Simulator_init [1%float] [ex_cell] [ex_source] 4 ex_rng (Mpi.mkMpi 0 4 4 true) in
  let sim := match set_pct sim "SS"%string [1%float; INF] with Some s => s | None => sim end in
  set_bank_fission sim (Some BankHistory).

(** The simulator in k-eigenvalue mode, set up by [run]. *)
Definition ex_sim_k : Simulator :=
  set_bank_fission (run_setup (set_kmode ex_sim 2 1%float)) (Some BankStored).

(** Two particles outside the slab, in different groups. *)
Definition ex_lost_g0 : Particle :=
  Particle_new (mkPoint 5 0 0) (mkPoint 1 0 0) 0 0%float 1%float None (Some 0%Z).
Definition ex_lost_g1 : Particle :=
  Particle_new (mkPoint 5 0 0) (mkPoint 1 0 0) 1 0%float 1%float None (Some 0%Z).

(** The second rank of the partition of four histories into 1 + 3. *)
Definition ex_sim_rank1 : Simulator := set_mpi ex_sim (Mpi.mkMpi 1 3 4 false).

(* ====================================================================== *)
(** * Notions used to state what the loops compute *)
(* ====================================================================== *)

(** The values [tot] takes in the loops [tot += x[i]] of the group and
    source samplers, started from [tot]. *)
Fixpoint running_totals (tot : float) (xs : list float) : list float :=
  match xs with
  | [] => []
  | x :: rest => let tot := (tot + x)%float in tot :: running_totals tot rest
  end.

(** The distance from a particle to a surface. *)
Definition dist_to (P : Particle) (surf : Surface) : float :=
  Surface_distance surf (pos P) (dir P).

(* ====================================================================== *)
(** * Further example states *)
(* ====================================================================== *)

(** The fixed-source simulator with a source bank of one particle, fewer
    than the four histories of the rank. *)
Definition ex_sim_bank : Simulator := set_bank_source ex_sim [ex_particle].

(** The fixed-source simulator with one particle waiting in the history
    bank. *)
Definition ex_sim_history : Simulator := set_bank_history ex_sim [ex_particle].

(** The state the second pass of the eigenvalue run on the example starts
    from. *)
Definition ex_second_pass : Simulator :=
  match run_iteration 59 (run_setup (set_kmode ex_sim 2 1%float)) with
  | Ret (s, _) => s
  | _ => ex_sim
  end.

(* ====================================================================== *)
(** * Order facts on Python floats *)
(* ====================================================================== *)

Lemma is_nan_spec a : not_nan a <-> Prim2SF a <> S754_nan.
Proof.
  unfold not_nan, PrimFloat.is_nan. rewrite eqb_spec. unfold SFeqb.
  destruct (Prim2SF a) as [s|s| |s m e]; simpl.
  - split; [discriminate | reflexivity].
  - destruct s; split; (discriminate || reflexivity).
  - split; [discriminate | intros H; now elim H].
  - destruct s; rewrite Z.compare_refl;
      change (PosDef.Pos.compare_cont Eq m m) with (Pos.compare m m);
      rewrite Pos.compare_refl; simpl; split; congruence.
Qed.

Lemma SFcompare_lex x y :
  x <> S754_nan -> y <> S754_nan ->
  SFcompare x y = Some (lexcmp (lexkey x) (lexkey y)).
Proof.
  intros Hx Hy.
  destruct x as [sx|sx| |sx mx ex], y as [sy|sy| |sy my ey]; try congruence;
    try (destruct sx; reflexivity); try (destruct sy; reflexivity);
    try (destruct sx, sy; reflexivity).
  destruct sx, sy; try reflexivity; unfold SFcompare, lexkey, lexcmp;
    change (PosDef.Pos.compare_cont Eq mx my) with (Pos.compare mx my).
  change (-1 ?= -1)%Z with Eq. cbv iota.
  rewrite Z.compare_opp, (Z.compare_antisym ex ey).
  destruct (ex ?= ey)%Z; reflexivity.
Qed.

Lemma lexcmp_lt p q : lexcmp p q = Lt <-> lex_lt p q.
Proof.
  destruct p as [[a1 b1] c1], q as [[a2 b2] c2]; simpl.
  destruct (Z.compare_spec a1 a2), (Z.compare_spec b1 b2), (Z.compare_spec c1 c2);
    split; intros K; try discriminate; try reflexivity; try lia.
Qed.

Lemma lexcmp_le p q : (lexcmp p q = Lt \/ lexcmp p q = Eq) <-> lex_le p q.
Proof.
  destruct p as [[a1 b1] c1], q as [[a2 b2] c2]; simpl.
  destruct (Z.compare_spec a1 a2), (Z.compare_spec b1 b2), (Z.compare_spec c1 c2);
    split; intros K; try (destruct K; discriminate); auto; try lia.
Qed.

Lemma lexcmp_eq p q : lexcmp p q = Eq <-> p = q.
Proof.
  destruct p as [[a1 b1] c1], q as [[a2 b2] c2]; simpl.
  destruct (Z.compare_spec a1 a2), (Z.compare_spec b1 b2), (Z.compare_spec c1 c2);
    split; intros K; try discriminate; try reflexivity; try congruence;
    injection K; lia.
Qed.

Lemma ltb_key a b :
  not_nan a -> not_nan b -> (PrimFloat.ltb a b = true <-> lex_lt (fkey a) (fkey b)).
Proof.
  intros Ha Hb. apply is_nan_spec in Ha, Hb.
  rewrite ltb_spec. unfold SFltb. rewrite (SFcompare_lex Ha Hb).
  rewrite <- lexcmp_lt. unfold fkey.
  destruct (lexcmp _ _); split; congruence.
Qed.

Lemma leb_key a b :
  not_nan a -> not_nan b -> (PrimFloat.leb a b = true <-> lex_le (fkey a) (fkey b)).
Proof.
  intros Ha Hb. apply is_nan_spec in Ha, Hb.
  rewrite leb_spec. unfold SFleb. rewrite (SFcompare_lex Ha Hb).
  rewrite <- lexcmp_le. unfold fkey.
  destruct (lexcmp _ _); split; intros K; try congruence; auto; destruct K; congruence.
Qed.

Lemma eqb_key a b :
  not_nan a -> not_nan b -> (PrimFloat.eqb a b = true <-> fkey a = fkey b).
Proof.
  intros Ha Hb. apply is_nan_spec in Ha, Hb.
  rewrite eqb_spec. unfold SFeqb. rewrite (SFcompare_lex Ha Hb).
  rewrite <- lexcmp_eq. unfold fkey.
  destruct (lexcmp _ _); split; congruence.
Qed.

Lemma ltb_not_nan a b : PrimFloat.ltb a b = true -> not_nan a /\ not_nan b.
Proof.
  rewrite ltb_spec. unfold SFltb. rewrite !is_nan_spec.
  destruct (SFcompare _ _) eqn:E; [|discriminate].
  intros _. split; intros K; rewrite K in E; simpl in E; try discriminate.
  destruct (Prim2SF a); discriminate.
Qed.

Lemma add_not_nan a b : not_nan (a + b)%float -> not_nan a /\ not_nan b.
Proof.
  rewrite !is_nan_spec, add_spec.
  intros H; split; intros E; apply H; rewrite E; simpl; auto.
  destruct (Prim2SF a); reflexivity.
Qed.

Lemma ltb_false_key a b :
  not_nan a -> not_nan b -> (PrimFloat.ltb a b = false <-> lex_le (fkey b) (fkey a)).
Proof.
  intros Ha Hb.
  assert (K := ltb_key Ha Hb).
  destruct (PrimFloat.ltb a b).
  - split; [discriminate|]. intros L. exfalso.
    assert (T : lex_lt (fkey a) (fkey b)) by (apply K; reflexivity).
    destruct (fkey a) as [[a1 a2] a3], (fkey b) as [[b1 b2] b3]. unfold lex_lt, lex_le in *. lia.
  - split; [intros _ | reflexivity].
    assert (T : ~ lex_lt (fkey a) (fkey b)) by (intros T; apply K in T; discriminate).
    destruct (fkey a) as [[a1 a2] a3], (fkey b) as [[b1 b2] b3]. unfold lex_lt, lex_le in *. lia.
Qed.

(* ====================================================================== *)
(** * The generator: skip-ahead is iteration *)
(* ====================================================================== *)

Lemma iter_ext (A : Type) (f h : A -> A) (n : nat) (x : A) :
  (forall y, f y = h y) -> Nat.iter n f x = Nat.iter n h x.
Proof.
  intros E. induction n as [|n IH]; simpl; [reflexivity|]. now rewrite IH, E.
Qed.

Lemma iter_double (A : Type) (f : A -> A) (n : nat) (x : A) :
  Nat.iter (2 * n) f x = Nat.iter n (fun y => f (f y)) x.
Proof.
  induction n as [|n IH]; [reflexivity|].
  replace (2 * S n) with (S (S (2 * n))) by lia. simpl. simpl in IH. now rewrite IH.
Qed.

Lemma affine_compose m gg cc gn cn s :
  Random.affine m ((gn * gg) mod m) ((cn * gg + cc) mod m) s
  = Random.affine m gg cc (Random.affine m gn cn s).
Proof.
  unfold Random.affine.
  rewrite (Zplus_mod (_ mod m * s)), Zmod_mod, (Zmult_mod (_ mod m) s), Zmod_mod.
  rewrite <- Zmult_mod, <- Zplus_mod.
  rewrite (Zplus_mod (gg * _)), (Zmult_mod gg (_ mod m)), Zmod_mod.
  rewrite <- Zmult_mod, <- Zplus_mod.
  f_equal. ring.
Qed.

Lemma affine_square m gg cc s :
  Random.affine m ((gg * gg) mod m) (((gg + 1) * cc) mod m) s
  = Random.affine m gg cc (Random.affine m gg cc s).
Proof.
  unfold Random.affine.
  rewrite (Zplus_mod (_ mod m * s)), Zmod_mod, (Zmult_mod (_ mod m) s), Zmod_mod.
  rewrite <- Zmult_mod, <- Zplus_mod.
  rewrite (Zplus_mod (gg * _)), (Zmult_mod gg (_ mod m)), Zmod_mod.
  rewrite <- Zmult_mod, <- Zplus_mod.
  f_equal. ring.
Qed.

Lemma skip_loop_iter m n : forall gg cc gn cn s,
  Random.affine m (fst (Random.skip_loop m n gg cc gn cn)) (snd (Random.skip_loop m n gg cc gn cn)) s
  = Nat.iter (Pos.to_nat n) (Random.affine m gg cc) (Random.affine m gn cn s).
Proof.
  induction n as [n IH|n IH|]; intros gg cc gn cn s; simpl Random.skip_loop.
  - rewrite IH, Pos2Nat.inj_xI, Nat.iter_succ_r, iter_double.
    rewrite affine_compose. apply iter_ext. intros y. apply affine_square.
  - rewrite IH, Pos2Nat.inj_xO, iter_double.
    apply iter_ext. intros y. apply affine_square.
  - simpl. apply affine_compose.
Qed.

Lemma next_affine r s : Random.next r s = Random.affine (Random.mod_ r) (Random.g r) (Random.c r) s.
Proof. reflexivity. Qed.

Lemma next_mod r s : Random.next r (s mod Random.mod_ r) = Random.next r s.
Proof.
  unfold Random.next.
  rewrite Zplus_mod, (Zmult_mod _ (s mod _)), Zmod_mod, <- Zmult_mod, <- Zplus_mod.
  reflexivity.
Qed.

Lemma next_reduced r s : (Random.next r s mod Random.mod_ r = Random.next r s)%Z.
Proof. unfold Random.next. apply Zmod_mod. Qed.

Lemma iterate_mod r n s :
  (Random.iterate r n (s mod Random.mod_ r) mod Random.mod_ r
   = Random.iterate r n s mod Random.mod_ r)%Z.
Proof.
  unfold Random.iterate. destruct n as [|n]; simpl.
  - apply Zmod_mod.
  - rewrite <- !Nat.iter_succ, !Nat.iter_succ_r, next_mod. reflexivity.
Qed.

Lemma iterate_add r a b s :
  Random.iterate r (a + b) s = Random.iterate r b (Random.iterate r a s).
Proof. unfold Random.iterate. rewrite Nat.add_comm. apply Nat.iter_add. Qed.

Lemma iterate_reduced r n s :
  (0 < n)%nat ->
  (Random.iterate r n s mod Random.mod_ r = Random.iterate r n s)%Z.
Proof.
  intros H. destruct n as [|n]; [lia|]. unfold Random.iterate.
  rewrite Nat.iter_succ. apply next_reduced.
Qed.

(** [skip_ahead(n)] puts the state [n * stride] draws past the base. *)
Lemma skip_ahead_seed r n rebase :
  Random.seed (Random.skip_ahead r n rebase)
  = (Random.iterate r (Z.to_nat (n * Random.stride r)) (Random.seed_base r)
     mod Random.mod_ r)%Z.
Proof.
  unfold Random.skip_ahead, Random.skip_map.
  destruct (n * Random.stride r)%Z as [|p|p] eqn:E; simpl Z.to_nat.
  - cbv beta iota zeta delta [Random.seed Random.iterate Nat.iter nat_rect]. f_equal. ring.
  - pose proof (skip_loop_iter (Random.mod_ r) p (Random.g r) (Random.c r) 1 0
                  (Random.seed_base r)) as K.
    destruct (Random.skip_loop _ _ _ _ _ _) as [G C].
    cbv beta iota zeta delta [Random.seed fst snd] in *.
    unfold Random.affine in K at 1. rewrite K.
    rewrite (iter_ext (Random.affine (Random.mod_ r) (Random.g r) (Random.c r)) (Random.next r))
      by (intros; symmetry; apply next_affine).
    fold (Random.iterate r (Pos.to_nat p)).
    replace (Random.affine (Random.mod_ r) 1 0 (Random.seed_base r))
      with (Random.seed_base r mod Random.mod_ r)%Z
      by (unfold Random.affine; f_equal; ring).
    change (Nat.iter (Pos.to_nat p) (Random.next r) ?x)
      with (Random.iterate r (Pos.to_nat p) x).
    rewrite <- iterate_mod. symmetry. apply iterate_reduced. lia.
  - cbv beta iota zeta delta [Random.seed Random.iterate Nat.iter nat_rect]. f_equal. ring.
Qed.

Lemma skip_ahead_base r n rebase :
  Random.seed_base (Random.skip_ahead r n rebase)
  = if rebase then Random.seed (Random.skip_ahead r n rebase) else Random.seed_base r.
Proof.
  unfold Random.skip_ahead. destruct (Random.skip_map _ _); destruct rebase; reflexivity.
Qed.

Lemma skip_ahead_config r n rebase : Random.same_config (Random.skip_ahead r n rebase) r.
Proof.
  unfold Random.skip_ahead, Random.same_config. destruct (Random.skip_map _ _); simpl; auto.
Qed.

(** Rebasing [a] strides ahead and then skipping [b] strides is skipping
    [a + b] strides from the original base. *)
Lemma skip_ahead_rebase_skip r a b rebase :
  (0 <= Random.stride r)%Z -> (0 <= a)%Z -> (0 <= b)%Z ->
  Random.seed (Random.skip_ahead (Random.skip_ahead r a true) b rebase)
  = Random.seed (Random.skip_ahead r (a + b) rebase).
Proof.
  intros Hs Ha Hb.
  rewrite !skip_ahead_seed.
  destruct (skip_ahead_config r a true) as (Eg & Ec & Em & Est).
  rewrite skip_ahead_base, skip_ahead_seed, Em, Est.
  replace (Z.to_nat ((a + b) * Random.stride r))
    with (Z.to_nat (a * Random.stride r) + Z.to_nat (b * Random.stride r)) by nia.
  rewrite iterate_add.
  set (s := Random.iterate r _ (Random.seed_base r)).
  assert (E : forall n x, Random.iterate (Random.skip_ahead r a true) n x = Random.iterate r n x).
  { intros n x. unfold Random.iterate. apply iter_ext. intros y.
    unfold Random.next. now rewrite Eg, Ec, Em. }
  rewrite E. apply iterate_mod.
Qed.

(* ====================================================================== *)
(** * What a call leaves unchanged *)
(* ====================================================================== *)

Lemma bind_ret (A B : Type) (m : Outcome A) (k : A -> Outcome B) (b : B) :
  bind m k = Ret b -> exists a, m = Ret a /\ k a = Ret b.
Proof. destruct m; simpl; intros H; try discriminate. eauto. Qed.

Lemma index_ret (A : Type) (l : list A) (i : nat) (a : A) :
  index l i = Ret a <-> nth_error l i = Some a.
Proof. unfold index. destruct (nth_error l i); split; congruence. Qed.

Lemma attr_ret (A : Type) (o : option A) (a : A) : attr o = Ret a <-> o = Some a.
Proof. unfold attr. destruct o; split; congruence. Qed.

(** Decompose a hypothesis saying that a sequence of calls returned. *)
Ltac inv_ret :=
  repeat match goal with
  | H : bind _ _ = Ret _ |- _ =>
      let a := fresh "a" in let Ha := fresh "Ha" in
      apply bind_ret in H; destruct H as (a & Ha & H)
  | H : Ret _ = Ret _ |- _ => injection H as H; try subst
  | H : Raise _ = Ret _ |- _ => discriminate H
  | H : Lost _ = Ret _ |- _ => discriminate H
  | H : OutOfFuel = Ret _ |- _ => discriminate H
  | H : (_, _) = (_, _) |- _ => injection H as ? ?; try subst
  | H : context [match ?p with (_, _) => _ end] |- _ =>
      let E := fresh "E" in destruct p eqn:E
  end.

Lemma only_rng_refl s : only_rng s s.
Proof. exists (Random.seed (rng s)). destruct s as [? ? ? ? ? ? ? ? ? ? ? ? ? ? ? ? ? ? ? r ?]. destruct r. reflexivity. Qed.

Lemma only_rng_trans s1 s2 s3 : only_rng s1 s2 -> only_rng s2 s3 -> only_rng s1 s3.
Proof. intros [v ->] [w ->]. exists w. reflexivity. Qed.

Lemma only_rng_draw s u s' : rng_draw s = (u, s') -> only_rng s s'.
Proof.
  unfold rng_draw, Random.call. intros H. injection H as _ <-.
  eexists. reflexivity.
Qed.

Lemma only_rng_setup s s' : only_rng s s' -> setup s' = setup s.
Proof. intros [v ->]. reflexivity. Qed.

Lemma only_rng_fields s s' :
  only_rng s s' ->
  nuSigmaF_sum s' = nuSigmaF_sum s /\ bank_stored s' = bank_stored s
  /\ bank_history s' = bank_history s /\ bank_fission s' = bank_fission s
  /\ k_eff s' = k_eff s.
Proof. intros [v ->]. repeat split. Qed.

(** A draw is the first element of the stream and advances by one. *)
Lemma rng_draw_stream s :
  rng_draw s = (Random.stream (rng s) 0, set_rng s (Random.advance (rng s) 1)).
Proof. unfold rng_draw, Random.stream. simpl. destruct (Random.call (rng s)). reflexivity. Qed.

Lemma advance_add r a b :
  Random.advance (Random.advance r a) b = Random.advance r (a + b).
Proof. revert r. induction a as [|a IH]; intros r; simpl; [reflexivity | apply IH]. Qed.

Lemma stream_advance r a k :
  Random.stream (Random.advance r a) k = Random.stream r (a + k).
Proof. unfold Random.stream. now rewrite advance_add. Qed.

Lemma set_seed_advance r n :
  Random.set_seed (Random.advance r n) 0 = Random.set_seed r 0.
Proof.
  revert r. induction n as [|n IH]; intros r; simpl; [reflexivity|].
  rewrite IH. reflexivity.
Qed.

Lemma only_rng_advance s n : only_rng s (set_rng s (Random.advance (rng s) n)).
Proof.
  exists (Random.seed (Random.advance (rng s) n)). f_equal.
  pose proof (set_seed_advance (rng s) n) as K.
  destruct (Random.advance (rng s) n) as [a b c d e f], (rng s) as [a' b' c' d' e' f'].
  unfold Random.set_seed in *. simpl in *. congruence.
Qed.

Lemma setup_set_rng s r :
  Random.set_seed r 0 = Random.set_seed (rng s) 0 -> setup (set_rng s r) = setup s.
Proof. intros E. unfold setup. simpl. now rewrite E. Qed.

Lemma setup_set_rng_advance s n : setup (set_rng s (Random.advance (rng s) n)) = setup s.
Proof. apply only_rng_setup, only_rng_advance. Qed.

Lemma only_rng_skip s n : only_rng s (set_rng s (Random.skip_ahead (rng s) n false)).
Proof.
  exists (Random.seed (Random.skip_ahead (rng s) n false)). f_equal.
  unfold Random.skip_ahead. destruct (Random.skip_map _ _). reflexivity.
Qed.

(** Chain the draws in the context into a statement of [only_rng]. *)
Ltac solve_only_rng :=
  repeat match goal with E : rng_draw _ = _ |- _ => apply only_rng_draw in E end;
  repeat first
    [ eassumption
    | apply only_rng_refl
    | solve [eexists; reflexivity]
    | eapply only_rng_trans; [eassumption|] ].

Lemma sample_group_from_spec row : forall tot xi g0,
  row <> [] ->
  let totals := running_totals tot row in
  let g_out := sample_group_from row tot xi g0 in
  (g0 <= g_out < g0 + length row)%nat
  /\ (forall j t, (j < g_out - g0)%nat -> nth_error totals j = Some t -> fgt t xi = false)
  /\ ((exists t, nth_error totals (g_out - g0) = Some t /\ fgt t xi = true)
      \/ (S g_out = g0 + length row /\ Forall (fun t => fgt t xi = false) totals)%nat).
Proof.
  induction row as [|s rest IH]; intros tot xi g0 Hne; [congruence|].
  cbn [sample_group_from running_totals length].
  destruct (fgt (tot + s) xi) eqn:E.
  - split; [lia|]. split; [intros j t Hj; lia|].
    left. exists (tot + s)%float. rewrite Nat.sub_diag. auto.
  - destruct rest as [|s' rest'].
    + split; [cbn; lia|]. split; [intros j t Hj; lia|].
      right. split; [cbn; lia|]. cbn. constructor; [exact E | constructor].
    + assert (Hne' : s' :: rest' <> []) by congruence.
      specialize (IH (tot + s)%float xi (S g0) Hne').
      cbv zeta in IH. destruct IH as (B & Hlt & Hend).
      set (g_out := sample_group_from (s' :: rest') (tot + s) xi (S g0)) in *.
      split; [cbn [length] in *; lia|].
      split.
      * intros j t Hj Hn. destruct j as [|j]; cbn [nth_error] in Hn.
        -- injection Hn as <-. exact E.
        -- apply (Hlt j t); [lia | exact Hn].
      * destruct Hend as [(t & Hn & Ht) | (Hl & Hf)].
        -- left. exists t. replace (g_out - g0)%nat with (S (g_out - S g0)) by lia.
           cbn [nth_error]. auto.
        -- right. split; [cbn [length] in *; lia|]. constructor; [exact E | exact Hf].
Qed.

(** The loop started as the code starts it, with [tot = 0.0] and the first
    group: it returns the first group whose running total exceeds [xi],
    and the last group when no running total does. *)
Lemma sample_group_from_first row xi :
  row <> [] ->
  let totals := running_totals 0%float row in
  let g_out := sample_group_from row 0%float xi 0 in
  (g_out < length row)%nat
  /\ (forall j t, (j < g_out)%nat -> nth_error totals j = Some t -> fgt t xi = false)
  /\ ((exists t, nth_error totals g_out = Some t /\ fgt t xi = true)
      \/ (S g_out = length row /\ Forall (fun t => fgt t xi = false) totals)).
Proof.
  intros Hne totals g_out.
  destruct (@sample_group_from_spec row 0%float xi 0%nat Hne) as (B & Hlt & Hend).
  fold g_out in B, Hlt, Hend. fold totals in Hlt, Hend.
  rewrite Nat.sub_0_r in *. split; [lia|]. split; [exact Hlt|].
  destruct Hend as [H | (Hl & Hf)]; [left; exact H | right; split; [lia | exact Hf]].
Qed.

Section Frames.
Context {np : NumPy}.

Lemma only_rng_isotropic sim d sim' :
  isotropic_dir_sample sim = (d, sim') -> only_rng sim sim'.
Proof.
  unfold isotropic_dir_sample. intros H.
  destruct (rng_draw sim) as [u s1] eqn:E1. destruct (rng_draw s1) as [u' s2] eqn:E2.
  injection H as _ <-.
  eapply only_rng_trans; eapply only_rng_draw; eassumption.
Qed.

Lemma isotropic_stream sim :
  isotropic_dir_sample sim
  = (isotropic_point (Random.stream (rng sim) 0) (Random.stream (rng sim) 1),
     set_rng sim (Random.advance (rng sim) 2)).
Proof.
  unfold isotropic_dir_sample. rewrite rng_draw_stream.
  rewrite rng_draw_stream. cbn [rng set_rng].
  rewrite stream_advance, advance_add. reflexivity.
Qed.

Lemma only_rng_collision_distance sim P d sim' :
  get_collision_distance sim P = Ret (d, sim') -> only_rng sim sim'.
Proof.
  unfold get_collision_distance. intros H. inv_ret.
  eapply only_rng_draw; eassumption.
Qed.

Lemma frame_collision_scattering sim P sim' P' :
  collision_scattering sim P = Ret (sim', P') ->
  only_rng sim sim' /\ shadow P' = shadow P.
Proof.
  unfold collision_scattering. intros H. inv_ret.
  split; [solve_only_rng | reflexivity].
Qed.

Lemma sample_group_ret row xi :
  row <> [] -> sample_group row xi = Ret (sample_group_from row 0%float xi 0).
Proof. destruct row; [congruence | reflexivity]. Qed.

Lemma fission_neutron_at_advance r P row sF j :
  fission_neutron_at (Random.advance r 3) P row sF j = fission_neutron_at r P row sF (S j).
Proof.
  unfold fission_neutron_at. rewrite !stream_advance.
  replace (3 + (3 * j + 1)) with (3 * S j + 1) by lia.
  replace (3 + (3 * j + 2)) with (3 * S j + 2) by lia.
  replace (3 + 3 * j) with (3 * S j) by lia. reflexivity.
Qed.

Lemma bank_fission_append_ret sim ref Q :
  bank_fission sim = Some ref ->
  bank_fission_append sim Q = Ret (set_bank_of ref sim (bank_of ref sim ++ [Q])).
Proof. unfold bank_fission_append. intros ->. destruct ref; reflexivity. Qed.

(** The loop of [collision_fission] returns, having appended the [N]
    neutrons to the aliased bank and taken [3 N] draws. *)
Lemma push_fission_neutrons_spec N : forall sim P row sF ref,
  row <> [] -> bank_fission sim = Some ref ->
  push_fission_neutrons N sim P row sF
  = Ret (set_rng
           (set_bank_of ref sim
              (bank_of ref sim ++ map (fission_neutron_at (rng sim) P row sF) (seq 0 N)))
           (Random.advance (rng sim) (3 * N))).
Proof.
  induction N as [|N IH]; intros sim P row sF ref Hrow Href.
  - simpl. rewrite app_nil_r. destruct sim, ref; reflexivity.
  - cbn [push_fission_neutrons]. rewrite rng_draw_stream.
    rewrite (sample_group_ret _ Hrow). cbn [bind].
    rewrite isotropic_stream. cbn [rng set_rng].
    rewrite (@bank_fission_append_ret _ ref) by exact Href. cbn [bind].
    rewrite (IH _ _ _ _ ref); [|exact Hrow|destruct ref; exact Href].
    rewrite stream_advance, advance_add.
    replace (rng (set_bank_of ref (set_rng (set_rng sim (Random.advance (rng sim) 1))
                (Random.advance (rng sim) (1 + 2))) _)) with (Random.advance (rng sim) 3)
      by (destruct ref; reflexivity).
    rewrite advance_add.
    replace (3 + 3 * N) with (3 * S N) by lia.
    rewrite (map_ext _ _ (fun j => fission_neutron_at_advance (rng sim) P row sF j)).
    rewrite <- (map_map S), seq_shift.
    destruct sim, ref; cbn; rewrite <- app_assoc; reflexivity.
Qed.

(** C6: on a fission the colliding particle is killed, [N = floor(nu/k_eff + u)]
    neutrons are appended to the bank [bank_fission] points to; the [j]-th
    has the isotropic direction of its own two draws and the group its own
    draw selects over the running totals of the fission transfer row (the
    first group whose running total exceeds [xi = u * SigmaF], else the
    last), and the position, time, weight, cell and census index of the
    parent. *)
Theorem collision_fission_progeny (sim : Simulator) (P : Particle) (C : Cell)
    (row : list float) (sF nu_g : float) (N : Z) (ref : BankRef) :
  cell P = Some C ->
  nth_error (SigmaF_diff (material C)) (g P) = Some row ->
  nth_error (SigmaF (material C)) (g P) = Some sF ->
  nth_error (nu (material C)) (g P) = Some nu_g ->
  row <> [] ->
  bank_fission sim = Some ref ->
  py_floor (nu_g / k_eff sim + fst (rng_draw sim))%float = Ret N ->
  let r := rng (snd (rng_draw sim)) in
  let progeny := map (fission_neutron_at r P row sF) (seq 0 (Z.to_nat N)) in
  exists sim',
    collision_fission sim P = Ret (sim', set_alive P false)
    /\ alive (set_alive P false) = false
    /\ bank_fission_list sim' = Ret (bank_of ref sim ++ progeny)
    /\ length progeny = Z.to_nat N
    /\ Forall (fun Q => pos Q = pos P /\ time Q = time P /\ wgt Q = wgt P
                       /\ cell Q = cell P /\ time_idx Q = time_idx P
                       /\ alive Q = true) progeny
    /\ (forall j, (j < Z.to_nat N)%nat ->
         nth_error progeny j
         = Some (fission_neutron P
                   (isotropic_point (Random.stream r (3 * j + 1))
                      (Random.stream r (3 * j + 2)))
                   (sample_group_from row 0%float (Random.stream r (3 * j) * sF)%float 0)))
    /\ rng sim' = Random.advance r (3 * Z.to_nat N)
    /\ setup sim' = setup sim /\ nuSigmaF_sum sim' = nuSigmaF_sum sim
    /\ (forall j Q,
         nth_error progeny j = Some Q ->
         let xi := (Random.stream r (3 * j) * sF)%float in
         let totals := running_totals 0%float row in
         dir Q = isotropic_point (Random.stream r (3 * j + 1)) (Random.stream r (3 * j + 2))
         /\ g Q = sample_group_from row 0%float xi 0
         /\ (g Q < length row)%nat
         /\ (forall i t, (i < g Q)%nat -> nth_error totals i = Some t -> fgt t xi = false)
         /\ ((exists t, nth_error totals (g Q) = Some t /\ fgt t xi = true)
             \/ (S (g Q) = length row /\ Forall (fun t => fgt t xi = false) totals))).
Proof.
  intros HC Hrow HsF Hnu Hne Href Hfloor r progeny.
  unfold collision_fission.
  change (cell (set_alive P false)) with (cell P).
  change (g (set_alive P false)) with (g P).
  rewrite HC. cbn [attr bind].
  apply index_ret in Hrow, HsF, Hnu. rewrite Hrow, HsF, Hnu. cbn [bind].
  destruct (rng_draw sim) as [u s1] eqn:E.
  assert (Ek : k_eff s1 = k_eff sim /\ bank_fission s1 = bank_fission sim
               /\ bank_of ref s1 = bank_of ref sim /\ setup s1 = setup sim
               /\ nuSigmaF_sum s1 = nuSigmaF_sum sim).
  { unfold rng_draw, Random.call in E. injection E as _ <-. destruct ref; repeat split. }
  destruct Ek as (Ek & Ef & Eb & Es & En).
  cbn [fst snd] in *. rewrite Hfloor. cbn [bind].
  rewrite (@push_fission_neutrons_spec (Z.to_nat N) s1 (set_alive P false) row sF ref Hne)
    by congruence.
  cbn [bind]. eexists. split; [reflexivity|].
  assert (Emap : map (fission_neutron_at (rng s1) (set_alive P false) row sF)
                   (seq 0 (Z.to_nat N)) = progeny) by reflexivity.
  rewrite Emap, Eb.
  split; [reflexivity|].
  split; [unfold bank_fission_list; destruct ref; cbn; rewrite ?Href; destruct sim, s1; cbn in *; subst; reflexivity|].
  split; [unfold progeny; now rewrite length_map, length_seq|].
  split; [unfold progeny; apply Forall_forall; intros Q HQ; apply in_map_iff in HQ;
          destruct HQ as (j & <- & _); repeat split; cbn; congruence|].
  split; [intros j Hj; unfold progeny; rewrite nth_error_map, nth_error_seq;
          destruct (Nat.ltb_spec j (Z.to_nat N)); [reflexivity | lia]|].
  split; [destruct ref; reflexivity|].
  split; [|split; [destruct ref; exact En|]].
  - transitivity (setup s1); [|exact Es].
    destruct ref; cbn [set_bank_of];
      (rewrite setup_set_rng; [reflexivity | apply set_seed_advance]).
  - intros j Q HQ. unfold progeny in HQ.
    rewrite nth_error_map, nth_error_seq in HQ.
    destruct (Nat.ltb_spec j (Z.to_nat N)); [|discriminate HQ].
    cbn [option_map Nat.add] in HQ. injection HQ as <-.
    split; [reflexivity|]. split; [reflexivity|].
    apply (sample_group_from_first (Random.stream r (3 * j) * sF)%float Hne).
Qed.

Lemma only_rng_pushes P sim sim' : only_rng sim sim' -> pushes_fission P sim sim'.
Proof.
  intros [v ->]. split; [reflexivity|]. split; [reflexivity|]. split; [|reflexivity].
  intros ref _. exists []. rewrite app_nil_r.
  split; [destruct ref; reflexivity | constructor].
Qed.

Lemma setup_bank_fission s s' : setup s' = setup s -> bank_fission s' = bank_fission s.
Proof. intros E. apply (f_equal bank_fission) in E. exact E. Qed.

Lemma pushes_fission_trans P s1 s2 s3 :
  pushes_fission P s1 s2 -> pushes_fission P s2 s3 -> pushes_fission P s1 s3.
Proof.
  intros (E1 & N1 & B1 & H1) (E2 & N2 & B2 & H2).
  split; [congruence|]. split; [congruence|]. split.
  - intros ref Href. destruct (B1 ref Href) as (l1 & Hl1 & F1).
    assert (Href2 : bank_fission s2 = Some ref)
      by (rewrite (setup_bank_fission E1); exact Href).
    destruct (B2 ref Href2) as (l2 & Hl2 & F2).
    exists (l1 ++ l2). split; [rewrite Hl2, Hl1, app_assoc; reflexivity|].
    apply Forall_app; auto.
  - intros Href. rewrite H2, H1; auto. rewrite (setup_bank_fission E1); exact Href.
Qed.

Lemma pushes_append P sim Q sim' :
  bank_fission_append sim Q = Ret sim' -> fission_neutron_of P Q ->
  pushes_fission P sim sim'.
Proof.
  unfold bank_fission_append. intros H HQ.
  destruct (bank_fission sim) as [[|]|] eqn:E; inv_ret.
  - split; [reflexivity|]. split; [reflexivity|]. split; [|reflexivity].
    intros ref Href. rewrite E in Href. injection Href as <-. exists [Q]. split; [reflexivity|].
    constructor; [exact HQ | constructor].
  - split; [reflexivity|]. split; [reflexivity|].
    split; [|intros Href; rewrite E in Href; discriminate Href].
    intros ref Href. rewrite E in Href. injection Href as <-. exists [Q]. split; [reflexivity|].
    constructor; [exact HQ | constructor].
Qed.

Lemma frame_push_fission_neutrons N : forall sim P row sF sim',
  push_fission_neutrons N sim P row sF = Ret sim' -> pushes_fission P sim sim'.
Proof.
  induction N as [|N IH]; intros sim P row sF sim' H; cbn [push_fission_neutrons] in H.
  - inv_ret. apply only_rng_pushes, only_rng_refl.
  - inv_ret.
    match goal with H : push_fission_neutrons _ _ _ _ _ = _ |- _ => apply IH in H end.
    match goal with H : bank_fission_append _ _ = _ |- _ =>
      apply (@pushes_append P) in H; [|eexists; eexists; reflexivity] end.
    match goal with H : isotropic_dir_sample _ = _ |- _ =>
      apply only_rng_isotropic, (@only_rng_pushes P) in H end.
    match goal with H : rng_draw _ = _ |- _ =>
      apply only_rng_draw, (@only_rng_pushes P) in H end.
    eauto using pushes_fission_trans.
Qed.

Lemma fission_neutron_of_set_alive P b Q :
  fission_neutron_of (set_alive P b) Q -> fission_neutron_of P Q.
Proof. intros (d & g_out & ->). exists d, g_out. reflexivity. Qed.

Lemma pushes_fission_weaken P P' sim sim' :
  (forall Q, fission_neutron_of P Q -> fission_neutron_of P' Q) ->
  pushes_fission P sim sim' -> pushes_fission P' sim sim'.
Proof.
  intros W (E & N & B & H). split; [exact E|]. split; [exact N|]. split; [|exact H].
  intros ref Href. destruct (B ref Href) as (l & Hl & F). exists l. split; [exact Hl|].
  eapply Forall_impl; [|exact F]. exact W.
Qed.

Lemma frame_collision_fission sim P sim' P' :
  collision_fission sim P = Ret (sim', P') ->
  pushes_fission P sim sim' /\ P' = set_alive P false.
Proof.
  unfold collision_fission. intros H. inv_ret. split; [|reflexivity].
  match goal with H : push_fission_neutrons _ _ _ _ _ = _ |- _ =>
    apply frame_push_fission_neutrons in H;
    apply (pushes_fission_weaken (P' := P)) in H;
    [|intros Q; apply fission_neutron_of_set_alive] end.
  match goal with H : rng_draw _ = _ |- _ =>
    apply only_rng_draw, (@only_rng_pushes P) in H end.
  eauto using pushes_fission_trans.
Qed.

Lemma frame_collision sim P sim' P' :
  collision sim P = Ret (sim', P') ->
  pushes_fission P sim sim' /\ shadow P' = shadow P.
Proof.
  unfold collision. intros H. inv_ret.
  match goal with H : rng_draw _ = _ |- _ =>
    apply only_rng_draw, (@only_rng_pushes P) in H end.
  destruct (select_reaction _ _ _).
  - apply frame_collision_scattering in H. destruct H as (H & Hs).
    apply (@only_rng_pushes P) in H. split; [|exact Hs].
    eauto using pushes_fission_trans.
  - apply frame_collision_fission in H. destruct H as (H & ->).
    split; [|reflexivity]. eauto using pushes_fission_trans.
  - inv_ret. split; [assumption | reflexivity].
Qed.

Lemma frame_set_cell sim P P' :
  set_cell sim P = Ret P' -> shadow P' = shadow P /\ pos P' = pos P /\ alive P' = alive P.
Proof.
  unfold set_cell. intros H. destruct (find _ _); inv_ret. repeat split.
Qed.

Lemma frame_surface_hit sim P P' :
  surface_hit sim P = Ret P' -> shadow P' = shadow P.
Proof.
  unfold surface_hit. intros H. inv_ret.
  unfold apply_bc in H. destruct (Surface_bc _ _ _) as [d sv].
  destruct (alive _).
  - apply frame_set_cell in H. destruct H as (H & _). rewrite H. reflexivity.
  - inv_ret. reflexivity.
Qed.

(** C7: a census moves the particle [SMALL * speed] further, increments its
    census index, stores a copy exactly when the incremented index is still
    below [len(census_time)], and kills the particle in every case. *)
Theorem census_event_spec (sim : Simulator) (P : Particle) (idx : Z) (Sn : option Surface) :
  time_idx P = Some idx ->
  let Pm := move_particle P (SMALL * speed P)%float in
  let Pc := set_time_idx_field Pm (Some (idx + 1)%Z) in
  exists sim',
    perform_event sim P EVENT_CENSUS Sn = Ret (sim', set_alive Pc false)
    /\ pos Pc = point_add (pos P) (point_scale (dir P) (SMALL * speed P)%float)
    /\ time Pc = (time P + SMALL * speed P / speed P)%float
    /\ time_idx (set_alive Pc false) = Some (idx + 1)%Z
    /\ alive (set_alive Pc false) = false
    /\ ((idx + 1 < Z.of_nat (length (census_time sim)))%Z ->
        sim' = set_bank_stored sim (bank_stored sim ++ [create_copy Pc]))
    /\ (~ (idx + 1 < Z.of_nat (length (census_time sim)))%Z -> sim' = sim)
    /\ (forall fuel s, loop_particle fuel s (set_alive Pc false) = Ret (s, set_alive Pc false)).
Proof.
  intros Hidx Pm Pc. cbn [perform_event]. unfold census_event.
  change (time_idx (move_particle P (SMALL * speed P))) with (time_idx P).
  rewrite Hidx. fold Pm. fold Pc.
  destruct (Z.ltb_spec (idx + 1) (Z.of_nat (length (census_time sim)))) as [L|L];
    eexists; (split; [reflexivity|]); repeat split; try reflexivity; try lia;
    try (intros; destruct fuel; reflexivity).
Qed.

Lemma frame_census_event sim P sim' P' :
  census_event sim P = Ret (sim', P') ->
  setup sim' = setup sim /\ nuSigmaF_sum sim' = nuSigmaF_sum sim
  /\ shadow P' = shadow P /\ alive P' = false
  /\ bank_history sim' = bank_history sim.
Proof.
  unfold census_event. intros H.
  change (time_idx (move_particle P (SMALL * speed P))) with (time_idx P) in H.
  destruct (time_idx P); inv_ret.
  destruct (_ <? _)%Z; repeat split.
Qed.

Lemma pushes_setup P sim sim' :
  pushes_fission P sim sim' ->
  setup sim' = setup sim /\ nuSigmaF_sum sim' = nuSigmaF_sum sim.
Proof. intros (E & N & _ & _). auto. Qed.

Lemma frame_perform_event sim P event Sn sim' P' :
  perform_event sim P event Sn = Ret (sim', P') ->
  setup sim' = setup sim /\ nuSigmaF_sum sim' = nuSigmaF_sum sim
  /\ shadow P' = shadow P.
Proof.
  destruct event; cbn [perform_event]; intros H.
  - apply frame_collision in H. destruct H as (H & Hs).
    apply pushes_setup in H. tauto.
  - inv_ret. match goal with H : surface_hit _ _ = _ |- _ => apply frame_surface_hit in H end.
    repeat split. assumption.
  - apply frame_census_event in H. tauto.
Qed.

Lemma frame_track_step sim P sim' P' :
  track_step sim P = Ret (sim', P') ->
  setup sim' = setup sim /\ nuSigmaF_sum sim' = nuSigmaF_sum sim
  /\ shadow P' = (pos P, g P, time P, wgt P, cell P).
Proof.
  unfold track_step. intros H. inv_ret.
  match goal with H : get_collision_distance _ _ = _ |- _ =>
    apply only_rng_collision_distance in H;
    pose proof (only_rng_setup H); pose proof (only_rng_fields H) end.
  apply frame_perform_event in H. destruct H as (K1 & K2 & K3).
  split; [congruence|]. split; [intuition congruence|]. rewrite K3. reflexivity.
Qed.

Lemma frame_score_eigenvalue sim P sim' :
  score_eigenvalue sim P = Ret sim' ->
  setup sim' = setup sim /\ bank_stored sim' = bank_stored sim
  /\ bank_history sim' = bank_history sim /\ rng sim' = rng sim.
Proof.
  unfold score_eigenvalue. intros H. destruct (mode_eigenvalue sim); inv_ret; repeat split.
Qed.

Lemma frame_loop_particle_body sim P sim' P' :
  loop_particle_body sim P = Ret (sim', P') -> setup sim' = setup sim.
Proof.
  unfold loop_particle_body. intros H. inv_ret.
  match goal with H : track_step _ _ = _ |- _ => apply frame_track_step in H end.
  match goal with H : score_eigenvalue _ _ = _ |- _ => apply frame_score_eigenvalue in H end.
  intuition congruence.
Qed.

Lemma frame_loop_particle fuel : forall sim P sim' P',
  loop_particle fuel sim P = Ret (sim', P') -> setup sim' = setup sim.
Proof.
  induction fuel as [|fuel IH]; intros sim P sim' P' H; cbn [loop_particle] in H;
    destruct (alive P); inv_ret; try reflexivity.
  match goal with H : loop_particle_body _ _ = _ |- _ => apply frame_loop_particle_body in H end.
  apply IH in H. congruence.
Qed.

Lemma frame_loop_history fuel : forall sim sim',
  loop_history fuel sim = Ret sim' -> setup sim' = setup sim.
Proof.
  induction fuel as [|fuel IH]; intros sim sim' H; cbn [loop_history] in H;
    destruct (list_pop (bank_history sim)) as [[rest P]|]; inv_ret; try reflexivity.
  match goal with H : loop_particle _ _ _ = _ |- _ => apply frame_loop_particle in H end.
  apply IH in H. rewrite H. assumption.
Qed.

Lemma frame_get_source_particle sim i sim' :
  get_source_particle sim i = Ret sim' -> setup sim' = setup sim.
Proof.
  unfold get_source_particle. intros H.
  destruct (bank_source sim); inv_ret; [|reflexivity].
  match goal with H : rng_draw _ = _ |- _ => apply only_rng_draw, only_rng_setup in H end.
  match goal with |- setup (set_bank_history (set_rng ?s (Random.advance _ ?n)) _) = _ =>
    change (setup (set_rng s (Random.advance (rng s) n)) = setup sim);
    rewrite setup_set_rng_advance end.
  assumption.
Qed.

Lemma frame_loop_source_body fuel sim i sim' :
  loop_source_body fuel sim i = Ret sim' -> setup sim' = setup sim.
Proof.
  unfold loop_source_body. intros H. inv_ret.
  apply frame_loop_history in H.
  match goal with H : get_source_particle _ _ = _ |- _ => apply frame_get_source_particle in H end.
  rewrite H, Ha. apply only_rng_setup, only_rng_skip.
Qed.

Lemma frame_loop_source_from fuel n : forall sim i sim',
  loop_source_from fuel sim i n = Ret sim' -> setup sim' = setup sim.
Proof.
  induction n as [|n IH]; intros sim i sim' H; cbn [loop_source_from] in H; inv_ret.
  - reflexivity.
  - apply IH in H.
    match goal with H : loop_source_body _ _ _ = _ |- _ => apply frame_loop_source_body in H end.
    congruence.
Qed.

End Frames.

(* ====================================================================== *)
(** * Reproducibility of the random streams *)
(* ====================================================================== *)

Lemma skip_ahead_ignores_seed r r' n rebase :
  Random.set_seed r 0 = Random.set_seed r' 0 ->
  Random.skip_ahead r n rebase = Random.skip_ahead r' n rebase.
Proof.
  destruct r, r'. unfold Random.set_seed. cbn. intros E. injection E as -> -> -> -> ->.
  reflexivity.
Qed.

Lemma rng_setup s : rng (setup s) = Random.set_seed (rng s) 0.
Proof. reflexivity. Qed.

Lemma setup_rng_eq s s' :
  setup s' = setup s -> Random.set_seed (rng s') 0 = Random.set_seed (rng s) 0.
Proof. intros E. rewrite <- !rng_setup. now rewrite E. Qed.

Lemma setup_mpi s s' : setup s' = setup s -> mpi s' = mpi s.
Proof. intros E. apply (f_equal mpi) in E. exact E. Qed.

Lemma ranks_from_spec sizes : forall rank start total m,
  Forall (fun n => 0 <= n)%Z sizes ->
  In m (Mpi.ranks_from rank start total sizes) ->
  (start <= Mpi.work_start m)%Z
  /\ (Mpi.work_start m + Mpi.work_size m <= start + Mpi.sum_sizes sizes)%Z
  /\ (0 <= Mpi.work_size m)%Z
  /\ Mpi.work_size_total m = total.
Proof.
  induction sizes as [|n rest IH]; intros rank start total m Hpos Hin; [contradiction|].
  inversion Hpos as [|? ? Hn Hrest]; subst.
  assert (0 <= Mpi.sum_sizes rest)%Z.
  { clear -Hrest. induction Hrest; cbn; [lia|]. unfold Mpi.sum_sizes in *. cbn. lia. }
  cbn in Hin. destruct Hin as [<-|Hin].
  - cbn. unfold Mpi.sum_sizes in *. cbn. lia.
  - destruct (IH _ _ _ _ Hrest Hin) as (A & B & C & D).
    unfold Mpi.sum_sizes in *. cbn. repeat split; try lia; try exact D.
Qed.

Lemma locate_spec ranks : forall k m i,
  Mpi.locate ranks k = Some (m, i) ->
  In m ranks /\ (Mpi.work_start m + i = k)%Z /\ (0 <= i < Mpi.work_size m)%Z.
Proof.
  induction ranks as [|r rest IH]; intros k m i H; cbn in H; [discriminate|].
  destruct ((Mpi.work_start r <=? k)%Z && (k <? Mpi.work_start r + Mpi.work_size r)%Z) eqn:E.
  - injection H as <- <-. apply andb_prop in E. destruct E as [E1 E2].
    apply Z.leb_le in E1. apply Z.ltb_lt in E2. split; [now left|]. lia.
  - destruct (IH _ _ _ H) as (A & B & C). split; [now right|]. auto.
Qed.

(** Every global history of a partition has a rank and a local index. *)
Lemma locate_total sizes : forall rank start total k,
  Forall (fun n => 0 <= n)%Z sizes ->
  (start <= k < start + Mpi.sum_sizes sizes)%Z ->
  exists m i, Mpi.locate (Mpi.ranks_from rank start total sizes) k = Some (m, i).
Proof.
  induction sizes as [|n rest IH]; intros rank start total k Hpos Hk.
  - unfold Mpi.sum_sizes in Hk. cbn in Hk. lia.
  - inversion Hpos as [|? ? Hn Hrest]; subst. cbn [Mpi.ranks_from Mpi.locate].
    cbn [Mpi.work_start Mpi.work_size].
    destruct ((start <=? k)%Z && (k <? start + n)%Z) eqn:E; [eauto|].
    apply IH; [exact Hrest|].
    apply andb_false_iff in E. unfold Mpi.sum_sizes in *. cbn in Hk.
    destruct E as [E|E]; [apply Z.leb_gt in E | apply Z.ltb_ge in E]; lia.
Qed.

(* ====================================================================== *)
(** * The source loop runs each history from [history_start] *)
(* ====================================================================== *)

Section SourceLoop.
Context {np : NumPy}.

Lemma bind_assoc (A B C : Type) (m : Outcome A) (k : A -> Outcome B) (h : B -> Outcome C) :
  bind (bind m k) h = bind m (fun a => bind (k a) h).
Proof. destruct m; reflexivity. Qed.

Lemma loop_source_from_split fuel n1 : forall sim i n2,
  loop_source_from fuel sim i (n1 + n2)
  = (s <- loop_source_from fuel sim i n1 ;; loop_source_from fuel s (i + n1) n2).
Proof.
  induction n1 as [|n1 IH]; intros sim i n2; cbn [loop_source_from Nat.add bind].
  - now rewrite Nat.add_0_r.
  - rewrite bind_assoc. destruct (loop_source_body fuel sim i); cbn [bind]; try reflexivity.
    rewrite IH. now rewrite Nat.add_succ_r.
Qed.

(** [history_start] is the state in which pass [i] of the source loop gets
    its particle and runs its history. *)
Lemma loop_source_runs_history fuel sim i :
  (i < Z.to_nat (Mpi.work_size (mpi sim)))%nat ->
  loop_source fuel sim
  = (s <- history_start fuel sim i ;;
     s <- get_source_particle s i ;;
     s <- loop_history fuel s ;;
     loop_source_from fuel s (S i) (Z.to_nat (Mpi.work_size (mpi sim)) - S i)).
Proof.
  intros Hi. unfold loop_source, history_start.
  change (mpi (loop_source_entry sim)) with (mpi sim).
  replace (Z.to_nat (Mpi.work_size (mpi sim)))
    with (i + S (Z.to_nat (Mpi.work_size (mpi sim)) - S i)) at 1 by lia.
  rewrite loop_source_from_split, bind_assoc.
  destruct (loop_source_from fuel (loop_source_entry sim) 0 i); cbn [bind]; try reflexivity.
  cbn [loop_source_from]. unfold loop_source_body. rewrite !bind_assoc. reflexivity.
Qed.

End SourceLoop.

Section Reproducibility.
Context {np : NumPy} {mpi_ops : MpiOps} {pct_ops : PctOps}.

(** The state a history starts from is the base of the source loop moved
    [work_start + i] strides ahead. *)
Lemma history_start_seed fuel sim i s :
  (0 <= Random.stride (rng sim))%Z -> (0 <= Mpi.work_start (mpi sim))%Z ->
  history_start fuel sim i = Ret s ->
  Random.seed (rng s)
  = Random.seed (Random.skip_ahead (rng sim) (Mpi.work_start (mpi sim) + Z.of_nat i) false).
Proof.
  intros Hst Hws H. unfold history_start in H. inv_ret.
  match goal with H : loop_source_from _ _ _ _ = _ |- _ =>
    apply frame_loop_source_from, setup_rng_eq in H; rename H into E end.
  cbn [rng set_rng].
  rewrite (skip_ahead_ignores_seed _ false E).
  unfold loop_source_entry. cbn [rng set_rng].
  apply skip_ahead_rebase_skip; lia.
Qed.

(** After the source loop, the rebase of [run] puts the base
    [work_size_total] strides past the base the loop was entered with. *)
Lemma rebase_rng_base fuel sim t :
  (0 <= Random.stride (rng sim))%Z ->
  (0 <= Mpi.work_start (mpi sim) <= Mpi.work_size_total (mpi sim))%Z ->
  loop_source fuel sim = Ret t ->
  Random.seed_base (rng (rebase_rng t))
  = Random.seed (Random.skip_ahead (rng sim) (Mpi.work_size_total (mpi sim)) false)
  /\ Random.same_config (rng (rebase_rng t)) (rng sim).
Proof.
  intros Hst Hws H. unfold loop_source in H.
  apply frame_loop_source_from in H.
  pose proof (setup_rng_eq H) as E. pose proof (setup_mpi H) as Em.
  unfold rebase_rng. cbn [rng set_rng]. rewrite Em.
  rewrite (skip_ahead_ignores_seed _ true E).
  unfold loop_source_entry. cbn [rng set_rng mpi set_rng].
  change (mpi (set_rng sim ?r)) with (mpi sim).
  split.
  - rewrite skip_ahead_base, skip_ahead_rebase_skip by lia.
    rewrite !skip_ahead_seed. do 3 f_equal. lia.
  - destruct (skip_ahead_config (Random.skip_ahead (rng sim) (Mpi.work_start (mpi sim)) true)
                (Mpi.work_size_total (mpi sim) - Mpi.work_start (mpi sim)) true)
      as (A & B & C & D).
    destruct (skip_ahead_config (rng sim) (Mpi.work_start (mpi sim)) true) as (A' & B' & C' & D').
    unfold Random.same_config. repeat split; congruence.
Qed.

Lemma skip_ahead_same_stream r1 r2 n rebase :
  Random.same_config r1 r2 -> Random.seed_base r1 = Random.seed_base r2 ->
  Random.seed (Random.skip_ahead r1 n rebase) = Random.seed (Random.skip_ahead r2 n rebase).
Proof.
  intros (A & B & C & D) E. rewrite (@skip_ahead_ignores_seed r1 (Random.set_seed r2 (Random.seed r1))).
  - reflexivity.
  - destruct r1, r2. unfold Random.set_seed. cbn in *. congruence.
Qed.

Lemma advance_base r n :
  Random.seed_base (Random.advance r n) = Random.seed_base r
  /\ Random.same_config (Random.advance r n) r.
Proof.
  pose proof (set_seed_advance r n) as E.
  destruct (Random.advance r n), r. unfold Random.set_seed in E. cbn in E.
  injection E as -> -> -> -> ->. repeat split.
Qed.

(** The bank management of [run] leaves the generator some draws past the
    rebased state. *)
Lemma manage_banks_rng sim :
  exists n, rng (manage_banks sim) = Random.advance (rng (rebase_rng sim)) n.
Proof.
  unfold manage_banks. destruct (mode_eigenvalue sim);
    destruct (pct_call _ _ _ _) as [bank n]; exists n; reflexivity.
Qed.

(** The generator base a pass of the simulation loop that goes on leaves
    is the base the bank management leaves on the state after the source
    loop. *)
Lemma run_iteration_rebase fuel s s' :
  run_iteration fuel s = Ret (s', false) ->
  exists t,
    loop_source fuel
      (set_bank_fission s (Some (if mode_eigenvalue s then BankStored else BankHistory)))
    = Ret t
    /\ Random.seed_base (rng s') = Random.seed_base (rng (manage_banks t))
    /\ Random.same_config (rng s') (rng (manage_banks t)).
Proof.
  unfold run_iteration. intros H. inv_ret. rename a into t, a0 into sb.
  exists t. split; [exact Ha|].
  assert (Eb : rng sb = rng t /\ mpi sb = mpi t).
  { destruct (mode_eigenvalue t); [|inv_ret; split; reflexivity].
    unfold update_k_eff in Ha0. inv_ret.
    match goal with H : (if Mpi.master _ then _ else _) = Ret _ |- _ =>
      destruct (Mpi.master _); inv_ret; split; reflexivity end. }
  destruct Eb as (Er & Em).
  assert (E0 : rng s0 = rng t /\ mpi s0 = mpi t)
    by (destruct (mode_eigenvalue sb); inv_ret; split; assumption).
  destruct E0 as (Er0 & Em0).
  destruct b; [injection H as _ Hf; discriminate Hf|]. injection H as <-.
  destruct (manage_banks_rng s0) as (n0 & ->), (manage_banks_rng t) as (n & ->).
  assert (Erb : rng (rebase_rng s0) = rng (rebase_rng t))
    by (unfold rebase_rng; cbn [rng set_rng]; rewrite Er0, Em0; reflexivity).
  rewrite Erb.
  destruct (advance_base (rng (rebase_rng t)) n0) as (X0 & Y0).
  destruct (advance_base (rng (rebase_rng t)) n) as (X & Y).
  split; [congruence|].
  unfold Random.same_config in *. intuition congruence.
Qed.

(** C1: with the same seed and stride, the [k]-th global history starts from
    the same generator state whatever the partition of the histories into
    ranks: on each rank the source loop runs the passes before it, skips
    ahead by the rank-local index, and gets the particle and runs the
    history from the state so reached, which is the base moved [k] strides;
    and the rebase of [run] after the source loop, with the population
    control that follows, leaves all ranks on one common base for the next
    iteration: a pass of the simulation loop that goes on ends on the
    base the bank management leaves after the source loop. *)
Theorem rng_reproducibility (fuel1 fuel2 : nat) (sim1 sim2 : Simulator) (N k : Z)
    (sizes1 sizes2 : list Z) (i1 i2 : Z) (s1 s2 : Simulator) :
  Random.same_config (rng sim1) (rng sim2) ->
  Random.seed_base (rng sim1) = Random.seed_base (rng sim2) ->
  (0 <= Random.stride (rng sim1))%Z ->
  Mpi.is_partition N sizes1 -> Mpi.is_partition N sizes2 ->
  Mpi.locate (Mpi.partition N sizes1) k = Some (mpi sim1, i1) ->
  Mpi.locate (Mpi.partition N sizes2) k = Some (mpi sim2, i2) ->
  history_start fuel1 sim1 (Z.to_nat i1) = Ret s1 ->
  history_start fuel2 sim2 (Z.to_nat i2) = Ret s2 ->
  Random.seed (rng s1) = Random.seed (rng s2)
  /\ Random.seed (rng s1) = Random.seed (Random.skip_ahead (rng sim1) k false)
  /\ (forall t1 t2,
        loop_source fuel1 sim1 = Ret t1 -> loop_source fuel2 sim2 = Ret t2 ->
        Random.seed_base (rng (manage_banks t1)) = Random.seed_base (rng (manage_banks t2))
        /\ Random.same_config (rng (manage_banks t1)) (rng (manage_banks t2)))
  /\ loop_source fuel1 sim1
     = (s <- history_start fuel1 sim1 (Z.to_nat i1) ;;
        s <- get_source_particle s (Z.to_nat i1) ;;
        s <- loop_history fuel1 s ;;
        loop_source_from fuel1 s (S (Z.to_nat i1))
          (Z.to_nat (Mpi.work_size (mpi sim1)) - S (Z.to_nat i1)))
  /\ loop_source fuel2 sim2
     = (s <- history_start fuel2 sim2 (Z.to_nat i2) ;;
        s <- get_source_particle s (Z.to_nat i2) ;;
        s <- loop_history fuel2 s ;;
        loop_source_from fuel2 s (S (Z.to_nat i2))
          (Z.to_nat (Mpi.work_size (mpi sim2)) - S (Z.to_nat i2)))
  /\ (forall p1,
        loop_source_from fuel1 (loop_source_entry sim1) 0 (Z.to_nat i1) = Ret p1 ->
        s1 = set_rng p1 (Random.skip_ahead (rng p1) i1 false)
        /\ loop_source_body fuel1 p1 (Z.to_nat i1)
           = (s <- get_source_particle s1 (Z.to_nat i1) ;; loop_history fuel1 s))
  /\ (forall fuel s s',
        run_iteration fuel s = Ret (s', false) ->
        exists t,
          loop_source fuel
            (set_bank_fission s
               (Some (if mode_eigenvalue s then BankStored else BankHistory)))
          = Ret t
          /\ Random.seed_base (rng s') = Random.seed_base (rng (manage_banks t))
          /\ Random.same_config (rng s') (rng (manage_banks t))).
Proof.
  intros Hc Hb Hst (Hp1 & Hs1) (Hp2 & Hs2) L1 L2 H1 H2.
  pose proof H1 as H1'.
  apply locate_spec in L1, L2. destruct L1 as (In1 & K1 & R1), L2 as (In2 & K2 & R2).
  apply ranks_from_spec in In1; [|exact Hp1]. apply ranks_from_spec in In2; [|exact Hp2].
  destruct In1 as (A1 & B1 & C1 & D1), In2 as (A2 & B2 & C2 & D2).
  assert (Hst2 : (0 <= Random.stride (rng sim2))%Z)
    by (destruct Hc as (_ & _ & _ & <-); exact Hst).
  apply history_start_seed in H1; [|exact Hst|lia].
  apply history_start_seed in H2; [|exact Hst2|lia].
  rewrite Z2Nat.id in H1, H2 by lia. rewrite K1 in H1. rewrite K2 in H2.
  split; [|split; [exact H1|split; [|split; [|split; [|split]]]]].
  - rewrite H1, H2. apply skip_ahead_same_stream; assumption.
  - intros t1 t2 T1 T2.
    apply rebase_rng_base in T1; [|exact Hst|lia].
    apply rebase_rng_base in T2; [|exact Hst2|lia].
    destruct T1 as (T1 & G1), T2 as (T2 & G2).
    destruct (manage_banks_rng t1) as (n1 & ->), (manage_banks_rng t2) as (n2 & ->).
    destruct (advance_base (rng (rebase_rng t1)) n1) as (X1 & Y1).
    destruct (advance_base (rng (rebase_rng t2)) n2) as (X2 & Y2).
    split.
    + rewrite X1, X2, T1, T2, D1, D2. apply skip_ahead_same_stream; assumption.
    + unfold Random.same_config in *. intuition congruence.
  - apply loop_source_runs_history. lia.
  - apply loop_source_runs_history. lia.
  - intros p1 Hp. unfold history_start in H1'. rewrite Hp in H1'. cbn [bind] in H1'.
    injection H1' as <-. unfold loop_source_body. rewrite !Z2Nat.id by lia.
    split; reflexivity.
  - intros fuel s s' Hi. apply run_iteration_rebase. exact Hi.
Qed.

End Reproducibility.

(* ====================================================================== *)
(** * Event selection *)
(* ====================================================================== *)

(** C4: the step is the minimum of the three distances, and on ties the
    earlier of collision, surface, census is the event. *)
Theorem choose_event_min_and_ties (d_coll d_surf d_census : float) :
  not_nan d_coll -> not_nan d_surf -> not_nan d_census ->
  let (event, d) := choose_event d_coll d_surf d_census in
  (PrimFloat.leb d d_coll = true /\ PrimFloat.leb d d_surf = true
   /\ PrimFloat.leb d d_census = true)
  /\ d = match event with
         | EVENT_COLLISION => d_coll
         | EVENT_SURFACE => d_surf
         | EVENT_CENSUS => d_census
         end
  /\ (event = EVENT_COLLISION <->
      PrimFloat.leb d_coll d_surf = true /\ PrimFloat.leb d_coll d_census = true)
  /\ (event = EVENT_SURFACE <->
      PrimFloat.ltb d_surf d_coll = true /\ PrimFloat.leb d_surf d_census = true)
  /\ (event = EVENT_CENSUS <->
      PrimFloat.ltb d_census d_coll = true /\ PrimFloat.ltb d_census d_surf = true)
  /\ (PrimFloat.eqb d_coll d_surf = true -> event <> EVENT_SURFACE)
  /\ (PrimFloat.eqb d_census d_coll = true \/ PrimFloat.eqb d_census d_surf = true ->
      event <> EVENT_CENSUS).
Proof.
  intros Hc Hs Hn. unfold choose_event, fgt.
  destruct (PrimFloat.ltb d_surf d_coll) eqn:E1;
    [ destruct (PrimFloat.ltb d_census d_surf) eqn:E2
    | destruct (PrimFloat.ltb d_census d_coll) eqn:E2 ];
    rewrite ?(leb_key Hc Hs), ?(leb_key Hc Hn), ?(leb_key Hs Hn),
      ?(leb_key Hn Hc), ?(leb_key Hn Hs), ?(leb_key Hs Hc),
      ?(leb_key Hc Hc), ?(leb_key Hs Hs), ?(leb_key Hn Hn),
      ?(ltb_key Hs Hc), ?(ltb_key Hn Hc), ?(ltb_key Hn Hs),
      ?(eqb_key Hc Hs), ?(eqb_key Hn Hc), ?(eqb_key Hn Hs);
    first [ apply (ltb_key Hs Hc) in E1 | apply (ltb_false_key Hs Hc) in E1 ];
    first [ apply (ltb_key Hn Hs) in E2 | apply (ltb_false_key Hn Hs) in E2
          | apply (ltb_key Hn Hc) in E2 | apply (ltb_false_key Hn Hc) in E2 ];
    destruct (fkey d_coll) as [[a1 a2] a3], (fkey d_surf) as [[b1 b2] b3],
      (fkey d_census) as [[c1 c2] c3]; unfold lex_lt, lex_le in *;
    repeat split; intros; try discriminate; try congruence; try lia;
    try (intros K; injection K; lia);
    try (match goal with H : _ = _ :> Z * Z * Z |- _ => injection H; lia end);
    try (match goal with H : _ = _ \/ _ = _ |- _ => destruct H as [H|H]; injection H; lia end).
Qed.

(* ====================================================================== *)
(** * Collisions and the eigenvalue accumulator *)
(* ====================================================================== *)

Lemma leb_not_nan a b : PrimFloat.leb a b = true -> not_nan a /\ not_nan b.
Proof.
  rewrite leb_spec. unfold SFleb. rewrite !is_nan_spec.
  destruct (SFcompare _ _) eqn:E; [|discriminate].
  intros _. split; intros K; rewrite K in E; simpl in E; try discriminate.
  destruct (Prim2SF a); discriminate.
Qed.

(** With [xi] below [a + b] and not below [a], [a <= xi]: the sum being a
    number, so is [a]. *)
Lemma between_leb a b xi :
  PrimFloat.ltb xi a = false -> PrimFloat.ltb xi (a + b) = true -> PrimFloat.leb a xi = true.
Proof.
  intros H1 H2. destruct (ltb_not_nan H2) as [Hx Hab].
  destruct (add_not_nan Hab) as [Ha _].
  apply (leb_key Ha Hx). apply (ltb_false_key Hx Ha). exact H1.
Qed.

Lemma leb_not_ltb a xi : PrimFloat.leb a xi = true -> PrimFloat.ltb xi a = false.
Proof.
  intros H. destruct (leb_not_nan H) as [Ha Hx].
  apply (ltb_false_key Hx Ha). apply (leb_key Ha Hx). exact H.
Qed.

Section Claims.
Context {np : NumPy} {mpi_ops : MpiOps} {pct_ops : PctOps}.

(** C5: a collision draws [xi = u * SigmaT(g)] from one draw [u]; the
    particle scatters iff [xi < SigmaS(g)], fissions iff
    [SigmaS(g) <= xi < SigmaS(g) + SigmaF(g)], and is captured otherwise. *)
Theorem collision_reaction_selection (sim : Simulator) (P : Particle) (C : Cell)
    (sT sC sS sF : float) :
  cell P = Some C ->
  nth_error (SigmaT (material C)) (g P) = Some sT ->
  nth_error (SigmaC (material C)) (g P) = Some sC ->
  nth_error (SigmaS (material C)) (g P) = Some sS ->
  nth_error (SigmaF (material C)) (g P) = Some sF ->
  let u := fst (Random.call (rng sim)) in
  let sim1 := set_rng sim (snd (Random.call (rng sim))) in
  let xi := (u * sT)%float in
  (select_reaction sS sF xi = Scattering <-> PrimFloat.ltb xi sS = true)
  /\ (select_reaction sS sF xi = Fission <->
      PrimFloat.leb sS xi = true /\ PrimFloat.ltb xi (sS + sF) = true)
  /\ (select_reaction sS sF xi = Capture <->
      PrimFloat.ltb xi sS = false
      /\ ~ (PrimFloat.leb sS xi = true /\ PrimFloat.ltb xi (sS + sF) = true))
  /\ collision sim P
     = match select_reaction sS sF xi with
       | Scattering => collision_scattering sim1 P
       | Fission => collision_fission sim1 P
       | Capture => Ret (sim1, collision_capture P)
       end
  /\ alive (collision_capture P) = false.
Proof.
  intros HC HT HCa HS HF u sim1 xi.
  assert (Hsel :
    (select_reaction sS sF xi = Scattering <-> PrimFloat.ltb xi sS = true)
    /\ (select_reaction sS sF xi = Fission <->
        PrimFloat.leb sS xi = true /\ PrimFloat.ltb xi (sS + sF) = true)
    /\ (select_reaction sS sF xi = Capture <->
        PrimFloat.ltb xi sS = false
        /\ ~ (PrimFloat.leb sS xi = true /\ PrimFloat.ltb xi (sS + sF) = true))).
  { unfold select_reaction, fgt.
    destruct (PrimFloat.ltb xi sS) eqn:E1; [|destruct (PrimFloat.ltb xi (sS + sF)) eqn:E2].
    - split; [split; auto|].
      split; (split; [discriminate|]).
      + intros [L _]. apply leb_not_ltb in L. congruence.
      + intros [K _]. discriminate.
    - pose proof (between_leb E1 E2) as L.
      split; [split; discriminate|].
      split; [split; auto|].
      split; [discriminate|]. intros [_ K]. elim K. auto.
    - split; [split; discriminate|].
      split; [split; [discriminate | intros [_ K]; discriminate]|].
      split; [|reflexivity]. intros _. split; [reflexivity|]. intros [_ K]. discriminate. }
  destruct Hsel as (A & B & D).
  split; [exact A|]. split; [exact B|]. split; [exact D|]. split; [|reflexivity].
  unfold collision. rewrite HC. cbn [attr bind].
  apply index_ret in HT, HCa, HS, HF. rewrite HT, HCa, HS, HF. cbn [bind].
  unfold rng_draw. subst u sim1 xi. destruct (Random.call (rng sim)) as [u r]. reflexivity.
Qed.

Lemma manage_banks_fields sim :
  k_eff (manage_banks sim) = k_eff sim
  /\ nuSigmaF_sum (manage_banks sim) = nuSigmaF_sum sim.
Proof.
  unfold manage_banks. destruct (pct_call _ _ _ _) as [bank n].
  destruct (mode_eigenvalue sim); split; reflexivity.
Qed.

(** C8: in eigenvalue mode every pass of the particle loop adds
    [w_old * distance * (nu(g_old) * SigmaF(g_old))] to [nuSigmaF_sum], the
    weight, group and cell being those saved at the entry of the pass; and
    after the source loop [k_eff] is the reduced sum over the total number
    of histories, and the sum restarts from zero. *)
Theorem eigenvalue_accumulator :
  (forall (sim : Simulator) (P : Particle) (sim' : Simulator) (P' : Particle),
     mode_eigenvalue sim = true ->
     loop_particle_body sim P = Ret (sim', P') ->
     exists sim1 P1 C nu_g sF,
       track_step sim P = Ret (sim1, P1)
       /\ P' = reset_record P1
       /\ wgt_old P1 = wgt P /\ g_old P1 = g P /\ cell_old P1 = cell P
       /\ cell P = Some C
       /\ nth_error (nu (material C)) (g P) = Some nu_g
       /\ nth_error (SigmaF (material C)) (g P) = Some sF
       /\ nuSigmaF_sum sim'
          = (nuSigmaF_sum sim + wgt P * distance P1 * (nu_g * sF))%float)
  /\ (forall (fuel : nat) (sim sim' : Simulator) (simulation_end : bool),
        mode_eigenvalue sim = true ->
        run_iteration fuel sim = Ret (sim', simulation_end) ->
        exists sim1,
          loop_source fuel (set_bank_fission sim (Some BankStored)) = Ret sim1
          /\ k_eff sim'
             = (allreduce (nuSigmaF_sum sim1)
                / float_of_Z (Mpi.work_size_total (mpi sim1)))%float
          /\ nuSigmaF_sum sim' = 0%float).
Proof.
  split.
  - intros sim P sim' P' Hmode H. unfold loop_particle_body in H. inv_ret.
    rename Ha into Htr, Ha0 into Hsc, s into sim1, p into P1.
    pose proof (frame_track_step _ _ Htr) as (Fs & Fn & Fsh).
    unfold shadow in Fsh. injection Fsh as E1 E2 E3 E4 E5.
    unfold score_eigenvalue in Hsc.
    assert (Hm1 : mode_eigenvalue sim1 = true)
      by (apply (f_equal mode_eigenvalue) in Fs; cbn in Fs; congruence).
    rewrite Hm1 in Hsc. inv_ret.
    match goal with H : attr _ = Ret ?c |- _ => apply attr_ret in H; rename c into C end.
    repeat match goal with H : index _ _ = Ret _ |- _ => apply index_ret in H end.
    exists sim1, P1, C. do 2 eexists.
    split; [eassumption|]. split; [reflexivity|].
    split; [assumption|]. split; [assumption|]. split; [assumption|].
    split; [congruence|].
    split; [rewrite <- E2; eassumption|].
    split; [rewrite <- E2; eassumption|].
    cbn. rewrite Fn, E4. reflexivity.
  - intros fuel sim sim' e Hmode H. unfold run_iteration in H.
    rewrite Hmode in H. cbn [mode_eigenvalue set_bank_fission] in H.
    change (mode_eigenvalue (set_bank_fission sim (Some BankStored))) with (mode_eigenvalue sim) in H.
    inv_ret.
    match goal with H : loop_source _ _ = Ret ?s |- _ => rename H into Hls; rename s into sim1 end.
    exists sim1. split; [exact Hls|].
    assert (Hm1 : mode_eigenvalue sim1 = true).
    { unfold loop_source in Hls. apply frame_loop_source_from in Hls.
      apply (f_equal mode_eigenvalue) in Hls. cbn in Hls. congruence. }
    rewrite Hm1 in *. unfold update_k_eff in *. inv_ret.
    match goal with H : (if Mpi.master _ then _ else _) = Ret ?a |- _ =>
      assert (Ka : k_eff a = (allreduce (nuSigmaF_sum sim1)
                              / float_of_Z (Mpi.work_size_total (mpi sim1)))%float
                   /\ mode_eigenvalue a = true)
        by (destruct (Mpi.master _); inv_ret; split; (reflexivity || exact Hm1)) end.
    destruct Ka as (Ka & Ma).
    match goal with H : (if mode_eigenvalue _ then _ else _) = _ |- _ =>
      cbn [mode_eigenvalue set_nuSigmaF_sum] in H; rewrite Ma in H; inv_ret end.
    match goal with H : (if ?b then _ else _) = Ret _ |- _ => destruct b; inv_ret end.
    + split; [exact Ka | reflexivity].
    + match goal with |- k_eff (manage_banks ?s) = _ /\ _ =>
        destruct (manage_banks_fields s) as (K1 & K2) end.
      rewrite K1, K2. split; [exact Ka | reflexivity].
Qed.

End Claims.

(* ====================================================================== *)
Lemma stores_refl s : stores_fission_only s s.
Proof.
  repeat split. exists []. rewrite app_nil_r. split; [reflexivity|]. split; constructor.
Qed.

Lemma stores_trans s1 s2 s3 :
  stores_fission_only s1 s2 -> stores_fission_only s2 s3 -> stores_fission_only s1 s3.
Proof.
  intros (E1 & H1 & l1 & B1 & F1 & G1) (E2 & H2 & l2 & B2 & F2 & G2).
  split; [congruence|]. split; [congruence|].
  exists (l1 ++ l2). split; [rewrite B2, B1, app_assoc; reflexivity|].
  split; apply Forall_app; auto.
Qed.

Lemma pushes_stores P s s' :
  bank_fission s = Some BankStored -> idx_ok P ->
  pushes_fission P s s' -> stores_fission_only s s'.
Proof.
  intros Href Hok (E & _ & B & H). split; [exact E|]. split; [auto|].
  destruct (B _ Href) as (l & Hl & F). exists l. split; [exact Hl|].
  split; (eapply Forall_impl; [|exact F]); intros Q HQ.
  - exists P. exact HQ.
  - destruct HQ as (d & g_out & ->). exact Hok.
Qed.

Lemma eigen_state_setup s s' : setup s' = setup s -> eigen_state s -> eigen_state s'.
Proof.
  intros E (A & B & C).
  pose proof (f_equal mode_eigenvalue E) as E1.
  pose proof (f_equal census_time E) as E2.
  pose proof (f_equal bank_fission E) as E3. cbn in E1, E2, E3.
  unfold eigen_state. repeat split; congruence.
Qed.

Lemma list_pop_spec (A : Type) (l : list A) :
  match list_pop l with
  | None => l = []
  | Some (rest, a) => l = rest ++ [a]
  end.
Proof.
  induction l as [|a l IH]; cbn; [reflexivity|].
  destruct (list_pop l) as [[r b]|]; subst; reflexivity.
Qed.

Section Eigenvalue.
Context {np : NumPy} {mpi_ops : MpiOps} {pct_ops : PctOps}.

Lemma idx_ok_collision sim P sim' P' :
  collision sim P = Ret (sim', P') -> idx_ok P -> idx_ok P'.
Proof.
  unfold collision. intros H. inv_ret. destruct (select_reaction _ _ _).
  - unfold collision_scattering in H. inv_ret. auto.
  - apply frame_collision_fission in H. destruct H as (_ & ->). auto.
  - inv_ret. auto.
Qed.

Lemma idx_ok_surface_hit sim P P' :
  surface_hit sim P = Ret P' -> idx_ok P -> idx_ok P'.
Proof.
  unfold surface_hit, apply_bc. intros H. inv_ret.
  destruct (Surface_bc _ _ _) as [d sv]. destruct (alive _).
  - unfold set_cell in H. destruct (find _ _); inv_ret. auto.
  - inv_ret. auto.
Qed.

(** With the single census time [INF], a census of a particle whose index
    is a position stores nothing. *)
Lemma census_event_final sim P sim' P' :
  census_time sim = [INF] -> idx_ok P ->
  census_event sim P = Ret (sim', P') ->
  sim' = sim /\ alive P' = false /\ idx_ok P'.
Proof.
  unfold census_event, idx_ok. intros Hc Hok H.
  change (time_idx (move_particle P (SMALL * speed P))) with (time_idx P) in H.
  destruct (time_idx P) as [idx|]; inv_ret. rewrite Hc. cbn [length].
  destruct (Z.ltb_spec (idx + 1) (Z.of_nat 1)); [lia|].
  repeat split. cbn. lia.
Qed.

Lemma eigen_perform_event sim P event Sn sim' P' :
  census_time sim = [INF] -> idx_ok P ->
  perform_event sim P event Sn = Ret (sim', P') ->
  pushes_fission P sim sim' /\ idx_ok P'.
Proof.
  intros Hc Hok H. destruct event; cbn [perform_event] in H.
  - split; [apply frame_collision in H; tauto | eapply idx_ok_collision; eassumption].
  - inv_ret. split; [apply only_rng_pushes, only_rng_refl|].
    eapply idx_ok_surface_hit; [eassumption|]. exact Hok.
  - apply census_event_final in H; [|assumption|assumption].
    destruct H as (-> & _ & Hok'). split; [apply only_rng_pushes, only_rng_refl | exact Hok'].
Qed.

Lemma eigen_track_step sim P sim' P' :
  census_time sim = [INF] -> idx_ok P ->
  track_step sim P = Ret (sim', P') ->
  (exists Pm, idx_ok Pm /\ pushes_fission Pm sim sim') /\ idx_ok P'.
Proof.
  unfold track_step. intros Hc Hok H. inv_ret.
  match goal with H : get_collision_distance _ _ = _ |- _ =>
    apply only_rng_collision_distance in H; rename H into Hr end.
  match goal with H : perform_event _ ?Pm _ _ = _ |- _ =>
    assert (Hm : idx_ok Pm) by exact Hok; apply eigen_perform_event in H; [| |exact Hm] end.
  - destruct H as (Hp & Hok'). split; [|exact Hok'].
    eexists. split; [exact Hm|].
    eapply pushes_fission_trans; [|exact Hp]. apply only_rng_pushes. exact Hr.
  - apply only_rng_setup in Hr. apply (f_equal census_time) in Hr. cbn in Hr. congruence.
Qed.

Lemma eigen_loop_particle_body sim P sim' P' :
  eigen_state sim -> idx_ok P ->
  loop_particle_body sim P = Ret (sim', P') ->
  stores_fission_only sim sim' /\ idx_ok P'.
Proof.
  intros (Hm & Hc & Hf) Hok H. unfold loop_particle_body in H. inv_ret.
  match goal with H : track_step _ _ = _ |- _ =>
    apply eigen_track_step in H; [|assumption|assumption];
    destruct H as ((Pm & Hokm & Hp) & Hok') end.
  match goal with H : score_eigenvalue _ _ = _ |- _ =>
    apply frame_score_eigenvalue in H; destruct H as (S1 & S2 & S3 & _) end.
  split; [|exact Hok'].
  eapply stores_trans; [eapply pushes_stores; [exact Hf | exact Hokm | exact Hp]|].
  split; [exact S1|]. split; [exact S3|]. exists []. rewrite app_nil_r.
  split; [exact S2|]. split; constructor.
Qed.

Lemma eigen_loop_particle fuel : forall sim P sim' P',
  eigen_state sim -> idx_ok P ->
  loop_particle fuel sim P = Ret (sim', P') ->
  stores_fission_only sim sim'.
Proof.
  induction fuel as [|fuel IH]; intros sim P sim' P' He Hok H; cbn [loop_particle] in H;
    destruct (alive P); inv_ret; try apply stores_refl.
  match goal with H : loop_particle_body _ _ = _ |- _ =>
    apply eigen_loop_particle_body in H; [|assumption|assumption];
    destruct H as (Hs & Hok') end.
  eapply stores_trans; [exact Hs|].
  eapply IH; [|exact Hok'|eassumption].
  destruct Hs as (Es & _). eapply eigen_state_setup; eassumption.
Qed.

(** In eigenvalue mode a whole history stores fission neutrons only. *)
Lemma eigen_loop_history fuel : forall sim sim',
  eigen_state sim -> Forall idx_ok (bank_history sim) ->
  loop_history fuel sim = Ret sim' ->
  setup sim' = setup sim
  /\ exists progeny,
       bank_stored sim' = bank_stored sim ++ progeny
       /\ Forall is_fission_neutron progeny /\ Forall idx_ok progeny.
Proof.
  induction fuel as [|fuel IH]; intros sim sim' He Hall H; cbn [loop_history] in H;
    pose proof (list_pop_spec (bank_history sim)) as Hpop;
    destruct (list_pop (bank_history sim)) as [[rest P]|]; inv_ret;
    try (split; [reflexivity|]; exists []; rewrite app_nil_r;
         split; [reflexivity|split; constructor]).
  rewrite Hpop in Hall. apply Forall_app in Hall. destruct Hall as (Hrest & HP).
  inversion HP as [|? ? HP1 _]; subst.
  match goal with H : loop_particle _ _ _ = _ |- _ =>
    apply eigen_loop_particle in H; [|exact He|exact HP1];
    destruct H as (E1 & B1 & l1 & S1 & F1 & G1) end.
  apply IH in H.
  - destruct H as (E2 & l2 & S2 & F2 & G2). split; [rewrite E2; exact E1|].
    exists (l1 ++ l2). split; [rewrite S2, S1; cbn; rewrite app_assoc; reflexivity|].
    split; apply Forall_app; auto.
  - eapply eigen_state_setup; [exact E1|]. exact He.
  - rewrite B1. exact Hrest.
Qed.

Lemma binary_search_ge x grid : (-1 <= binary_search x grid)%Z.
Proof.
  induction grid as [|e rest IH]; cbn [binary_search]; [lia|].
  destruct (PrimFloat.leb e x); lia.
Qed.

Lemma idx_ok_set_time_idx sim P P' : set_time_idx sim P = Ret P' -> idx_ok P'.
Proof.
  unfold set_time_idx, idx_ok. intros H.
  pose proof (binary_search_ge (time P) (census_time sim)) as Hb.
  remember (binary_search (time P) (census_time sim)) as b eqn:Eb. clear Eb.
  destruct (_ =? _)%Z; inv_ret; [exact I|].
  destruct (PrimFloat.eqb _ _); inv_ret; cbn [time_idx set_time_idx_field]; lia.
Qed.

Lemma select_source_In srcs : forall tot xi src,
  select_source srcs tot xi = Some src -> In src srcs.
Proof.
  induction srcs as [|s rest IH]; intros tot xi src H; cbn in H; [discriminate|].
  destruct (PrimFloat.ltb xi _); [injection H as <-; now left | right; eauto].
Qed.

Lemma eigen_get_source_particle sim i sim' :
  sources_ok sim -> Forall idx_ok (bank_source sim) -> Forall idx_ok (bank_history sim) ->
  get_source_particle sim i = Ret sim' ->
  setup sim' = setup sim /\ bank_stored sim' = bank_stored sim
  /\ Forall idx_ok (bank_history sim').
Proof.
  intros Hsrc Hbs Hbh H. pose proof (frame_get_source_particle _ _ H) as Es.
  split; [exact Es|]. unfold get_source_particle in H.
  destruct (bank_source sim) as [|q qs] eqn:Eb; inv_ret.
  - match goal with H : rng_draw _ = _ |- _ =>
      apply only_rng_draw in H; destruct H as [v ->] end.
    cbn [bank_stored set_bank_history set_rng bank_history]. split; [reflexivity|].
    apply Forall_app. split; [exact Hbh|]. constructor; [|constructor].
    match goal with H : attr (select_source _ _ _) = Ret ?src |- _ =>
      apply attr_ret, select_source_In in H; rename H into Hin; rename src into src0 end.
    match goal with H : get_particle src0 ?st = (?p, _) |- _ =>
      pose proof (Hsrc src0 st Hin) as Hp; rewrite H in Hp; cbn in Hp end.
    match goal with H : match cell ?p with _ => _ end = Ret ?q |- _ =>
      assert (Hq : idx_ok q)
        by (destruct (cell p); [inv_ret; exact Hp
                               | unfold set_cell in H; destruct (find _ _); inv_ret; exact Hp]) end.
    match goal with H : match time_idx ?q with _ => _ end = Ret ?r |- idx_ok ?r =>
      destruct (time_idx q) as [[|z|z]|] eqn:Et; inv_ret;
        try (eapply idx_ok_set_time_idx; eassumption); exact Hq end.
  - split; [reflexivity|]. cbn [bank_history set_bank_history].
    apply Forall_app. split; [exact Hbh|]. constructor; [|constructor].
    match goal with H : index _ _ = Ret _ |- _ => apply index_ret, nth_error_In in H end.
    rewrite Forall_forall in Hbs. auto.
Qed.

Lemma loop_history_empties fuel : forall sim sim',
  loop_history fuel sim = Ret sim' -> bank_history sim' = [].
Proof.
  induction fuel as [|fuel IH]; intros sim sim' H; cbn [loop_history] in H;
    pose proof (list_pop_spec (bank_history sim)) as Hpop;
    destruct (list_pop (bank_history sim)) as [[rest P]|]; inv_ret; eauto.
Qed.

Lemma eigen_loop_source_from fuel n : forall sim i sim',
  eigen_state sim -> sources_ok sim ->
  Forall idx_ok (bank_source sim) -> Forall idx_ok (bank_history sim) ->
  loop_source_from fuel sim i n = Ret sim' ->
  Forall idx_ok (bank_history sim')
  /\ exists progeny,
       bank_stored sim' = bank_stored sim ++ progeny
       /\ Forall is_fission_neutron progeny /\ Forall idx_ok progeny.
Proof.
  induction n as [|n IH]; intros sim i sim' He Hsrc Hbs Hbh H;
    cbn [loop_source_from] in H; inv_ret.
  - split; [exact Hbh|]. exists []. rewrite app_nil_r.
    split; [reflexivity | split; constructor].
  - match goal with H : loop_source_body _ _ _ = Ret ?a |- _ =>
      rename H into Hb; rename a into s1 end.
    unfold loop_source_body in Hb. inv_ret. rename a into s0'.
    apply eigen_get_source_particle in Ha; [|exact Hsrc|exact Hbs|exact Hbh].
    destruct Ha as (E0 & B0 & F0).
    assert (Esk : setup s0' = setup sim)
      by (rewrite E0; apply only_rng_setup, only_rng_skip).
    pose proof (loop_history_empties _ _ Hb) as Hempty.
    apply eigen_loop_history in Hb; [|eapply eigen_state_setup; eassumption|exact F0].
    destruct Hb as (E1 & l1 & S1 & F1 & G1).
    assert (Es1 : setup s1 = setup sim) by congruence.
    apply IH in H.
    + destruct H as (Hh & l2 & S2 & F2 & G2). split; [exact Hh|]. exists (l1 ++ l2).
      split; [rewrite S2, S1, B0; cbn; rewrite app_assoc; reflexivity|].
      split; apply Forall_app; auto.
    + eapply eigen_state_setup; eassumption.
    + unfold sources_ok. apply (f_equal sources) in Es1. cbn in Es1. rewrite Es1. exact Hsrc.
    + apply (f_equal bank_source) in Es1. cbn in Es1. rewrite Es1. exact Hbs.
    + rewrite Hempty. constructor.
Qed.

Lemma manage_banks_mode sim :
  mode_eigenvalue (manage_banks sim) = mode_eigenvalue sim
  /\ census_time (manage_banks sim) = census_time sim.
Proof.
  unfold manage_banks. destruct (pct_call _ _ _ _) as [bank n].
  destruct (mode_eigenvalue sim) eqn:E; split; cbn; congruence.
Qed.

Lemma run_iteration_mode fuel s s' e :
  run_iteration fuel s = Ret (s', e) ->
  mode_eigenvalue s' = mode_eigenvalue s /\ census_time s' = census_time s.
Proof.
  unfold run_iteration. intros H. inv_ret.
  rename a into s1, a0 into s2, s0 into s3.
  unfold loop_source in Ha. apply frame_loop_source_from in Ha.
  pose proof (f_equal mode_eigenvalue Ha) as M1.
  pose proof (f_equal census_time Ha) as C1. cbn in M1, C1.
  assert (K2 : mode_eigenvalue s2 = mode_eigenvalue s1 /\ census_time s2 = census_time s1).
  { destruct (mode_eigenvalue s1) eqn:Em; [|inv_ret; split; [exact Em | reflexivity]].
    unfold update_k_eff in Ha0. inv_ret.
    match goal with H : (if Mpi.master _ then _ else _) = Ret _ |- _ =>
      destruct (Mpi.master _); inv_ret; split; first [exact Em | reflexivity] end. }
  destruct K2 as (M2 & C2).
  assert (K3 : mode_eigenvalue s3 = mode_eigenvalue s2 /\ census_time s3 = census_time s2)
    by (destruct (mode_eigenvalue s2) eqn:Em; inv_ret; split; first [exact Em | reflexivity]).
  destruct K3 as (M3 & C3).
  destruct b; inv_ret.
  - cbn. split; congruence.
  - destruct (manage_banks_mode s3). split; congruence.
Qed.

(** The simulation loop runs every pass [pass_of] gives. *)
Lemma run_loop_pass fuel s fuel_k s_k :
  pass_of fuel s fuel_k s_k ->
  run_loop fuel s
  = ('(s', simulation_end) <- run_iteration fuel_k s_k ;;
     if simulation_end then Ret s' else run_loop fuel_k s').
Proof.
  induction 1 as [fuel s | fuel s s1 fuel_k s_k Hi Hp IH]; cbn [run_loop].
  - reflexivity.
  - rewrite Hi. cbn [bind]. exact IH.
Qed.

Lemma sources_ok_run_setup sim : sources_ok sim -> sources_ok (run_setup sim).
Proof.
  unfold sources_ok, run_setup. intros H src stream Hin.
  destruct (mode_eigenvalue _); cbn [sources set_mpi set_census_time set_sources] in Hin;
    apply in_map_iff in Hin; destruct Hin as (src0 & <- & Hin0);
    apply (H src0 stream Hin0).
Qed.

Lemma eigen_inv_run_setup sim :
  mode_eigenvalue sim = true -> sources_ok sim ->
  Forall idx_ok (bank_source sim) -> Forall idx_ok (bank_history sim) ->
  Forall idx_ok (bank_stored sim) ->
  eigen_inv (run_setup sim).
Proof.
  intros Hm Hs Hbs Hbh Hbt. pose proof (sources_ok_run_setup Hs) as Hs'.
  unfold eigen_inv. split; [|split; [|split; [exact Hs'|]]].
  - unfold run_setup. cbn. rewrite Hm. exact Hm.
  - unfold run_setup. cbn. rewrite Hm. reflexivity.
  - unfold run_setup. cbn. rewrite Hm. cbn. auto.
Qed.

Lemma eigen_inv_loop_source fuel s t :
  eigen_inv s ->
  loop_source fuel (set_bank_fission s (Some BankStored)) = Ret t ->
  setup t = setup (loop_source_entry (set_bank_fission s (Some BankStored)))
  /\ Forall idx_ok (bank_history t)
  /\ exists progeny,
       bank_stored t = bank_stored s ++ progeny
       /\ Forall is_fission_neutron progeny /\ Forall idx_ok progeny.
Proof.
  intros (Hm & Hc & Hs & Hbs & Hbh & Hbt) H. unfold loop_source in H.
  split; [eapply frame_loop_source_from; exact H|].
  apply eigen_loop_source_from in H; try assumption.
  unfold eigen_state. cbn. auto.
Qed.

Lemma eigen_inv_iteration fuel s s1 :
  banks_keep_idx_ok -> eigen_inv s ->
  run_iteration fuel s = Ret (s1, false) -> eigen_inv s1.
Proof.
  intros (Hn & Hp) Hinv H. pose proof Hinv as (Hm & Hc & Hs & Hbs & Hbh & Hbt).
  pose proof (run_iteration_mode _ _ H) as (M1 & C1).
  unfold run_iteration in H. rewrite Hm in H. inv_ret.
  rename a into sa, a0 into sb.
  apply eigen_inv_loop_source in Ha; [|exact Hinv].
  destruct Ha as (Ea & Hha & l & Sa & _ & Ga).
  pose proof (f_equal mode_eigenvalue Ea) as Ma. pose proof (f_equal sources Ea) as Sra.
  cbn in Ma, Sra. rewrite Ma, Hm in Ha0.
  assert (Eb : sources sb = sources sa /\ bank_stored sb = bank_stored sa
               /\ bank_history sb = bank_history sa /\ mode_eigenvalue sb = true).
  { unfold update_k_eff in Ha0. inv_ret.
    match goal with H : (if Mpi.master _ then _ else _) = Ret _ |- _ =>
      destruct (Mpi.master _); inv_ret; repeat split; cbn; congruence end. }
  destruct Eb as (Srb & Stb & Hhb & Mb).
  rewrite Mb in E. injection E as <- <-.
  destruct (_ =? _)%Z; [discriminate H|]. injection H as <-.
  unfold eigen_inv. split; [congruence|]. split; [congruence|].
  unfold manage_banks. cbn [mode_eigenvalue set_i_iter]. rewrite Mb.
  destruct (pct_call _ _ _ _) as [bank n] eqn:Epct.
  cbn. split; [|split; [|split; [|constructor]]].
  - unfold sources_ok. cbn. rewrite Srb, Sra. exact Hs.
  - apply (f_equal fst) in Epct. cbn [fst] in Epct. rewrite <- Epct.
    apply Hp, Hn. cbn. rewrite Stb, Sa. apply Forall_app. auto.
  - rewrite Hhb. exact Hha.
Qed.

Lemma eigen_inv_pass fuel s fuel_k s_k :
  banks_keep_idx_ok -> eigen_inv s -> pass_of fuel s fuel_k s_k -> eigen_inv s_k.
Proof.
  intros Hk Hinv Hp. induction Hp as [fuel s | fuel s s1 fuel_k s_k Hi Hp IH].
  - exact Hinv.
  - apply IH. eapply eigen_inv_iteration; eassumption.
Qed.

(** C10: in eigenvalue mode [run] starts the simulation loop with the
    single census time [INF]; every pass the loop of [run] enters is in
    eigenvalue mode with that census time, so a census event in it stores
    nothing and kills, and what the source loop of the pass appends to
    [bank_stored] are fission neutrons only; the pass leaves [bank_stored]
    empty.  Stated for sources and banks whose particles have a census
    index that is unset or a position, and for a weight normalisation and
    a population control that return such particles from such a bank. *)
Theorem eigenvalue_stores_no_census_copy (sim : Simulator) :
  mode_eigenvalue sim = true ->
  sources_ok sim ->
  Forall idx_ok (bank_source sim) -> Forall idx_ok (bank_history sim) ->
  Forall idx_ok (bank_stored sim) ->
  banks_keep_idx_ok ->
  (census_time (run_setup sim) = [INF] /\ mode_eigenvalue (run_setup sim) = true)
  /\ (forall fuel fuel_k s_k,
        pass_of fuel (run_setup sim) fuel_k s_k ->
        run fuel sim
        = ('(s', simulation_end) <- run_iteration fuel_k s_k ;;
           if simulation_end then Ret s' else run_loop fuel_k s')
        /\ mode_eigenvalue s_k = true /\ census_time s_k = [INF]
        /\ (forall P Sn idx,
              time_idx P = Some idx -> (0 <= idx)%Z ->
              exists P',
                perform_event s_k P EVENT_CENSUS Sn = Ret (s_k, P') /\ alive P' = false)
        /\ (forall t,
              loop_source fuel_k (set_bank_fission s_k (Some BankStored)) = Ret t ->
              exists progeny,
                bank_stored t = bank_stored s_k ++ progeny
                /\ Forall is_fission_neutron progeny)
        /\ (forall s' simulation_end,
              run_iteration fuel_k s_k = Ret (s', simulation_end) ->
              exists t progeny,
                loop_source fuel_k (set_bank_fission s_k (Some BankStored)) = Ret t
                /\ bank_stored t = bank_stored s_k ++ progeny
                /\ Forall is_fission_neutron progeny
                /\ bank_stored s' = []))
  /\ (forall fuel s s' simulation_end,
        mode_eigenvalue s = true -> census_time s = [INF] ->
        run_iteration fuel s = Ret (s', simulation_end) ->
        mode_eigenvalue s' = true /\ census_time s' = [INF])
  /\ (forall s P Sn idx,
        census_time s = [INF] -> time_idx P = Some idx -> (0 <= idx)%Z ->
        exists P', perform_event s P EVENT_CENSUS Sn = Ret (s, P') /\ alive P' = false).
Proof.
  intros Hmode Hsrc Hbs Hbh Hbt Hk.
  assert (Hcensus : forall s P Sn idx,
            census_time s = [INF] -> time_idx P = Some idx -> (0 <= idx)%Z ->
            exists P', perform_event s P EVENT_CENSUS Sn = Ret (s, P') /\ alive P' = false).
  { intros s P Sn idx Hc Hidx Hpos. cbn [perform_event]. unfold census_event.
    change (time_idx (move_particle P (SMALL * speed P))) with (time_idx P).
    rewrite Hidx, Hc. cbn [length].
    destruct (Z.ltb_spec (idx + 1) (Z.of_nat 1)); [lia|].
    eexists. split; reflexivity. }
  pose proof (eigen_inv_run_setup Hmode Hsrc Hbs Hbh Hbt) as Hinv0.
  split; [|split; [|split]].
  - destruct Hinv0 as (M & C & _). auto.
  - intros fuel fuel_k s_k Hp.
    pose proof (eigen_inv_pass Hk Hinv0 Hp) as Hinv.
    pose proof Hinv as (M & C & _).
    split; [unfold run; apply run_loop_pass; exact Hp|].
    split; [exact M|]. split; [exact C|].
    split; [intros P Sn idx; apply Hcensus; exact C|].
    assert (Hloop : forall t,
              loop_source fuel_k (set_bank_fission s_k (Some BankStored)) = Ret t ->
              exists progeny,
                bank_stored t = bank_stored s_k ++ progeny
                /\ Forall is_fission_neutron progeny).
    { intros t Ht. apply eigen_inv_loop_source in Ht; [|exact Hinv].
      destruct Ht as (_ & _ & l & S1 & F1 & _). exists l. auto. }
    split; [exact Hloop|].
    intros s' e Hi. pose proof Hi as Hi'.
    unfold run_iteration in Hi. rewrite M in Hi. inv_ret.
    match goal with H : loop_source _ _ = Ret ?t |- _ =>
      destruct (Hloop t H) as (l & S1 & F1); exists t, l end.
    split; [assumption|]. split; [exact S1|]. split; [exact F1|].
    match goal with H : (if ?b then _ else _) = Ret (s', e) |- _ =>
      destruct b; injection H as <- <-; [reflexivity|] end.
    unfold manage_banks. destruct (pct_call _ _ _ _). reflexivity.
  - intros fuel s s' e Hm Hc H. apply run_iteration_mode in H. destruct H. split; congruence.
  - exact Hcensus.
Qed.

End Eigenvalue.

(* ====================================================================== *)
(** * Surface events and lost particles *)
(* ====================================================================== *)

Lemma find_first (A : Type) (f : A -> bool) (before after : list A) (a : A) :
  f a = true -> (forall c, In c before -> f c = false) ->
  find f (before ++ a :: after) = Some a.
Proof.
  intros Ha Hb. induction before as [|b before IH]; cbn.
  - now rewrite Ha.
  - rewrite (Hb b) by now left. apply IH. intros c Hc. apply Hb. now right.
Qed.

Lemma find_none (A : Type) (f : A -> bool) (l : list A) :
  (forall c, In c l -> f c = false) -> find f l = None.
Proof.
  intros H. induction l as [|b l IH]; cbn; [reflexivity|].
  rewrite (H b) by now left. apply IH. intros c Hc. apply H. now right.
Qed.

Section Surface.
Context {np : NumPy}.

(** C3, as the code has it: on a surface event the surface is recorded and
    its boundary condition applied; the particle is then moved by [SMALL]
    along its direction whether it survived or not; only a surviving
    particle has its cell resolved again, by the first cell of the list
    that contains it, and finding none is fatal. *)
Theorem surface_event_spec (sim : Simulator) (P : Particle) (Sf : Surface) :
  let Pb := apply_bc Sf (set_surface P (Some Sf)) in
  let Pk := move_particle Pb SMALL in
  surface Pk = Some Sf
  /\ dir Pk = fst (Surface_bc Sf (pos P) (dir P))
  /\ alive Pk = alive P && snd (Surface_bc Sf (pos P) (dir P))
  /\ pos Pk = point_add (pos P) (point_scale (dir Pk) SMALL)
  /\ (alive Pk = false ->
      perform_event sim P EVENT_SURFACE (Some Sf) = Ret (sim, Pk))
  /\ (alive Pk = true ->
      (forall C before after,
         cells sim = before ++ C :: after ->
         test_point C (pos Pk) = true ->
         (forall c, In c before -> test_point c (pos Pk) = false) ->
         perform_event sim P EVENT_SURFACE (Some Sf)
         = Ret (sim, set_cell_field Pk (Some C)))
      /\ ((forall c, In c (cells sim) -> test_point c (pos Pk) = false) ->
          perform_event sim P EVENT_SURFACE (Some Sf) = Lost (pos Pk))).
Proof.
  intros Pb Pk.
  assert (Hev : perform_event sim P EVENT_SURFACE (Some Sf)
                = (Q <- (if alive Pk then set_cell sim Pk else Ret Pk) ;; Ret (sim, Q)))
    by reflexivity.
  subst Pk Pb. unfold apply_bc in *. cbn [pos dir set_surface] in *.
  destruct (Surface_bc Sf (pos P) (dir P)) as [d sv]. cbn [fst snd] in *.
  split; [reflexivity|]. split; [reflexivity|]. split; [reflexivity|].
  split; [reflexivity|]. rewrite Hev. split.
  - intros ->. reflexivity.
  - intros ->. unfold set_cell. split.
    + intros C before after Hc Ht Hb. rewrite Hc.
      match goal with |- context [find ?f ?l] =>
        replace (find f l) with (Some C) by (symmetry; apply find_first; assumption) end.
      reflexivity.
    + intros Hn.
      match goal with |- context [find ?f ?l] =>
        replace (find f l) with (@None Cell) by (symmetry; apply find_none; assumption) end.
      reflexivity.
Qed.

(** C9, as the code has it: a particle no cell contains is fatal; the
    outcome carries the position only, and it ends the particle loop and
    the history loop it occurs in. *)
Theorem lost_particle_is_fatal (sim : Simulator) (P : Particle) :
  (forall c, In c (cells sim) -> test_point c (pos P) = false) ->
  set_cell sim P = Lost (pos P)
  /\ (forall Q, pos Q = pos P -> set_cell sim Q = Lost (pos P))
  /\ (forall fuel s Q p,
        alive Q = true -> loop_particle_body s Q = Lost p ->
        loop_particle (S fuel) s Q = Lost p)
  /\ (forall fuel s rest Q p,
        list_pop (bank_history s) = Some (rest, Q) ->
        loop_particle fuel (set_bank_history s rest) Q = Lost p ->
        loop_history (S fuel) s = Lost p).
Proof.
  intros Hn. split; [|split; [|split]].
  - unfold set_cell.
    match goal with |- context [find ?f ?l] =>
      replace (find f l) with (@None Cell) by (symmetry; apply find_none; assumption) end.
    reflexivity.
  - intros Q HQ. unfold set_cell. rewrite HQ.
    match goal with |- context [find ?f ?l] =>
      replace (find f l) with (@None Cell) by (symmetry; apply find_none; assumption) end.
    reflexivity.
  - intros fuel s Q p Ha Hb. cbn [loop_particle]. rewrite Ha, Hb. reflexivity.
  - intros fuel s rest Q p Hp Hl. cbn [loop_history]. rewrite Hp, Hl. reflexivity.
Qed.

End Surface.

(** C2 fails at the direction (0, 0, -1): the guard of [scatter] tests
    [dir.z != 1.0] only, the general branch is taken, its divisor [B] is
    zero and the new direction is not a number. *)
Theorem scatter_divides_by_zero_at_minus_z :
  let d := mkPoint 0 0 (-1) in
  fne (pt_z d) 1 = true
  /\ scatter_B d = 0%float
  /\ PrimFloat.is_nan (pt_x (scatter_dir d 0.5 0.25)) = true
  /\ PrimFloat.is_nan (pt_y (scatter_dir d 0.5 0.25)) = true.
Proof. vm_compute. repeat split. Qed.

(** The claim C3 fails on a vacuum boundary: the particle is killed and
    still moved by [SMALL]. *)
Lemma surface_hit_moves_killed_particle :
  exists P',
    perform_event ex_sim ex_particle_left EVENT_SURFACE (Some ex_left) = Ret (ex_sim, P')
    /\ alive P' = false
    /\ pos P' <> pos ex_particle_left.
Proof.
  eexists. split; [reflexivity|]. split; [reflexivity|].
  intros H. apply (f_equal (fun p => PrimFloat.eqb (pt_x p) (-4))) in H.
  vm_compute in H. discriminate H.
Qed.

(** The claim C9 fails on the diagnostic: two lost particles of different
    groups give the same outcome, which carries the position only. *)
Lemma lost_diagnostic_omits_group :
  set_cell ex_sim ex_lost_g0 = Lost (pos ex_lost_g0)
  /\ set_cell ex_sim ex_lost_g1 = set_cell ex_sim ex_lost_g0
  /\ g ex_lost_g0 <> g ex_lost_g1.
Proof. split; [reflexivity|]. split; [reflexivity|]. cbn. discriminate. Qed.

(* ====================================================================== *)
(** * The theorems on the example configuration *)
(* ====================================================================== *)

Lemma rng_reproducibility_witness :
  exists s1 s2,
    history_start 60 ex_sim 1 = Ret s1
    /\ history_start 60 ex_sim_rank1 0 = Ret s2
    /\ Random.seed (rng s1) = Random.seed (rng s2).
Proof.
  destruct (history_start 60 ex_sim 1) as [s1| | |] eqn:E1;
    try (vm_compute in E1; discriminate E1).
  destruct (history_start 60 ex_sim_rank1 0) as [s2| | |] eqn:E2;
    try (vm_compute in E2; discriminate E2).
  exists s1, s2. split; [reflexivity|]. split; [reflexivity|].
  refine (proj1 (@rng_reproducibility ex_numpy ex_mpi_ops ex_pct_ops 60 60 ex_sim
                   ex_sim_rank1 4 1 [4%Z] [1%Z; 3%Z] 1 0 s1 s2 _ _ _ _ _ _ _ E1 E2)).
  - repeat split.
  - reflexivity.
  - vm_compute. discriminate.
  - split; [repeat constructor; lia | reflexivity].
  - split; [repeat constructor; lia | reflexivity].
  - reflexivity.
  - reflexivity.
Defined.

Lemma choose_event_min_and_ties_witness :
  choose_event 2%float 2%float 3%float = (EVENT_COLLISION, 2%float).
Proof.
  pose proof (@choose_event_min_and_ties 2%float 2%float 3%float
                ltac:(reflexivity) ltac:(reflexivity) ltac:(reflexivity)) as H.
  destruct (choose_event 2 2 3) as [ev d].
  destruct H as (_ & Hd & Hc & _).
  assert (ev = EVENT_COLLISION) by (apply Hc; split; reflexivity).
  subst ev. now rewrite Hd.
Defined.

Lemma collision_reaction_selection_witness :
  collision ex_sim ex_particle
  = collision_scattering (set_rng ex_sim (snd (Random.call (rng ex_sim)))) ex_particle.
Proof.
  destruct (@collision_reaction_selection ex_numpy ex_sim ex_particle ex_cell
              1%float 0.25%float 0.5%float 0.25%float
              ltac:(reflexivity) ltac:(reflexivity) ltac:(reflexivity)
              ltac:(reflexivity) ltac:(reflexivity)) as (Hs & _ & _ & He & _).
  rewrite He. cbv zeta in Hs.
  rewrite (proj2 Hs ltac:(vm_compute; reflexivity)). reflexivity.
Defined.

Lemma collision_fission_progeny_witness :
  exists sim',
    collision_fission ex_sim ex_particle = Ret (sim', set_alive ex_particle false)
    /\ length (bank_history sim') = 2%nat
    /\ (forall j Q,
         nth_error
           (map (fission_neutron_at (rng (snd (rng_draw ex_sim))) ex_particle [0.25%float]
                   0.25%float) (seq 0 2)) j = Some Q ->
         g Q = O).
Proof.
  assert (Hfloor : py_floor (2.5 / k_eff ex_sim + fst (rng_draw ex_sim))%float = Ret 2%Z)
    by (vm_compute; reflexivity).
  assert (Hc : cell ex_particle = Some ex_cell) by reflexivity.
  assert (H1 : nth_error (SigmaF_diff (material ex_cell)) (g ex_particle) = Some [0.25%float])
    by reflexivity.
  assert (H2 : nth_error (SigmaF (material ex_cell)) (g ex_particle) = Some 0.25%float)
    by reflexivity.
  assert (H3 : nth_error (nu (material ex_cell)) (g ex_particle) = Some 2.5%float)
    by reflexivity.
  assert (H4 : [0.25%float] <> []) by discriminate.
  assert (H5 : bank_fission ex_sim = Some BankHistory) by reflexivity.
  destruct (@collision_fission_progeny ex_numpy ex_sim ex_particle ex_cell
              [0.25%float] 0.25%float 2.5%float 2 BankHistory Hc H1 H2 H3 H4 H5 Hfloor)
    as (sim' & K1 & _ & K2 & _ & _ & _ & _ & _ & _ & K3).
  exists sim'. split; [exact K1|].
  split; [|intros j Q HQ; destruct (K3 j Q HQ) as (_ & _ & Hg & _); cbn [length] in Hg; lia].
  apply (f_equal (fun o => match o with Ret l => length l | _ => O end)) in K2.
  rewrite length_app, length_map, length_seq in K2. 
  change (length (bank_of BankHistory ex_sim) + Z.to_nat 2) with 2%nat in K2.
  rewrite <- K2.
  unfold bank_fission_list.
  assert (Hf : bank_fission sim' = Some BankHistory).
  { apply (f_equal (fun o => match o with Ret (s, _) => bank_fission s | _ => None end)) in K1.
    vm_compute in K1. symmetry. exact K1. }
  rewrite Hf. reflexivity.
Defined.

Lemma census_event_spec_witness :
  exists sim' P',
    perform_event ex_sim ex_particle EVENT_CENSUS None = Ret (sim', P')
    /\ alive P' = false /\ length (bank_stored sim') = 1%nat.
Proof.
  destruct (@census_event_spec ex_numpy ex_sim ex_particle 0 None ltac:(reflexivity))
    as (sim' & H & _ & _ & _ & Ha & Hs & _).
  exists sim'. eexists. split; [exact H|]. split; [exact Ha|].
  rewrite (Hs ltac:(vm_compute; reflexivity)). reflexivity.
Defined.

Lemma eigenvalue_accumulator_witness :
  exists sim' P' sim1 P1,
    loop_particle_body ex_sim_k ex_particle = Ret (sim', P')
    /\ track_step ex_sim_k ex_particle = Ret (sim1, P1)
    /\ nuSigmaF_sum sim'
       = (nuSigmaF_sum ex_sim_k + wgt ex_particle * distance P1 * (2.5 * 0.25))%float.
Proof.
  destruct (loop_particle_body ex_sim_k ex_particle) as [[sim' P']| | |] eqn:E;
    try (vm_compute in E; discriminate E).
  destruct (proj1 (@eigenvalue_accumulator ex_numpy ex_mpi_ops ex_pct_ops)
              ex_sim_k ex_particle sim' P' eq_refl E)
    as (sim1 & P1 & C & nu_g & sF & Ht & _ & _ & _ & _ & Hc & Hnu & HsF & Hsum).
  exists sim', P', sim1, P1. split; [reflexivity|]. split; [exact Ht|].
  injection Hc as <-.
  change (Some 2.5%float = Some nu_g) in Hnu. injection Hnu as <-.
  change (Some 0.25%float = Some sF) in HsF. injection HsF as <-.
  exact Hsum.
Defined.

Lemma lost_particle_is_fatal_witness :
  set_cell ex_sim ex_lost_g0 = Lost (pos ex_lost_g0).
Proof.
  refine (proj1 (@lost_particle_is_fatal ex_numpy ex_sim ex_lost_g0 _)).
  intros c [<-|[]]. vm_compute. reflexivity.
Defined.

Lemma eigenvalue_stores_no_census_copy_witness :
  exists t progeny,
    run_iteration 59 (run_setup (set_kmode ex_sim 2 1%float)) = Ret (ex_second_pass, false)
    /\ loop_source 58 (set_bank_fission ex_second_pass (Some BankStored)) = Ret t
    /\ bank_stored t = bank_stored ex_second_pass ++ progeny
    /\ Forall is_fission_neutron progeny.
Proof.
  assert (H1 : run_iteration 59 (run_setup (set_kmode ex_sim 2 1%float))
               = Ret (ex_second_pass, false)) by (vm_compute; reflexivity).
  destruct (loop_source 58 (set_bank_fission ex_second_pass (Some BankStored)))
    as [t| | |] eqn:E; try (vm_compute in E; discriminate E).
  assert (Hm : mode_eigenvalue (set_kmode ex_sim 2 1%float) = true) by reflexivity.
  assert (Hs : sources_ok (set_kmode ex_sim 2 1%float)).
  { intros src stream [<-|[]]. vm_compute. discriminate. }
  assert (Hb1 : Forall idx_ok (bank_source (set_kmode ex_sim 2 1%float))) by constructor.
  assert (Hb2 : Forall idx_ok (bank_history (set_kmode ex_sim 2 1%float))) by constructor.
  assert (Hb3 : Forall idx_ok (bank_stored (set_kmode ex_sim 2 1%float))) by constructor.
  assert (Hk : @banks_keep_idx_ok ex_mpi_ops ex_pct_ops)
    by (split; intros; assumption).
  destruct (@eigenvalue_stores_no_census_copy ex_numpy ex_mpi_ops ex_pct_ops
              (set_kmode ex_sim 2 1%float) Hm Hs Hb1 Hb2 Hb3 Hk) as (_ & K & _).
  destruct (K 60 58 ex_second_pass (@pass_next _ _ _ _ _ _ _ _ H1 (@pass_first _ _ _ 58 ex_second_pass)))
    as (_ & _ & _ & _ & K1 & _).
  destruct (K1 t E) as (progeny & K2 & K3).
  exists t, progeny. split; [exact H1|]. split; [reflexivity|]. split; assumption.
Defined.

(* ====================================================================== *)
(** * More order facts on Python floats *)
(* ====================================================================== *)

Lemma leb_refl a : not_nan a -> PrimFloat.leb a a = true.
Proof.
  intros Ha. apply (leb_key Ha Ha).
  destruct (fkey a) as [[a1 a2] a3]. unfold lex_le. lia.
Qed.

Lemma leb_trans a b c :
  PrimFloat.leb a b = true -> PrimFloat.leb b c = true -> PrimFloat.leb a c = true.
Proof.
  intros H1 H2. destruct (leb_not_nan H1) as [Ha Hb]. destruct (leb_not_nan H2) as [_ Hc].
  apply (leb_key Ha Hb) in H1. apply (leb_key Hb Hc) in H2. apply (leb_key Ha Hc).
  destruct (fkey a) as [[a1 a2] a3], (fkey b) as [[b1 b2] b3], (fkey c) as [[c1 c2] c3].
  unfold lex_le in *. lia.
Qed.

Lemma ltb_leb a b : PrimFloat.ltb a b = true -> PrimFloat.leb a b = true.
Proof.
  intros H. destruct (ltb_not_nan H) as [Ha Hb].
  apply (ltb_key Ha Hb) in H. apply (leb_key Ha Hb).
  destruct (fkey a) as [[a1 a2] a3], (fkey b) as [[b1 b2] b3]. unfold lex_le, lex_lt in *. lia.
Qed.

Lemma ltb_leb_trans a b c :
  PrimFloat.ltb a b = true -> PrimFloat.leb b c = true -> PrimFloat.ltb a c = true.
Proof.
  intros H1 H2. destruct (ltb_not_nan H1) as [Ha Hb]. destruct (leb_not_nan H2) as [_ Hc].
  apply (ltb_key Ha Hb) in H1. apply (leb_key Hb Hc) in H2. apply (ltb_key Ha Hc).
  destruct (fkey a) as [[a1 a2] a3], (fkey b) as [[b1 b2] b3], (fkey c) as [[c1 c2] c3].
  unfold lex_le, lex_lt in *. lia.
Qed.

Lemma ltb_trans a b c :
  PrimFloat.ltb a b = true -> PrimFloat.ltb b c = true -> PrimFloat.ltb a c = true.
Proof. intros H1 H2. eapply ltb_leb_trans; [exact H1 | apply ltb_leb; exact H2]. Qed.

Lemma not_ltb_leb a b :
  not_nan a -> not_nan b -> PrimFloat.ltb a b = false -> PrimFloat.leb b a = true.
Proof. intros Ha Hb H. apply (leb_key Hb Ha). apply (ltb_false_key Ha Hb). exact H. Qed.

(** Nothing is above [+inf]. *)
Lemma ltb_infinity a : PrimFloat.ltb infinity a = false.
Proof.
  rewrite ltb_spec. change (Prim2SF infinity) with (S754_infinity false).
  unfold SFltb. destruct (Prim2SF a) as [s|s| |s m e]; try reflexivity; destruct s; reflexivity.
Qed.

Lemma ltb_nan_l a b : PrimFloat.is_nan a = true -> PrimFloat.ltb a b = false.
Proof.
  intros H. destruct (PrimFloat.ltb a b) eqn:E; [|reflexivity].
  destruct (ltb_not_nan E) as [Ha _]. unfold not_nan in Ha. congruence.
Qed.

Lemma ltb_nan_r a b : PrimFloat.is_nan b = true -> PrimFloat.ltb a b = false.
Proof.
  intros H. destruct (PrimFloat.ltb a b) eqn:E; [|reflexivity].
  destruct (ltb_not_nan E) as [_ Hb]. unfold not_nan in Hb. congruence.
Qed.

(** The distance to a census at [+inf], for a positive speed and a time
    before [+inf], is [+inf]. *)
Lemma census_distance_infinity v t :
  PrimFloat.ltb 0 v = true -> PrimFloat.ltb t infinity = true ->
  (v * (infinity - t))%float = infinity.
Proof.
  intros Hv Ht. apply Prim2SF_inj.
  rewrite mul_spec, sub_spec. change (Prim2SF infinity) with (S754_infinity false).
  rewrite ltb_spec in Hv, Ht.
  change (Prim2SF infinity) with (S754_infinity false) in Ht.
  change (Prim2SF 0) with (S754_zero false) in Hv.
  unfold SFltb in *.
  destruct (Prim2SF t) as [s|s| |s m e]; try discriminate;
    try (destruct s; try discriminate);
    destruct (Prim2SF v) as [s'|s'| |s' m' e']; try discriminate;
    try (destruct s'; try discriminate); reflexivity.
Qed.

(* ====================================================================== *)
(** * Nearest surface and group sampling *)
(* ====================================================================== *)

Lemma nearest_surface_spec surfs : forall P Sn0 d0 Sn d,
  not_nan d0 ->
  Forall (fun s => not_nan (dist_to P s)) surfs ->
  nearest_surface surfs P Sn0 d0 = (Sn, d) ->
  PrimFloat.leb d d0 = true
  /\ Forall (fun s => PrimFloat.leb d (dist_to P s) = true) surfs
  /\ ((Sn = Sn0 /\ d = d0)
      \/ exists before surf after,
           surfs = before ++ surf :: after /\ Sn = Some surf /\ d = dist_to P surf
           /\ PrimFloat.ltb d d0 = true
           /\ Forall (fun s => PrimFloat.ltb d (dist_to P s) = true) before).
Proof.
  induction surfs as [|s rest IH]; intros P Sn0 d0 Sn d Hd0 Hall H; cbn [nearest_surface] in H.
  - injection H as <- <-. split; [apply leb_refl; exact Hd0|]. split; [constructor|]. left. auto.
  - inversion Hall as [|? ? Hs Hrest]; subst.
    fold (dist_to P s) in H.
    destruct (PrimFloat.ltb (dist_to P s) d0) eqn:E.
    + apply IH in H; [|exact Hs|exact Hrest].
      destruct H as (L & F & K).
      split; [eapply leb_trans; [exact L | apply ltb_leb; exact E]|].
      split; [constructor; assumption|].
      right. destruct K as [(-> & ->) | (before & surf & after & -> & -> & -> & Lt & Fb)].
      * exists [], s, rest. repeat split; auto.
      * exists (s :: before), surf, after. repeat split; auto.
        all: first [eapply ltb_trans; eassumption | constructor; assumption].
    + apply IH in H; [|exact Hd0|exact Hrest].
      destruct H as (L & F & K).
      assert (L0 : PrimFloat.leb d0 (dist_to P s) = true) by (apply not_ltb_leb; assumption).
      split; [exact L|].
      split; [constructor; [eapply leb_trans; eassumption | exact F]|].
      destruct K as [(-> & ->) | (before & surf & after & -> & -> & -> & Lt & Fb)].
      * left. auto.
      * right. exists (s :: before), surf, after. repeat split; auto.
        constructor; [eapply ltb_leb_trans; eassumption | exact Fb].
Qed.

(** X1: [surface_distance] returns the least of the distances to the
    surfaces of the particle's cell, with the first surface that attains it;
    it returns no surface, and the distance [inf], exactly when no surface
    is nearer than [inf]. *)
Theorem surface_distance_nearest (P : Particle) (C : Cell) :
  cell P = Some C ->
  Forall (fun s => not_nan (dist_to P s)) (surfaces C) ->
  exists Sn d,
    surface_distance P = Ret (Sn, d)
    /\ Forall (fun s => PrimFloat.leb d (dist_to P s) = true) (surfaces C)
    /\ match Sn with
       | None =>
           d = infinity
           /\ Forall (fun s => PrimFloat.ltb (dist_to P s) infinity = false) (surfaces C)
       | Some surf =>
           d = dist_to P surf /\ PrimFloat.ltb d infinity = true
           /\ exists before after,
                surfaces C = before ++ surf :: after
                /\ Forall (fun s => PrimFloat.ltb d (dist_to P s) = true) before
       end.
Proof.
  intros HC Hall. unfold surface_distance. rewrite HC. cbn [attr bind].
  destruct (nearest_surface (surfaces C) P None infinity) as [Sn d] eqn:E.
  exists Sn, d. split; [reflexivity|].
  apply nearest_surface_spec in E; [|unfold not_nan; reflexivity|exact Hall].
  destruct E as (L & F & K). split; [exact F|].
  destruct K as [(-> & ->) | (before & surf & after & E1 & -> & -> & Lt & Fb)].
  - split; [reflexivity|].
    eapply Forall_impl; [|exact F]. cbv beta. intros s Hs.
    destruct (PrimFloat.ltb (dist_to P s) infinity) eqn:E; [|reflexivity].
    pose proof (ltb_leb_trans E Hs) as K. revert K.
    (* nothing is below itself *)
    destruct (ltb_not_nan E) as [Ha _].
    intros K. apply (ltb_key Ha Ha) in K.
    destruct (fkey (dist_to P s)) as [[a b] c]. unfold lex_lt in K. lia.
  - split; [reflexivity|]. split; [exact Lt|]. exists before, after. auto.
Qed.

(** X2: the loop that samples the outgoing group returns the first group
    whose running total of the transfer row exceeds [xi]; when no running
    total does, it returns the last group. *)
Theorem sample_group_first_exceeding (row : list float) (xi : float) :
  row <> [] ->
  let totals := running_totals 0 row in
  exists g_out,
    sample_group row xi = Ret g_out
    /\ (g_out < length row)%nat
    /\ (forall j t, (j < g_out)%nat -> nth_error totals j = Some t -> fgt t xi = false)
    /\ ((exists t, nth_error totals g_out = Some t /\ fgt t xi = true)
        \/ (S g_out = length row /\ Forall (fun t => fgt t xi = false) totals)).
Proof.
  intros Hne totals. exists (sample_group_from row 0 xi 0).
  split; [destruct row; [congruence | reflexivity]|].
  apply (sample_group_from_first xi Hne).
Qed.


(* ====================================================================== *)
(** * What tracking a particle keeps *)
(* ====================================================================== *)

Section Tracking.
Context {np : NumPy}.

(** X3: a scattering collision that returns has taken exactly three
    draws; the particle has the group its first draw selects over the
    transfer row of the incoming group, a position of that row, and apart
    from the group and the direction it is unchanged.  An empty transfer
    row raises NameError. *)
Theorem collision_scattering_spec (sim : Simulator) (P : Particle) (C : Cell)
    (row : list float) (sS : float) :
  cell P = Some C ->
  nth_error (SigmaS_diff (material C)) (g P) = Some row ->
  nth_error (SigmaS (material C)) (g P) = Some sS ->
  let r := rng sim in
  let g_out := sample_group_from row 0%float (Random.stream r 0 * sS)%float 0 in
  (forall sim' P',
     collision_scattering sim P = Ret (sim', P') ->
     row <> []
     /\ sim' = set_rng sim (Random.advance r 3)
     /\ g P' = g_out /\ (g_out < length row)%nat
     /\ P' = set_dir (set_g P g_out) (dir P'))
  /\ (row = [] -> collision_scattering sim P = Raise NameError).
Proof.
  intros HC Hrow HsS r g_out. subst r g_out.
  apply index_ret in Hrow, HsS.
  unfold collision_scattering. rewrite HC. cbn [attr bind]. rewrite Hrow, HsS. cbn [bind].
  rewrite rng_draw_stream. split.
  - intros sim' P' H.
    assert (Hne : row <> []) by (intros ->; discriminate H).
    rewrite (sample_group_ret _ Hne) in H. cbn [bind] in H.
    rewrite rng_draw_stream in H. unfold scatter in H. rewrite rng_draw_stream in H.
    cbn [rng set_rng dir set_g] in H.
    rewrite (advance_add (rng sim) 1 1), (advance_add (rng sim) (1 + 1) 1) in H.
    injection H as <- <-.
    split; [exact Hne|]. split; [destruct sim; reflexivity|]. split; [reflexivity|].
    split; [|reflexivity].
    apply (sample_group_from_first (Random.stream (rng sim) 0 * sS)%float Hne).
  - intros ->. reflexivity.
Qed.

Lemma identity_collision sim P sim' P' :
  collision sim P = Ret (sim', P') ->
  wgt P' = wgt P /\ time_idx P' = time_idx P /\ pos P' = pos P /\ time P' = time P
  /\ cell P' = cell P.
Proof.
  unfold collision. intros H. inv_ret.
  destruct (select_reaction _ _ _).
  - unfold collision_scattering, scatter in H. inv_ret. repeat split.
  - apply frame_collision_fission in H. destruct H as (_ & ->). repeat split.
  - inv_ret. repeat split.
Qed.

Lemma identity_surface_hit sim P P' :
  surface_hit sim P = Ret P' ->
  wgt P' = wgt P /\ time_idx P' = time_idx P /\ g P' = g P.
Proof.
  unfold surface_hit. intros H. inv_ret.
  unfold apply_bc in H. destruct (Surface_bc _ _ _) as [d sv].
  destruct (alive _).
  - unfold set_cell in H. destruct (find _ _); inv_ret. repeat split.
  - inv_ret. repeat split.
Qed.

Lemma identity_census_event sim P sim' P' :
  census_event sim P = Ret (sim', P') ->
  wgt P' = wgt P /\ g P' = g P /\ cell P' = cell P /\ alive P' = false
  /\ exists idx,
       time_idx P = Some idx /\ time_idx P' = Some (idx + 1)%Z
       /\ sim' = (if (idx + 1 <? Z.of_nat (length (census_time sim)))%Z
                 then set_bank_stored sim
                        (bank_stored sim
                         ++ [create_copy
                               (set_time_idx_field (move_particle P (SMALL * speed P))
                                  (Some (idx + 1)%Z))])
                 else sim).
Proof.
  unfold census_event. intros H.
  change (time_idx (move_particle P (SMALL * speed P))) with (time_idx P) in H.
  destruct (time_idx P) as [idx|]; inv_ret.
  repeat split. exists idx. repeat split.
Qed.

Lemma wgt_perform_event sim P event Sn sim' P' :
  perform_event sim P event Sn = Ret (sim', P') -> wgt P' = wgt P.
Proof.
  destruct event; cbn [perform_event]; intros H.
  - apply identity_collision in H. tauto.
  - inv_ret. match goal with H : surface_hit _ _ = _ |- _ => apply identity_surface_hit in H end.
    tauto.
  - apply identity_census_event in H. tauto.
Qed.

Lemma wgt_track_step sim P sim' P' :
  track_step sim P = Ret (sim', P') -> wgt P' = wgt P.
Proof.
  unfold track_step. intros H. inv_ret.
  apply wgt_perform_event in H. rewrite H. reflexivity.
Qed.

Lemma wgt_loop_particle_body sim P sim' P' :
  loop_particle_body sim P = Ret (sim', P') -> wgt P' = wgt P.
Proof.
  unfold loop_particle_body. intros H. inv_ret.
  match goal with H : track_step _ _ = _ |- _ => apply wgt_track_step in H end.
  assumption.
Qed.

(** X5: the particle loop returns dead particles only, never changes the
    weight of the particle it tracks, leaves the setup of the simulator
    alone, and does nothing to a particle that is already dead. *)
Theorem loop_particle_returns_dead (fuel : nat) (sim : Simulator) (P : Particle)
    (sim' : Simulator) (P' : Particle) :
  loop_particle fuel sim P = Ret (sim', P') ->
  alive P' = false /\ wgt P' = wgt P /\ setup sim' = setup sim
  /\ (alive P = false -> sim' = sim /\ P' = P).
Proof.
  revert sim P. induction fuel as [|fuel IH]; intros sim P H; cbn [loop_particle] in H;
    destruct (alive P) eqn:EA; inv_ret; try (repeat split; auto; discriminate).
  match goal with H : loop_particle_body _ _ = _ |- _ =>
    pose proof (wgt_loop_particle_body _ _ H); apply frame_loop_particle_body in H end.
  apply IH in H. destruct H as (H1 & H2 & H3 & _).
  split; [exact H1|]. split; [congruence|]. split; [congruence|]. discriminate.
Qed.

End Tracking.

Lemma find_split (A : Type) (f : A -> bool) (l : list A) (a : A) :
  find f l = Some a ->
  exists before after,
    l = before ++ a :: after /\ f a = true /\ (forall c, In c before -> f c = false).
Proof.
  induction l as [|x l IH]; cbn [find]; [discriminate|].
  destruct (f x) eqn:E.
  - intros H. injection H as <-. exists [], l. repeat split; auto. intros c [].
  - intros H. destruct (IH H) as (before & after & -> & Ha & Hb).
    exists (x :: before), after. repeat split; auto.
    intros c [<-|Hc]; auto.
Qed.

(** X4: [set_cell] gives the particle the first cell of the list that
    contains its position and changes nothing else; it is fatal, with the
    position as diagnostic, exactly when no cell contains the position, and
    it never raises. *)
Theorem set_cell_first_match (sim : Simulator) (P : Particle) :
  (forall P',
     set_cell sim P = Ret P' ->
     exists C before after,
       cells sim = before ++ C :: after
       /\ test_point C (pos P) = true
       /\ (forall c, In c before -> test_point c (pos P) = false)
       /\ P' = set_cell_field P (Some C))
  /\ (forall p,
        set_cell sim P = Lost p ->
        p = pos P /\ forall c, In c (cells sim) -> test_point c (pos P) = false)
  /\ (forall e, set_cell sim P <> Raise e)
  /\ set_cell sim P <> OutOfFuel.
Proof.
  unfold set_cell.
  destruct (find (fun cell => test_point cell (pos P)) (cells sim)) as [C|] eqn:E.
  - split; [|repeat split; intros; discriminate].
    intros P' H. injection H as <-.
    destruct (find_split _ _ E) as (before & after & E1 & E2 & E3).
    exists C, before, after. auto.
  - split; [intros P' H; discriminate|].
    split; [|split; intros; discriminate].
    intros p H. injection H as <-. split; [reflexivity|].
    intros c Hc. exact (List.find_none _ _ E c Hc).
Qed.

Section CollisionFrame.
Context {np : NumPy}.

(** X16: a collision changes at most the direction, the group and the
    alive flag of the particle: position, time, weight, cell and census
    index are kept, a collision that kills keeps direction and group as
    well, and the setup and the accumulator of the simulator are
    untouched. *)
Theorem collision_changes_direction_group_alive_only (sim : Simulator) (P : Particle)
    (sim' : Simulator) (P' : Particle) :
  collision sim P = Ret (sim', P') ->
  pos P' = pos P /\ time P' = time P /\ wgt P' = wgt P /\ cell P' = cell P
  /\ time_idx P' = time_idx P
  /\ (alive P' = alive P \/ (alive P' = false /\ dir P' = dir P /\ g P' = g P))
  /\ setup sim' = setup sim /\ nuSigmaF_sum sim' = nuSigmaF_sum sim.
Proof.
  intros H. pose proof (identity_collision _ _ H) as (W & T & Po & Ti & Ce).
  pose proof (frame_collision _ _ H) as (Hp & _). apply pushes_setup in Hp.
  repeat split; try tauto.
  unfold collision in H. inv_ret. destruct (select_reaction _ _ _).
  - left. unfold collision_scattering, scatter in H. inv_ret. reflexivity.
  - right. apply frame_collision_fission in H. destruct H as (_ & ->). repeat split.
  - right. inv_ret. repeat split.
Qed.

End CollisionFrame.

(* ====================================================================== *)
(** * The stored bank in fixed-source mode *)
(* ====================================================================== *)

Section FixedSource.
Context {np : NumPy}.

Lemma stored_push_fission_neutrons N : forall sim P row sF sim',
  bank_fission sim = Some BankHistory ->
  push_fission_neutrons N sim P row sF = Ret sim' ->
  bank_stored sim' = bank_stored sim.
Proof.
  induction N as [|N IH]; intros sim P row sF sim' Hb H; cbn [push_fission_neutrons] in H.
  - inv_ret. reflexivity.
  - inv_ret.
    match goal with H : rng_draw _ = _ |- _ =>
      apply only_rng_draw, only_rng_fields in H; destruct H as (_ & S1 & _ & F1 & _) end.
    match goal with H : isotropic_dir_sample _ = _ |- _ =>
      apply only_rng_isotropic, only_rng_fields in H; destruct H as (_ & S2 & _ & F2 & _) end.
    match goal with H : bank_fission_append ?s _ = _ |- _ =>
      assert (F3 : bank_fission s = Some BankHistory) by congruence;
      unfold bank_fission_append in H; rewrite F3 in H end.
    inv_ret. apply IH in H; [|exact F3]. rewrite H. cbn [bank_stored set_bank_history].
    congruence.
Qed.

Lemma stored_collision sim P sim' P' :
  bank_fission sim = Some BankHistory ->
  collision sim P = Ret (sim', P') -> bank_stored sim' = bank_stored sim.
Proof.
  unfold collision. intros Hb H. inv_ret.
  match goal with H : rng_draw _ = _ |- _ =>
    apply only_rng_draw, only_rng_fields in H; destruct H as (_ & S1 & _ & F1 & _) end.
  destruct (select_reaction _ _ _).
  - apply frame_collision_scattering in H. destruct H as (H & _).
    apply only_rng_fields in H. destruct H as (_ & S2 & _). congruence.
  - unfold collision_fission in H. inv_ret.
    match goal with H : rng_draw _ = _ |- _ =>
      apply only_rng_draw, only_rng_fields in H; destruct H as (_ & S2 & _ & F2 & _) end.
    match goal with H : push_fission_neutrons _ _ _ _ _ = _ |- _ =>
      apply stored_push_fission_neutrons in H; [|congruence] end.
    congruence.
  - inv_ret. exact S1.
Qed.

Lemma stored_perform_event sim P event Sn sim' P' :
  bank_fission sim = Some BankHistory ->
  perform_event sim P event Sn = Ret (sim', P') ->
  wgt P' = wgt P
  /\ ((bank_stored sim' = bank_stored sim /\ (time_idx P' = time_idx P \/ alive P' = false))
      \/ (alive P' = false
          /\ exists Q idx,
               bank_stored sim' = bank_stored sim ++ [Q]
               /\ time_idx P = Some idx /\ time_idx Q = Some (idx + 1)%Z
               /\ (idx + 1 < Z.of_nat (length (census_time sim)))%Z
               /\ wgt Q = wgt P /\ alive Q = alive P /\ g Q = g P /\ cell Q = cell P)).
Proof.
  intros Hb H. split; [eapply wgt_perform_event; eassumption|].
  destruct event; cbn [perform_event] in H.
  - left. split; [eapply stored_collision; eassumption|].
    apply identity_collision in H. tauto.
  - left. inv_ret. split; [reflexivity|].
    match goal with H : surface_hit _ _ = _ |- _ => apply identity_surface_hit in H end.
    tauto.
  - apply identity_census_event in H.
    destruct H as (W & G & Cc & A & idx & I & I' & ->).
    destruct (Z.ltb_spec (idx + 1) (Z.of_nat (length (census_time sim)))) as [L|L].
    + right. split; [exact A|]. eexists. exists idx. split; [reflexivity|].
      split; [exact I|]. repeat split. exact L.
    + left. auto.
Qed.

Lemma stored_loop_particle_body sim P sim' P' :
  bank_fission sim = Some BankHistory ->
  loop_particle_body sim P = Ret (sim', P') ->
  wgt P' = wgt P
  /\ ((bank_stored sim' = bank_stored sim /\ (time_idx P' = time_idx P \/ alive P' = false))
      \/ (alive P' = false
          /\ exists Q idx,
               bank_stored sim' = bank_stored sim ++ [Q]
               /\ time_idx P = Some idx /\ time_idx Q = Some (idx + 1)%Z
               /\ (idx + 1 < Z.of_nat (length (census_time sim)))%Z
               /\ wgt Q = wgt P /\ alive Q = alive P /\ g Q = g P /\ cell Q = cell P)).
Proof.
  unfold loop_particle_body, track_step. intros Hb H. inv_ret.
  match goal with H : get_collision_distance _ _ = _ |- _ =>
    apply only_rng_collision_distance in H;
    pose proof (only_rng_setup H) as Hs; apply only_rng_fields in H;
    destruct H as (_ & S1 & _ & F1 & _) end.
  match goal with H : score_eigenvalue _ _ = _ |- _ =>
    apply frame_score_eigenvalue in H; destruct H as (_ & S2 & _) end.
  match goal with H : perform_event _ _ _ _ = _ |- _ =>
    apply stored_perform_event in H; [|congruence] end.
  apply (f_equal census_time) in Hs. cbn in Hs.
  rewrite S2.
  match goal with H : wgt _ = _ /\ _ |- _ => rewrite S1, Hs in H; exact H end.
Qed.

Lemma loop_particle_dead fuel sim P :
  alive P = false -> loop_particle fuel sim P = Ret (sim, P).
Proof. intros H. destruct fuel; cbn [loop_particle]; rewrite H; reflexivity. Qed.

(** X7: in fixed-source mode, where fission neutrons go to the history
    bank, tracking one particle appends at most one particle to the stored
    bank: the census copy, alive, with the weight of the tracked particle
    and the next census index, which is a position of [census_time]. *)
Theorem fixed_source_stores_census_copy (fuel : nat) (sim : Simulator) (P : Particle)
    (sim' : Simulator) (P' : Particle) :
  bank_fission sim = Some BankHistory ->
  loop_particle fuel sim P = Ret (sim', P') ->
  bank_stored sim' = bank_stored sim
  \/ exists Q idx,
       bank_stored sim' = bank_stored sim ++ [Q]
       /\ time_idx P = Some idx /\ time_idx Q = Some (idx + 1)%Z
       /\ (idx + 1 < Z.of_nat (length (census_time sim)))%Z
       /\ wgt Q = wgt P /\ alive Q = true.
Proof.
  revert sim P. induction fuel as [|fuel IH]; intros sim P Hb H; cbn [loop_particle] in H;
    destruct (alive P) eqn:EA; inv_ret; try (left; reflexivity).
  match goal with H : loop_particle_body _ _ = _ |- _ =>
    pose proof (frame_loop_particle_body _ _ H) as Hs;
    apply stored_loop_particle_body in H; [|exact Hb];
    destruct H as (W & [(S1 & [T | A]) | (A & Q & idx & S1 & T & TQ & L & WQ & AQ & _)]) end.
  - apply IH in H; [|rewrite (setup_bank_fission Hs); exact Hb].
    apply (f_equal census_time) in Hs. cbn in Hs.
    rewrite S1, T, W, Hs in H. exact H.
  - rewrite (@loop_particle_dead fuel s p A) in H. inv_ret. left. exact S1.
  - rewrite (@loop_particle_dead fuel s p A) in H. inv_ret. right.
    exists Q, idx. repeat split; auto. congruence.
Qed.

End FixedSource.

(* ====================================================================== *)
(** * Events at infinity and the history loop *)
(* ====================================================================== *)

Lemma choose_event_census_infinity d_coll d_surf :
  fst (choose_event d_coll d_surf infinity) <> EVENT_CENSUS.
Proof.
  unfold choose_event, fgt. destruct (PrimFloat.ltb d_surf d_coll);
    rewrite ltb_infinity; discriminate.
Qed.

(** X8: event selection with distances that are not numbers or infinite:
    a NaN collision distance always wins, a NaN surface distance never
    does, and a census distance that is NaN or [INF] never does. *)
Theorem choose_event_nan_and_infinity (d_coll d_surf d_census : float) :
  (PrimFloat.is_nan d_coll = true ->
   choose_event d_coll d_surf d_census = (EVENT_COLLISION, d_coll))
  /\ (PrimFloat.is_nan d_surf = true ->
      fst (choose_event d_coll d_surf d_census) <> EVENT_SURFACE)
  /\ (PrimFloat.is_nan d_census = true \/ d_census = INF ->
      fst (choose_event d_coll d_surf d_census) <> EVENT_CENSUS).
Proof.
  unfold choose_event, fgt. repeat split.
  - intros H. rewrite (@ltb_nan_r d_surf d_coll H), (@ltb_nan_r d_census d_coll H). reflexivity.
  - intros H. rewrite (@ltb_nan_l d_surf d_coll H).
    destruct (PrimFloat.ltb d_census d_coll); discriminate.
  - intros [H | ->].
    + destruct (PrimFloat.ltb d_surf d_coll); rewrite (@ltb_nan_l d_census _ H); discriminate.
    + unfold INF. destruct (PrimFloat.ltb d_surf d_coll); rewrite ltb_infinity; discriminate.
Qed.

Section CensusAtInfinity.
Context {np : NumPy}.

(** X9: with the single census at [INF] of eigenvalue mode, a particle
    with a positive speed and a time before [inf] has the census distance
    [INF], so a pass of the particle loop performs no census: the census
    index stays 0. *)
Theorem no_census_at_infinity (sim : Simulator) (P : Particle) (v : float)
    (sim' : Simulator) (P' : Particle) :
  census_time sim = [INF] -> time_idx P = Some 0%Z ->
  nth_error (speeds sim) (g P) = Some v ->
  PrimFloat.ltb 0 v = true -> PrimFloat.ltb (time P) infinity = true ->
  track_step sim P = Ret (sim', P') ->
  (v * (INF - time P))%float = INF /\ time_idx P' = Some 0%Z.
Proof.
  intros Hc Hi Hv Hpos Hfin H.
  split; [apply census_distance_infinity; assumption|].
  unfold track_step in H. inv_ret.
  match goal with H : index (speeds sim) _ = _ |- _ =>
    apply index_ret in H; change (g (save_previous_state P)) with (g P) in H;
    rewrite Hv in H; injection H as <- end.
  match goal with H : get_collision_distance _ _ = _ |- _ =>
    apply only_rng_collision_distance, only_rng_setup in H;
    apply (f_equal census_time) in H; cbn in H; rewrite Hc in H end.
  match goal with H : match time_idx _ with Some _ => _ | None => _ end = _ |- _ =>
    change (time_idx (set_speed (save_previous_state P) v)) with (time_idx P) in H;
    rewrite Hi in H; injection H as <- end.
  match goal with H : py_index (census_time ?s) _ = _, K : census_time ?s = _ |- _ =>
    rewrite K in H; cbn in H; injection H as <- end.
  match goal with H : choose_event ?a ?b ?d = _ |- _ =>
    assert (K : fst (choose_event a b d) <> EVENT_CENSUS)
      by (change d with (v * (infinity - time P))%float;
          rewrite (census_distance_infinity Hpos Hfin); apply choose_event_census_infinity);
    rewrite H in K; cbn [fst] in K end.
  destruct e; [| |congruence]; cbn [perform_event] in H.
  - apply identity_collision in H. destruct H as (_ & -> & _). exact Hi.
  - inv_ret. match goal with H : surface_hit _ _ = _ |- _ => apply identity_surface_hit in H end.
    match goal with H : _ /\ time_idx _ = _ /\ _ |- _ => destruct H as (_ & -> & _) end.
    exact Hi.
Qed.

(** X6: the history loop returns with an empty history bank and an
    unchanged setup; on an empty bank it does nothing. *)
Theorem loop_history_drains_bank (fuel : nat) (sim sim' : Simulator) :
  loop_history fuel sim = Ret sim' ->
  bank_history sim' = [] /\ setup sim' = setup sim
  /\ (bank_history sim = [] -> sim' = sim).
Proof.
  intros H. split; [eapply loop_history_empties; eassumption|].
  split; [eapply frame_loop_history; eassumption|].
  intros E. destruct fuel; cbn [loop_history] in H; rewrite E in H; cbn in H; congruence.
Qed.

End CensusAtInfinity.

(* ====================================================================== *)
(** * Source particles *)
(* ====================================================================== *)

Lemma select_source_spec srcs : forall tot xi,
  let totals := running_totals tot (map prob srcs) in
  match select_source srcs tot xi with
  | None => Forall (fun t => PrimFloat.ltb xi t = false) totals
  | Some s =>
      exists before after t,
        srcs = before ++ s :: after
        /\ nth_error totals (length before) = Some t /\ PrimFloat.ltb xi t = true
        /\ Forall (fun t => PrimFloat.ltb xi t = false) (firstn (length before) totals)
  end.
Proof.
  induction srcs as [|s rest IH]; intros tot xi; cbn [select_source map running_totals].
  - constructor.
  - destruct (PrimFloat.ltb xi (tot + prob s)) eqn:E.
    + exists [], rest, (tot + prob s)%float. repeat split; auto.
    + specialize (IH (tot + prob s)%float xi). cbv zeta in IH.
      destruct (select_source rest (tot + prob s) xi) as [s'|].
      * destruct IH as (before & after & t & -> & Hn & Ht & Hf).
        exists (s :: before), after, t. repeat split; auto.
        cbn [length firstn]. constructor; assumption.
      * constructor; assumption.
Qed.

Lemma select_source_none srcs tot xi :
  Forall (fun t => PrimFloat.ltb xi t = false) (running_totals tot (map prob srcs)) ->
  select_source srcs tot xi = None.
Proof.
  revert tot. induction srcs as [|s rest IH]; intros tot H; cbn [select_source]; [reflexivity|].
  cbn [map running_totals] in H. inversion H as [|? ? H1 H2]; subst.
  rewrite H1. apply IH. exact H2.
Qed.

Section Sources.
Context {np : NumPy}.

(** X11: with an empty source bank the source is selected by one draw: it
    is the first source whose running total of probabilities exceeds the
    draw, and the particle pushed to the history bank has the position,
    direction, group, time and weight its sampler returned; when no running
    total exceeds the draw the call raises AttributeError. *)
Theorem source_selection (sim : Simulator) (i : nat) :
  bank_source sim = [] ->
  let xi := Random.stream (rng sim) 0 in
  let totals := running_totals 0%float (map prob (sources sim)) in
  (Forall (fun t => PrimFloat.ltb xi t = false) totals ->
   get_source_particle sim i = Raise AttributeError)
  /\ (forall sim',
        get_source_particle sim i = Ret sim' ->
        exists before s after t P,
          sources sim = before ++ s :: after
          /\ nth_error totals (length before) = Some t /\ PrimFloat.ltb xi t = true
          /\ Forall (fun t => PrimFloat.ltb xi t = false) (firstn (length before) totals)
          /\ bank_history sim' = bank_history sim ++ [P]
          /\ bank_stored sim' = bank_stored sim
          /\ (let P0 := fst (get_particle s (Random.stream (Random.advance (rng sim) 1))) in
              pos P = pos P0 /\ dir P = dir P0 /\ g P = g P0 /\ time P = time P0
              /\ wgt P = wgt P0)).
Proof.
  intros Hb xi totals. unfold get_source_particle. rewrite Hb, rng_draw_stream.
  cbn [sources set_rng rng]. fold xi. split.
  - intros H. rewrite (select_source_none _ _ H). reflexivity.
  - intros sim' H. inv_ret.
    match goal with H : attr _ = Ret ?s |- _ => apply attr_ret in H; rename s into src;
      pose proof (select_source_spec (sources sim) 0%float xi) as K; rewrite H in K;
      destruct K as (before & after & t & E1 & E2 & E3 & E4) end.
    exists before, src, after, t.
    match goal with |- context [bank_history sim ++ [?p]] => exists p end.
    split; [exact E1|]. split; [exact E2|]. split; [exact E3|]. split; [exact E4|].
    split; [reflexivity|]. split; [reflexivity|].
    match goal with E : get_particle src _ = (?p, _) |- _ =>
      rewrite E; cbn [fst]; rename p into P0 end.
    cbv zeta.
    assert (K1 : pos a0 = pos P0 /\ dir a0 = dir P0 /\ g a0 = g P0 /\ time a0 = time P0
                 /\ wgt a0 = wgt P0).
    { destruct (cell P0); [inv_ret; repeat split|].
      match goal with H : set_cell _ _ = _ |- _ =>
        unfold set_cell in H; destruct (find _ _); inv_ret end. repeat split. }
    assert (K2 : forall s Q Q', set_time_idx s Q = Ret Q' ->
                 pos Q' = pos Q /\ dir Q' = dir Q /\ g Q' = g Q /\ time Q' = time Q
                 /\ wgt Q' = wgt Q).
    { intros s Q Q' HQ. unfold set_time_idx in HQ.
      destruct (_ =? _)%Z; inv_ret; [repeat split|].
      destruct (PrimFloat.eqb _ _); inv_ret; repeat split. }
    destruct K1 as (<- & <- & <- & <- & <-).
    destruct (time_idx a0) as [[| |]|]; inv_ret; eauto; repeat split.
Qed.

Lemma history_start_bank_source fuel sim i s :
  history_start fuel sim i = Ret s -> bank_source s = bank_source sim.
Proof.
  unfold history_start. intros H. inv_ret.
  match goal with H : loop_source_from _ _ _ _ = _ |- _ =>
    apply frame_loop_source_from, (f_equal bank_source) in H; cbn in H end.
  assumption.
Qed.

(** X10: with a non-empty source bank the source loop pushes
    [bank_source[i]] as it is, without a draw; when the bank holds fewer
    particles than the rank has histories the source loop never returns:
    the pass of index [len(bank_source)] raises IndexError. *)
Theorem source_bank_too_short (fuel : nat) (sim : Simulator) :
  bank_source sim <> [] ->
  (length (bank_source sim) < Z.to_nat (Mpi.work_size (mpi sim)))%nat ->
  (forall i Q,
     nth_error (bank_source sim) i = Some Q ->
     get_source_particle sim i = Ret (set_bank_history sim (bank_history sim ++ [Q])))
  /\ (forall s', loop_source fuel sim <> Ret s')
  /\ (forall s,
        history_start fuel sim (length (bank_source sim)) = Ret s ->
        loop_source fuel sim = Raise IndexError).
Proof.
  intros Hne Hlt.
  assert (K : forall s, history_start fuel sim (length (bank_source sim)) = Ret s ->
                        get_source_particle s (length (bank_source sim)) = Raise IndexError).
  { intros s Hs. apply history_start_bank_source in Hs.
    unfold get_source_particle. rewrite Hs.
    destruct (bank_source sim) as [|q qs] eqn:E; [congruence|].
    unfold index. rewrite (proj2 (nth_error_None _ _)); [reflexivity | lia]. }
  split.
  { intros i Q HQ. unfold get_source_particle.
    destruct (bank_source sim) as [|q qs] eqn:E; [congruence|].
    unfold index. rewrite HQ. reflexivity. }
  rewrite (loop_source_runs_history fuel sim Hlt). split.
  - intros s' H. inv_ret.
    match goal with H : history_start _ _ _ = Ret _ |- _ => apply K in H end.
    congruence.
  - intros s Hs. rewrite Hs. cbn [bind]. rewrite (K s Hs). reflexivity.
Qed.

End Sources.

(* ====================================================================== *)
(** * The simulation loop *)
(* ====================================================================== *)

Lemma list_set_length (A : Type) (l : list A) : forall i v, length (list_set l i v) = length l.
Proof.
  induction l as [|a l IH]; intros [|i] v; cbn [list_set length]; auto.
Qed.

Lemma list_set_same (A : Type) (l : list A) : forall i v,
  (i < length l)%nat -> nth_error (list_set l i v) i = Some v.
Proof.
  induction l as [|a l IH]; intros [|i] v H; cbn [list_set length nth_error] in *;
    try lia; [reflexivity | apply IH; lia].
Qed.

Lemma list_set_other (A : Type) (l : list A) : forall i j v,
  j <> i -> nth_error (list_set l i v) j = nth_error l j.
Proof.
  induction l as [|a l IH]; intros [|i] [|j] v H; cbn [list_set nth_error] in *;
    try reflexivity; try congruence. apply IH. congruence.
Qed.

Section Iteration.
Context {np : NumPy} {mpi_ops : MpiOps} {pct_ops : PctOps}.

(** X12: the update of [k_eff] writes the new value into [k_mean[i_iter]]
    on the master and leaves the other entries and the length; on the
    master an iteration index beyond [k_mean] raises IndexError, and the
    other ranks write no [k_mean]. *)
Theorem update_k_eff_records (sim : Simulator) :
  let k := (allreduce (nuSigmaF_sum sim)
            / float_of_Z (Mpi.work_size_total (mpi sim)))%float in
  let n := Z.of_nat (length (k_mean sim)) in
  (Mpi.master (mpi sim) = false ->
   update_k_eff sim = Ret (set_nuSigmaF_sum (set_k_eff sim k) 0%float))
  /\ (Mpi.master (mpi sim) = true -> (0 <= i_iter sim < n)%Z ->
      exists sim',
        update_k_eff sim = Ret sim'
        /\ k_eff sim' = k /\ i_iter sim' = i_iter sim
        /\ length (k_mean sim') = length (k_mean sim)
        /\ nth_error (k_mean sim') (Z.to_nat (i_iter sim)) = Some k
        /\ forall j, j <> Z.to_nat (i_iter sim) ->
             nth_error (k_mean sim') j = nth_error (k_mean sim) j)
  /\ (Mpi.master (mpi sim) = true -> (n <= i_iter sim)%Z ->
      update_k_eff sim = Raise IndexError).
Proof.
  intros k n. unfold update_k_eff. fold k. cbn [mpi set_k_eff k_mean i_iter k_eff].
  split; [|split].
  - intros ->. reflexivity.
  - intros -> Hi. unfold py_setitem. fold n.
    destruct (Z.leb_spec 0 (i_iter sim)); [|lia].
    destruct (Z.ltb_spec (i_iter sim) n); [|lia].
    cbn [bind]. eexists. split; [reflexivity|]. cbn.
    split; [reflexivity|]. split; [reflexivity|].
    split; [apply list_set_length|].
    split; [apply list_set_same; lia|].
    intros j Hj. apply list_set_other. exact Hj.
  - intros -> Hi. unfold py_setitem. fold n.
    destruct (Z.leb_spec 0 (i_iter sim)); [|lia].
    destruct (Z.ltb_spec (i_iter sim) n); [lia|]. reflexivity.
Qed.

Lemma loop_source_frame fuel s s1 :
  loop_source fuel s = Ret s1 ->
  setup s1 = setup (loop_source_entry s).
Proof. unfold loop_source. intros H. apply frame_loop_source_from in H. exact H. Qed.

Lemma update_k_eff_fields s s' :
  update_k_eff s = Ret s' ->
  i_iter s' = i_iter s /\ N_iter s' = N_iter s /\ bank_stored s' = bank_stored s
  /\ mode_eigenvalue s' = mode_eigenvalue s /\ pct s' = pct s /\ N_hist s' = N_hist s.
Proof.
  unfold update_k_eff. intros H. inv_ret.
  match goal with H : (if Mpi.master _ then _ else _) = Ret _ |- _ =>
    destruct (Mpi.master _); inv_ret; repeat split end.
Qed.

Lemma manage_banks_stored sim :
  bank_stored (manage_banks sim) = []
  /\ i_iter (manage_banks sim) = i_iter sim /\ N_iter (manage_banks sim) = N_iter sim.
Proof.
  unfold manage_banks. destruct (pct_call _ _ _ _) as [bank n].
  destruct (mode_eigenvalue sim); repeat split.
Qed.

Lemma run_iteration_inv (fuel : nat) (s s' : Simulator) (simulation_end : bool) :
  run_iteration fuel s = Ret (s', simulation_end) ->
  bank_stored s' = []
  /\ (simulation_end = true -> bank_source s' = [])
  /\ (mode_eigenvalue s = true ->
      i_iter s' = (i_iter s + 1)%Z /\ N_iter s' = N_iter s
      /\ (simulation_end = true <-> (i_iter s + 1)%Z = N_iter s))
  /\ (mode_eigenvalue s = false ->
      exists s1,
        loop_source fuel (set_bank_fission s (Some BankHistory)) = Ret s1
        /\ (simulation_end = true <-> bank_stored s1 = [])
        /\ (simulation_end = true -> s' = set_bank_stored (set_bank_source s1 []) [])
        /\ (simulation_end = false -> s' = manage_banks s1)
        /\ i_iter s' = i_iter s /\ k_eff s' = k_eff s).
Proof.
  unfold run_iteration. intros H. inv_ret.
  rename a into s1, a0 into s2, s0 into s3.
  pose proof (loop_source_frame _ _ Ha) as F1.
  pose proof (f_equal mode_eigenvalue F1) as M1.
  pose proof (f_equal i_iter F1) as I1. pose proof (f_equal N_iter F1) as N1.
  pose proof (f_equal k_eff F1) as K1.
  cbn in M1, I1, N1, K1.
  destruct (mode_eigenvalue s) eqn:Em; rewrite M1 in *.
  - apply update_k_eff_fields in Ha0. destruct Ha0 as (I2 & N2 & B2 & M2 & _).
    rewrite M2, M1 in E. injection E as <- <-.
    cbn [i_iter N_iter set_i_iter] in H.
    destruct (i_iter s2 + 1 =? N_iter s2)%Z eqn:Eb; injection H as <- <-.
    1: assert (Ee : true = true <-> (i_iter s + 1)%Z = N_iter s)
         by (apply Z.eqb_eq in Eb; split; [intros _; congruence | reflexivity]).
    2: assert (Ee : false = true <-> (i_iter s + 1)%Z = N_iter s)
         by (apply Z.eqb_neq in Eb; split; [discriminate | intros Hc; congruence]).
    + cbn. split; [reflexivity|]. split; [reflexivity|]. split; [|discriminate].
      intros _. split; [congruence|]. split; [congruence|]. exact Ee.
    + destruct (manage_banks_stored (set_i_iter s2 (i_iter s2 + 1))) as (B & I & N).
      split; [exact B|]. split; [discriminate|]. split; [|discriminate].
      intros _. rewrite I, N. cbn. split; [congruence|]. split; [congruence|]. exact Ee.
  - injection Ha0 as <-. rewrite M1 in E. injection E as <- <-.
    destruct (bank_stored s1) as [|q qs] eqn:Eb; injection H as <- <-.
    1: assert (Ee : true = true <-> bank_stored s1 = []) by tauto.
    2: assert (Ee : false = true <-> bank_stored s1 = [])
         by (rewrite Eb; split; discriminate).
    + cbn. split; [reflexivity|]. split; [reflexivity|]. split; [discriminate|].
      intros _. exists s1. split; [exact Ha|]. split; [exact Ee|]. split; [reflexivity|].
      split; [discriminate|]. split; assumption.
    + destruct (manage_banks_stored s1) as (B & I & N).
      destruct (manage_banks_fields s1) as (K & _).
      split; [exact B|]. split; [discriminate|]. split; [discriminate|].
      intros _. exists s1. split; [exact Ha|]. split; [exact Ee|]. split; [discriminate|].
      split; [reflexivity|]. split; congruence.
Qed.

(** X13: a pass of the simulation loop in fixed-source mode ends the
    simulation exactly when the source loop left nothing in the stored
    bank; it empties both banks then, and otherwise hands the stored bank
    through population control to the source bank; it never changes
    [i_iter] or [k_eff]. *)
Theorem fixed_source_iteration (fuel : nat) (s s' : Simulator) (simulation_end : bool) :
  mode_eigenvalue s = false ->
  run_iteration fuel s = Ret (s', simulation_end) ->
  exists s1,
    loop_source fuel (set_bank_fission s (Some BankHistory)) = Ret s1
    /\ (simulation_end = true <-> bank_stored s1 = [])
    /\ (simulation_end = true -> s' = set_bank_stored (set_bank_source s1 []) [])
    /\ (simulation_end = false -> s' = manage_banks s1)
    /\ bank_stored s' = []
    /\ i_iter s' = i_iter s /\ k_eff s' = k_eff s.
Proof.
  intros Hm H. apply run_iteration_inv in H. destruct H as (B & _ & _ & H).
  destruct (H Hm) as (s1 & H1 & H2 & H3 & H4 & H5 & H6).
  exists s1. repeat split; auto; apply H2.
Qed.

Lemma run_setup_fields sim :
  mode_eigenvalue (run_setup sim) = mode_eigenvalue sim
  /\ i_iter (run_setup sim) = i_iter sim /\ N_iter (run_setup sim) = N_iter sim.
Proof. unfold run_setup. destruct (mode_eigenvalue sim) eqn:E; cbn; rewrite ?E; auto. Qed.

Lemma run_loop_inv fuel : forall s s',
  run_loop fuel s = Ret s' ->
  bank_stored s' = [] /\ bank_source s' = []
  /\ mode_eigenvalue s' = mode_eigenvalue s /\ census_time s' = census_time s
  /\ (mode_eigenvalue s = true -> i_iter s' = N_iter s /\ (i_iter s < i_iter s')%Z).
Proof.
  induction fuel as [|fuel IH]; intros s s' H; cbn [run_loop] in H; inv_ret.
  match goal with H : run_iteration _ _ = Ret (?a, ?e) |- _ =>
    rename a into s1; rename e into fin;
    pose proof (run_iteration_mode _ _ H) as (M1 & C1);
    apply run_iteration_inv in H; destruct H as (B1 & S1 & E1 & _) end.
  destruct fin.
  - inv_ret. split; [exact B1|]. split; [auto|]. split; [exact M1|]. split; [exact C1|].
    intros Hm. destruct (E1 Hm) as (I & N & Ee). split; [|lia].
    rewrite I. apply Ee. reflexivity.
  - apply IH in H. destruct H as (B & S & M & C & Eg).
    split; [exact B|]. split; [exact S|]. split; [congruence|]. split; [congruence|].
    intros Hm. destruct (E1 Hm) as (I & N & _).
    destruct (Eg ltac:(congruence)) as (I' & L). split; [congruence | lia].
Qed.

(** X14: when [run] returns, the stored and the source bank are empty; in
    eigenvalue mode [i_iter] has then reached [N_iter], it was below
    [N_iter] when [run] was called, and the census times are [[INF]]. *)
Theorem run_ends_with_empty_banks (fuel : nat) (sim s' : Simulator) :
  run fuel sim = Ret s' ->
  bank_stored s' = [] /\ bank_source s' = []
  /\ mode_eigenvalue s' = mode_eigenvalue sim
  /\ (mode_eigenvalue sim = true ->
      i_iter s' = N_iter sim /\ (i_iter sim < N_iter sim)%Z /\ census_time s' = [INF]).
Proof.
  unfold run. intros H. apply run_loop_inv in H.
  destruct (run_setup_fields sim) as (M & I & N).
  destruct H as (B & S & M' & C & E).
  split; [exact B|]. split; [exact S|]. split; [congruence|].
  intros Hm. destruct (E ltac:(congruence)) as (I' & L).
  split; [congruence|]. split; [lia|].
  rewrite C. unfold run_setup. cbn. rewrite Hm. reflexivity.
Qed.

End Iteration.

(* ====================================================================== *)
(** * Errors of a pass and the eigenvalue iteration *)
(* ====================================================================== *)

Section Edges.
Context {np : NumPy} {mpi_ops : MpiOps} {pct_ops : PctOps}.

(** X17: the errors of one pass of the particle loop, in the order the
    code meets them: a group beyond [speeds] raises IndexError, a particle
    without a cell AttributeError, a group beyond the cross sections of the
    material IndexError, a particle without a census index TypeError, and a
    census index beyond [census_time] IndexError. *)
Theorem track_step_errors (sim : Simulator) (P : Particle) :
  (nth_error (speeds sim) (g P) = None -> track_step sim P = Raise IndexError)
  /\ (forall v,
        nth_error (speeds sim) (g P) = Some v -> cell P = None ->
        track_step sim P = Raise AttributeError)
  /\ (forall v C,
        nth_error (speeds sim) (g P) = Some v -> cell P = Some C ->
        nth_error (SigmaT (material C)) (g P) = None ->
        track_step sim P = Raise IndexError)
  /\ (forall v C sT,
        nth_error (speeds sim) (g P) = Some v -> cell P = Some C ->
        nth_error (SigmaT (material C)) (g P) = Some sT ->
        (time_idx P = None -> track_step sim P = Raise TypeError)
        /\ (forall i,
              time_idx P = Some i -> (Z.of_nat (length (census_time sim)) <= i)%Z ->
              track_step sim P = Raise IndexError)).
Proof.
  unfold track_step, index.
  change (g (save_previous_state P)) with (g P).
  split; [intros ->; reflexivity|].
  split; [intros v -> Hc; cbn [bind]; unfold get_collision_distance;
          destruct (rng_draw sim) as [xi s1];
          change (cell (set_speed (save_previous_state P) v)) with (cell P);
          rewrite Hc; reflexivity|].
  split; [intros v C -> Hc Hs; cbn [bind]; unfold get_collision_distance, index;
          destruct (rng_draw sim) as [xi s1];
          change (cell (set_speed (save_previous_state P) v)) with (cell P);
          change (g (set_speed (save_previous_state P) v)) with (g P);
          rewrite Hc; cbn [attr bind]; rewrite Hs; reflexivity|].
  intros v C sT -> Hc Hs. cbn [bind]. unfold get_collision_distance, surface_distance, index.
  destruct (rng_draw sim) as [xi s1] eqn:E.
  apply only_rng_draw, only_rng_setup, (f_equal census_time) in E. cbn in E.
  change (cell (set_speed (save_previous_state P) v)) with (cell P).
  change (g (set_speed (save_previous_state P) v)) with (g P).
  change (time_idx (set_speed (save_previous_state P) v)) with (time_idx P).
  rewrite Hc. cbn [attr bind]. rewrite Hs. cbn [bind].
  destruct (nearest_surface _ _ _ _) as [Sn d]. split.
  - intros ->. reflexivity.
  - intros i -> Hi. cbn [bind]. rewrite E. unfold py_index, index.
    destruct (Z.leb_spec 0 i); [|lia].
    rewrite (proj2 (nth_error_None _ _)); [reflexivity | lia].
Qed.

(** X18: a pass of the simulation loop in eigenvalue mode increments
    [i_iter] by one, keeps [N_iter], ends the simulation exactly when the
    incremented [i_iter] equals [N_iter], and leaves the stored bank empty
    (and the source bank as well when it ends). *)
Theorem eigenvalue_iteration (fuel : nat) (s s' : Simulator) (simulation_end : bool) :
  mode_eigenvalue s = true ->
  run_iteration fuel s = Ret (s', simulation_end) ->
  i_iter s' = (i_iter s + 1)%Z /\ N_iter s' = N_iter s
  /\ (simulation_end = true <-> (i_iter s + 1)%Z = N_iter s)
  /\ bank_stored s' = []
  /\ (simulation_end = true -> bank_source s' = []).
Proof.
  intros Hm H. apply run_iteration_inv in H. destruct H as (B & S & E & _).
  destruct (E Hm) as (I & N & Ee). auto.
Qed.


End Edges.

(* ====================================================================== *)
(** * The further theorems on the example configuration *)
(* ====================================================================== *)

Lemma surface_distance_nearest_witness :
  exists Sn d,
    surface_distance ex_particle = Ret (Sn, d)
    /\ Forall (fun s => PrimFloat.leb d (dist_to ex_particle s) = true) (surfaces ex_cell).
Proof.
  assert (H1 : cell ex_particle = Some ex_cell) by reflexivity.
  assert (H2 : Forall (fun s => not_nan (dist_to ex_particle s)) (surfaces ex_cell))
    by (repeat constructor; vm_compute; reflexivity).
  destruct (surface_distance_nearest ex_particle H1 H2) as (Sn & d & H & F & _).
  exists Sn, d. split; assumption.
Defined.

Lemma sample_group_first_exceeding_witness :
  exists g_out,
    sample_group [0.5%float; 0.25%float] 0.625%float = Ret g_out /\ (g_out < 2)%nat.
Proof.
  assert (H : [0.5%float; 0.25%float] <> []) by discriminate.
  destruct (sample_group_first_exceeding 0.625%float H) as (g_out & H1 & H2 & _).
  exists g_out. split; [exact H1 | exact H2].
Defined.

Lemma collision_scattering_spec_witness :
  exists sim' P',
    collision_scattering ex_sim ex_particle = Ret (sim', P')
    /\ sim' = set_rng ex_sim (Random.advance (rng ex_sim) 3) /\ g P' = O.
Proof.
  destruct (collision_scattering ex_sim ex_particle) as [[sim' P']| | |] eqn:E;
    try (vm_compute in E; discriminate E).
  assert (H1 : cell ex_particle = Some ex_cell) by reflexivity.
  assert (H2 : nth_error (SigmaS_diff (material ex_cell)) (g ex_particle) = Some [0.5%float])
    by reflexivity.
  assert (H3 : nth_error (SigmaS (material ex_cell)) (g ex_particle) = Some 0.5%float)
    by reflexivity.
  destruct (proj1 (collision_scattering_spec ex_sim ex_particle H1 H2 H3) sim' P' E)
    as (_ & K1 & K2 & K3 & _).
  exists sim', P'. split; [reflexivity|]. split; [exact K1|].
  rewrite K2. cbn [length] in K3. lia.
Defined.

Lemma loop_particle_returns_dead_witness :
  exists sim' P',
    loop_particle 60 ex_sim ex_particle = Ret (sim', P')
    /\ alive P' = false /\ wgt P' = wgt ex_particle.
Proof.
  destruct (loop_particle 60 ex_sim ex_particle) as [[sim' P']| | |] eqn:E;
    try (vm_compute in E; discriminate E).
  destruct (loop_particle_returns_dead 60 ex_sim ex_particle E) as (H1 & H2 & _).
  exists sim', P'. split; [reflexivity|]. split; assumption.
Defined.

Lemma loop_history_drains_bank_witness :
  exists sim', loop_history 60 ex_sim_history = Ret sim' /\ bank_history sim' = [].
Proof.
  destruct (loop_history 60 ex_sim_history) as [sim'| | |] eqn:E;
    try (vm_compute in E; discriminate E).
  destruct (loop_history_drains_bank 60 ex_sim_history E) as (H1 & _).
  exists sim'. split; [reflexivity | exact H1].
Defined.

Lemma fixed_source_stores_census_copy_witness :
  exists sim' P',
    loop_particle 60 ex_sim ex_particle = Ret (sim', P')
    /\ (bank_stored sim' = bank_stored ex_sim
        \/ exists Q idx,
             bank_stored sim' = bank_stored ex_sim ++ [Q]
             /\ time_idx ex_particle = Some idx /\ time_idx Q = Some (idx + 1)%Z
             /\ (idx + 1 < Z.of_nat (length (census_time ex_sim)))%Z
             /\ wgt Q = wgt ex_particle /\ alive Q = true).
Proof.
  destruct (loop_particle 60 ex_sim ex_particle) as [[sim' P']| | |] eqn:E;
    try (vm_compute in E; discriminate E).
  assert (Hb : bank_fission ex_sim = Some BankHistory) by reflexivity.
  exists sim', P'. split; [reflexivity|].
  exact (fixed_source_stores_census_copy 60 ex_sim ex_particle Hb E).
Defined.

Lemma no_census_at_infinity_witness :
  exists sim' P', track_step ex_sim_k ex_particle = Ret (sim', P') /\ time_idx P' = Some 0%Z.
Proof.
  destruct (track_step ex_sim_k ex_particle) as [[sim' P']| | |] eqn:E;
    try (vm_compute in E; discriminate E).
  assert (H1 : census_time ex_sim_k = [INF]) by (vm_compute; reflexivity).
  assert (H2 : time_idx ex_particle = Some 0%Z) by reflexivity.
  assert (H3 : nth_error (speeds ex_sim_k) (g ex_particle) = Some 1%float)
    by (vm_compute; reflexivity).
  assert (H4 : PrimFloat.ltb 0 1 = true) by reflexivity.
  assert (H5 : PrimFloat.ltb (time ex_particle) infinity = true) by reflexivity.
  destruct (no_census_at_infinity ex_sim_k ex_particle H1 H2 H3 H4 H5 E) as (_ & K).
  exists sim', P'. split; [reflexivity | exact K].
Defined.

Lemma source_bank_too_short_witness :
  loop_source 60 ex_sim_bank = Raise IndexError.
Proof.
  assert (H1 : bank_source ex_sim_bank <> []) by discriminate.
  assert (H2 : (length (bank_source ex_sim_bank)
                < Z.to_nat (Mpi.work_size (mpi ex_sim_bank)))%nat)
    by (vm_compute; lia).
  destruct (history_start 60 ex_sim_bank (length (bank_source ex_sim_bank)))
    as [s| | |] eqn:E; try (vm_compute in E; discriminate E).
  exact (proj2 (proj2 (source_bank_too_short 60 ex_sim_bank H1 H2)) s E).
Defined.

Lemma source_selection_witness :
  exists sim',
    get_source_particle ex_sim 0 = Ret sim' /\ length (bank_history sim') = 1%nat.
Proof.
  destruct (get_source_particle ex_sim 0) as [sim'| | |] eqn:E;
    try (vm_compute in E; discriminate E).
  assert (H1 : bank_source ex_sim = []) by reflexivity.
  destruct (proj2 (source_selection ex_sim 0 H1) sim' E)
    as (before & s & after & t & P & _ & _ & _ & _ & K & _).
  exists sim'. split; [reflexivity|]. rewrite K. reflexivity.
Defined.

Lemma fixed_source_iteration_witness :
  exists s' simulation_end,
    run_iteration 60 ex_sim = Ret (s', simulation_end) /\ bank_stored s' = [].
Proof.
  destruct (run_iteration 60 ex_sim) as [[s' e]| | |] eqn:E;
    try (vm_compute in E; discriminate E).
  assert (H1 : mode_eigenvalue ex_sim = false) by reflexivity.
  destruct (fixed_source_iteration 60 ex_sim H1 E) as (s1 & _ & _ & _ & _ & K & _).
  exists s', e. split; [reflexivity | exact K].
Defined.

Lemma run_ends_with_empty_banks_witness :
  exists s', run 60 (set_kmode ex_sim 2 1%float) = Ret s' /\ i_iter s' = 2%Z.
Proof.
  destruct (run 60 (set_kmode ex_sim 2 1%float)) as [s'| | |] eqn:E;
    try (vm_compute in E; discriminate E).
  destruct (run_ends_with_empty_banks 60 (set_kmode ex_sim 2 1%float) E) as (_ & _ & _ & K).
  destruct (K eq_refl) as (K1 & _).
  exists s'. split; [reflexivity | exact K1].
Defined.

Lemma collision_changes_direction_group_alive_only_witness :
  exists sim' P',
    collision ex_sim ex_particle = Ret (sim', P')
    /\ pos P' = pos ex_particle /\ wgt P' = wgt ex_particle.
Proof.
  destruct (collision ex_sim ex_particle) as [[sim' P']| | |] eqn:E;
    try (vm_compute in E; discriminate E).
  destruct (collision_changes_direction_group_alive_only ex_sim ex_particle E)
    as (K1 & _ & K2 & _).
  exists sim', P'. split; [reflexivity|]. split; assumption.
Defined.

Lemma eigenvalue_iteration_witness :
  exists s' simulation_end,
    run_iteration 60 (run_setup (set_kmode ex_sim 2 1%float)) = Ret (s', simulation_end)
    /\ i_iter s' = 1%Z.
Proof.
  destruct (run_iteration 60 (run_setup (set_kmode ex_sim 2 1%float))) as [[s' e]| | |] eqn:E;
    try (vm_compute in E; discriminate E).
  assert (H1 : mode_eigenvalue (run_setup (set_kmode ex_sim 2 1%float)) = true)
    by (vm_compute; reflexivity).
  destruct (eigenvalue_iteration 60 (run_setup (set_kmode ex_sim 2 1%float)) H1 E) as (K & _).
  exists s', e. split; [reflexivity|]. rewrite K. vm_compute. reflexivity.
Defined.
